(** * The PostgreSQL snapshot serializer of drizzle-lab

    A shallow embedding of [packages/api/src/pg/serializer/snapshot.ts]
    ([drizzleObjectsToSnapshot] and its helpers) together with the
    properties of the serializer that the specification states.

    Conventions of the embedding:
    - a string is a sequence of code units below 256, one [ascii] each;
    - a JavaScript object used as a dictionary is the [gmap string _] of
      its own properties (insertion order is not recorded); it is read
      with [Js.get], which also finds the properties every object
      inherits from [Object.prototype], and written with [Js.put], which
      stores nothing under [__proto__]; where a key contains a dot or a
      quote, which no inherited name does, the map is read and written
      directly;
    - [console.log] followed by [throw] is a computation in the monad [M],
      which threads the list of printed diagnostics and stops at the first
      thrown error; the diagnostics printed before a throw are kept;
    - functions of this repository that are imported by the serializer but
      live in other files, and the methods of the ORM and of the JavaScript
      runtime that it calls, are the fields of the class [Host]. *)

From Stdlib Require Import ZArith Lia Ascii String.
From stdpp Require Import gmap strings list fin_maps pretty sorting.

Open Scope string_scope.
Set Warnings "-register-all".

(** ** Strings as JavaScript uses them *)

Module Js.

(** [xs.join(sep)] on an array of strings. *)
Definition join (sep : string) (xs : list string) : string :=
  String.concat sep xs.

(** The part of [s] before the first occurrence of the character [c],
    that is [s.split(c)[0]] for a one-character separator. *)
Fixpoint before (c : ascii) (s : string) : string :=
  match s with
  | EmptyString => EmptyString
  | String a rest => if Ascii.eqb a c then EmptyString else String a (before c rest)
  end.

(** [s.replace(c, d)] for one-character strings: only the first occurrence
    is replaced. *)
Fixpoint replaceChar (c d : ascii) (s : string) : string :=
  match s with
  | EmptyString => EmptyString
  | String a rest =>
      if Ascii.eqb a c then String d rest else String a (replaceChar c d rest)
  end.

(** [s.replaceAll(c, t)] for a one-character pattern. *)
Fixpoint replaceAllChar (c : ascii) (t : string) (s : string) : string :=
  match s with
  | EmptyString => EmptyString
  | String a rest =>
      if Ascii.eqb a c then t ++ replaceAllChar c t rest
      else String a (replaceAllChar c t rest)
  end.

(** [s.slice(0, n)]. *)
Definition slice0 (n : nat) (s : string) : string := String.substring 0 n s.

(** [s.toLowerCase()]: the letters [A] to [Z] and, above 127, the capital
    letters from 192 to 222 (215, the multiplication sign, is not one). *)
Definition lowerAscii (a : ascii) : ascii :=
  let n := Ascii.nat_of_ascii a in
  if ((65 <=? n)%nat && (n <=? 90)%nat)
     || ((192 <=? n)%nat && (n <=? 222)%nat && negb (n =? 215)%nat)
  then Ascii.ascii_of_nat (n + 32) else a.

Fixpoint toLowerCase (s : string) : string :=
  match s with
  | EmptyString => EmptyString
  | String a rest => String (lowerAscii a) (toLowerCase rest)
  end.

(** The text a replacement string stands for: [$$] is a dollar sign, [$&]
    the matched text, [$`] the text before the match and [$'] the text
    after it; a string pattern has no groups, so any other dollar sign is
    kept. *)
Fixpoint substitution (matched before after rep : string) : string :=
  match rep with
  | String "$" (String c rest as tail) =>
      if Ascii.eqb c "$" then String "$" (substitution matched before after rest)
      else if Ascii.eqb c "&" then matched ++ substitution matched before after rest
      else if Ascii.eqb c "`" then before ++ substitution matched before after rest
      else if Ascii.eqb c "'" then after ++ substitution matched before after rest
      else String "$" (substitution matched before after tail)
  | String a rest => String a (substitution matched before after rest)
  | EmptyString => EmptyString
  end.

(** [s.replace(pat, rep)] with a string pattern: the first occurrence of
    [pat] is replaced; [before] is the text already passed. *)
Fixpoint replaceFrom (pat rep before s : string) : string :=
  if String.prefix pat s then
    let after :=
      String.substring (String.length pat) (String.length s - String.length pat) s in
    substitution pat before after rep ++ after
  else match s with
       | EmptyString => EmptyString
       | String a rest =>
           String a (replaceFrom pat rep (before ++ String a EmptyString) rest)
       end.

Definition replaceFirst (pat rep s : string) : string :=
  replaceFrom pat rep EmptyString s.

(** [xs.includes(x)] on an array of strings. *)
Definition includes (xs : list string) (x : string) : bool :=
  bool_decide (x ∈ xs).

(** [xs.sort()] on an array of strings: ascending order of code units. *)
Fixpoint insertSorted (x : string) (xs : list string) : list string :=
  match xs with
  | [] => [x]
  | y :: ys => if String.leb x y then x :: y :: ys else y :: insertSorted x ys
  end.

Definition sort (xs : list string) : list string :=
  foldr insertSorted [] xs.

(** *** The sign test [parseFloat(s) < 0]

    [parseFloat] skips leading white space (among the code units below
    256: tab, line feed, vertical tab, form feed, carriage return, space
    and the no-break space 160), reads the longest prefix that
    is a decimal literal (sign, digits, fraction, exponent, or [Infinity])
    and yields [NaN] when there is none.  The comparison with zero is true
    exactly when the sign is [-] and the literal does not round to zero as
    a double, which is decided here on integers. *)

Definition isDigit (a : ascii) : bool :=
  let n := Ascii.nat_of_ascii a in (48 <=? n)%nat && (n <=? 57)%nat.

Definition isSpace (a : ascii) : bool :=
  let n := Ascii.nat_of_ascii a in
  ((9 <=? n)%nat && (n <=? 13)%nat) || (n =? 32)%nat || (n =? 160)%nat.

Fixpoint trimStart (s : string) : string :=
  match s with
  | String a rest => if isSpace a then trimStart rest else s
  | EmptyString => EmptyString
  end.

(** Reads a run of digits: the digits read, their value given the value
    [acc] of the digits before them, and the rest of the string. *)
Fixpoint digits (acc : Z) (s : string) : nat * Z * string :=
  match s with
  | String a rest =>
      if isDigit a then
        let '(n, v, r) := digits (10 * acc + (Z.of_nat (Ascii.nat_of_ascii a) - 48))%Z rest in
        (S n, v, r)
      else (O, acc, s)
  | EmptyString => (O, acc, s)
  end.

(** The exponent part [e], [e+] or [e-] followed by at least one digit;
    zero when there is none. *)
Definition exponent (s : string) : Z :=
  match s with
  | String e rest =>
      if Ascii.eqb e "e" || Ascii.eqb e "E" then
        match rest with
        | String "-" ds =>
            let '(n, v, _) := digits 0 ds in
            if (n =? 0)%nat then 0%Z else (- v)%Z
        | String "+" ds => let '(_, v, _) := digits 0 ds in v
        | _ => let '(_, v, _) := digits 0 rest in v
        end
      else 0%Z
  | EmptyString => 0%Z
  end.

(** Whether the magnitude [m * 10^e] is more than half of the least
    positive double, [2^-1074], and so does not round to zero. *)
Definition magnitudeNonzero (m e : Z) : bool :=
  if (0 <=? e)%Z then (0 <? m)%Z
  else (10 ^ (- e) <? m * 2 ^ 1075)%Z.

(** The unsigned part of a decimal literal. *)
Definition unsignedNonzero (s : string) : bool :=
  if String.prefix "Infinity" s then true
  else
    let '(n1, v1, r1) := digits 0 s in
    match r1 with
    | String "." r2 =>
        let '(n2, v2, r3) := digits v1 r2 in
        if ((n1 + n2)%nat =? 0)%nat then false
        else magnitudeNonzero v2 (exponent r3 - Z.of_nat n2)
    | _ =>
        if (n1 =? 0)%nat then false
        else magnitudeNonzero v1 (exponent r1)
    end.

Definition parseFloatNegative (s : string) : bool :=
  match trimStart s with
  | String "-" rest => unsignedNonzero rest
  | _ => false
  end.

(** *** The text of a number

    [String(x)] and [x.toString()] for the number [x] that an integer
    stands for.  An integer below 2^53 in magnitude is a number, and its
    text is its decimal notation.  A larger integer stands for the nearest
    double (ties to the even mantissa, infinite from 2^1024 on), whose text
    is the shortest decimal numeral that rounds to it, the closest such
    one to it, written with an exponent from 22 digits on. *)

Definition safeInteger (n : Z) : Prop := (- 2 ^ 53 < n < 2 ^ 53)%Z.

(** The double nearest to the integer [a], for [2^53 <= a]; [None] when it
    is infinite. *)
Definition nearestDouble (a : Z) : option Z :=
  let e := (Z.log2 a - 52)%Z in
  let q := (a / 2 ^ e)%Z in
  let r := (a mod 2 ^ e)%Z in
  let half := (2 ^ (e - 1))%Z in
  let q' := if (half <? r)%Z || ((r =? half)%Z && Z.odd q) then (q + 1)%Z else q in
  let x := (q' * 2 ^ e)%Z in
  if (2 ^ 1024 <=? x)%Z then None else Some x.

(** Whether the integer [v] rounds to the double [x], for [2^53 <= x]:
    it lies within half the distance to the neighbours of [x], the ends
    included when the mantissa of [x] is even.  The comparison is made on
    four times the values, the lower neighbour of 2^53 being half a unit
    away. *)
Definition roundsTo (x v : Z) : bool :=
  let b := Z.log2 x in
  let e := (b - 52)%Z in
  let up := (2 ^ (e + 1))%Z in
  let down := if (x =? 2 ^ b)%Z then (2 ^ e)%Z else (2 ^ (e + 1))%Z in
  if Z.even (x / 2 ^ e) then
    (4 * x - down <=? 4 * v)%Z && (4 * v <=? 4 * x + up)%Z
  else
    (4 * x - down <? 4 * v)%Z && (4 * v <? 4 * x + up)%Z.

Definition decimalDigits (v : Z) : nat := String.length (pretty v).

(** [v] without its trailing zeros. *)
Fixpoint stripZeros (fuel : nat) (v : Z) : Z :=
  match fuel with
  | O => v
  | S fuel => if (v mod 10 =? 0)%Z then stripZeros fuel (v / 10) else v
  end.

Definition significant (v : Z) : Z := stripZeros (Z.to_nat (Z.log2 v)) v.

(** Of two numerals for [x], the one with fewer significant digits, then
    the one closer to [x], then the one whose significant digits make an
    even number. *)
Definition better (x a b : Z) : Z :=
  let ka := decimalDigits (significant a) in
  let kb := decimalDigits (significant b) in
  if (ka <? kb)%nat then a
  else if (kb <? ka)%nat then b
  else if (Z.abs (a - x) <? Z.abs (b - x))%Z then a
  else if (Z.abs (b - x) <? Z.abs (a - x))%Z then b
  else if Z.even (significant a) then a else b.

(** The numeral of the double [x]: the multiples of a power of ten next
    to [x] are tried, for the powers that leave at most eighteen digits
    (seventeen digits tell any two doubles apart). *)
Definition numeral (x : Z) : Z :=
  foldl (λ best j,
           let p := (10 ^ Z.of_nat j)%Z in
           let below := (x / p * p)%Z in
           let above := (below + p)%Z in
           let best :=
             if (0 <? below)%Z && roundsTo x below then better x best below else best in
           if roundsTo x above then better x best above else best)
        x (seq (decimalDigits x - 18) 19).

(** [d.ddde+n] *)
Definition exponentForm (v : Z) : string :=
  let power := pretty (Z.of_nat (decimalDigits v) - 1)%Z in
  match pretty (significant v) with
  | String d EmptyString => String d ("e+" ++ power)
  | String d rest => String d ("." ++ rest ++ "e+" ++ power)
  | EmptyString => EmptyString
  end.

Definition positiveText (a : Z) : string :=
  if (a <? 2 ^ 53)%Z then pretty a
  else
    match nearestDouble a with
    | None => "Infinity"
    | Some x =>
        let v := numeral x in
        if (decimalDigits v <=? 21)%nat then pretty v else exponentForm v
    end.

Definition numberText (n : Z) : string :=
  match n with
  | Z0 => "0"
  | Zpos _ => positiveText n
  | Zneg _ => "-" ++ positiveText (- n)
  end.

(** *** Objects used as dictionaries

    An object created by [{}] inherits from [Object.prototype]: reading a
    property that the object does not have itself finds the inherited one
    when the name is one of the names below, and writing [__proto__]
    replaces the prototype instead of adding a property. *)

Definition prototypeNames : list string :=
  ["constructor"; "__defineGetter__"; "__defineSetter__"; "hasOwnProperty";
   "__lookupGetter__"; "__lookupSetter__"; "isPrototypeOf";
   "propertyIsEnumerable"; "toString"; "valueOf"; "__proto__";
   "toLocaleString"].

Definition inherited (key : string) : bool := bool_decide (key ∈ prototypeNames).

(** What [obj[key]] yields: a property of the object itself, a member of
    [Object.prototype] (a function, or the prototype object for
    [__proto__]), or [undefined]. *)
Inductive property (V : Type) : Type :=
| Own (v : V)
| Inherited
| Undefined.

Arguments Own {V} v.
Arguments Inherited {V}.
Arguments Undefined {V}.

Definition get {V : Type} (obj : gmap string V) (key : string) : property V :=
  match obj !! key with
  | Some v => Own v
  | None => if inherited key then Inherited else Undefined
  end.

(** [obj[key] = v] for an object [v]. *)
Definition put {V : Type} (obj : gmap string V) (key : string) (v : V)
    : gmap string V :=
  match obj !! key with
  | Some _ => <[key := v]> obj
  | None => if decide (key = "__proto__") then obj else <[key := v]> obj
  end.

End Js.

(** ** The input: the schema objects ([DrizzleObjects]) *)

(** [config.casing]. *)
Inductive CasingType : Type := SnakeCase | CamelCase.

(** An [SQL] object of the ORM, identified by its source text. *)
Inductive SQL : Type := Sql (source : string).

(** JavaScript values that occur as column defaults.  [VNumber n] is the
    number that the integer [n] stands for (see [Js.numberText]); any
    other number (one with a fraction, [NaN], an infinity) is a [VFloat],
    given by the text that [toString()] yields for it.  A [Date] is given
    by its [toISOString()]. *)
Inductive value : Type :=
| VUndefined
| VNull
| VBool (b : bool)
| VNumber (n : Z)
| VFloat (text : string)
| VBigInt (n : Z)
| VString (s : string)
| VDate (iso : string)
| VArray (items : list value)
| VObject (fields : list (string * value))
| VSql (q : SQL).

(** A field of sequence options: [string | number], the numbers as for
    [VNumber] and [VFloat]. *)
Inductive numeric : Type :=
| NumString (s : string)
| NumNumber (n : Z)
| NumFloat (text : string).

Record SequenceOptions : Type := {
  opt_increment : option numeric;
  opt_minValue : option numeric;
  opt_maxValue : option numeric;
  opt_startWith : option numeric;
  opt_cache : option numeric;
  opt_cycle : option bool;
}.

(** [column.generatedIdentity]. *)
Record GeneratedIdentity : Type := {
  gi_type : string;
  gi_sequenceName : option string;
  gi_sequenceOptions : option SequenceOptions;
}.

(** [column.generated.as]: an [SQL] object, a function that returns one,
    or anything else. *)
Inductive generatedAs : Type :=
| AsSql (q : SQL)
| AsFunction (returns : SQL)
| AsOther (v : value).

(** A column of the ORM ([PgColumn]). *)
Record PgColumn : Type := {
  col_name : string;
  col_keyAsName : bool;
  col_notNull : bool;
  col_primary : bool;
  (** [column.getSQLType()] *)
  col_sqlType : string;
  (** [column.columnType], the name of the column class *)
  col_columnType : string;
  (** [Some s] when the column is a [PgEnumColumn] with [enum.schema = s] *)
  col_enum : option (option string);
  col_generated : option generatedAs;
  col_generatedIdentity : option GeneratedIdentity;
  col_isUnique : bool;
  col_uniqueName : option string;
  col_uniqueType : option string;
  (** [VUndefined] when the column has no default *)
  col_default : value;
  col_enumValues : option (list string);
  (** [column.defaultFn?.toString()] and [column.onUpdateFn?.toString()] *)
  col_defaultFn : option string;
  col_onUpdateFn : option string;
}.

(** [it.indexConfig] of an indexed column. *)
Record IndexConfig : Type := {
  ic_order : option string;
  ic_nulls : option string;
  ic_opClass : option string;
}.

Record IndexedColumn : Type := {
  icol_name : option string;
  icol_keyAsName : bool;
  icol_type : string;
  icol_indexConfig : IndexConfig;
}.

(** A member of [index.config.columns]. *)
Inductive IndexMember : Type :=
| MemberSql (q : SQL)
| MemberColumn (c : IndexedColumn).

Record PgIndex : Type := {
  ix_name : option string;
  ix_columns : list IndexMember;
  (** [getTableName(index.config.table)] *)
  ix_table : string;
  ix_unique : option bool;
  ix_where : option SQL;
  ix_concurrently : option bool;
  ix_method : option string;
  ix_with : option (gmap string string);
}.

(** A foreign key, with the parts of [fk.reference()] that are read. *)
Record PgForeignKey : Type := {
  fk_name : string;
  fk_onDelete : option string;
  fk_onUpdate : option string;
  fk_columns : list PgColumn;
  fk_foreignColumns : list PgColumn;
  fk_foreignTableName : string;
  fk_foreignTableSchema : option string;
}.

Record PgCheck : Type := {
  chk_name : string;
  chk_value : SQL;
}.

Record PgPrimaryKey : Type := {
  pk_name : string;
  pk_columns : list PgColumn;
}.

Record PgUniqueConstraint : Type := {
  unq_name : option string;
  unq_columns : list PgColumn;
  unq_nullsNotDistinct : bool;
}.

Inductive policyAs : Type := Permissive | Restrictive.
Inductive policyFor : Type := ForAll | ForSelect | ForInsert | ForUpdate | ForDelete.

(** An element of [policy.to]: a role name or a [PgRole]. *)
Inductive roleRef : Type :=
| RoleName (name : string)
| RoleObject (name : string).

Inductive policyTo : Type :=
| ToAbsent
| ToOne (r : roleRef)
| ToMany (rs : list roleRef).

(** The table a standalone policy was linked to, as [getTableConfig] of
    [policy._linkedTable] shows it. *)
Record LinkedTable : Type := {
  lt_schema : option string;
  lt_name : string;
}.

Record PgPolicy : Type := {
  pol_name : string;
  pol_as : option policyAs;
  pol_for : option policyFor;
  pol_to : policyTo;
  (** [Some q] when the field is an [SQL] object *)
  pol_using : option SQL;
  pol_withCheck : option SQL;
  pol_linkedTable : option LinkedTable;
}.

(** The annotations a table or view carries under the [DrizzleLab]
    symbol; [columns] and [jsonShapes] are objects read as dictionaries,
    when they are there. *)
Record Explain : Type := {
  ex_description : option string;
  ex_columns : option (gmap string string);
  ex_jsonShapes : option (gmap string value);
}.

(** A table, as [getTableConfig] shows it. *)
Record PgTable : Type := {
  tbl_name : string;
  tbl_schema : option string;
  tbl_columns : list PgColumn;
  tbl_indexes : list PgIndex;
  tbl_foreignKeys : list PgForeignKey;
  tbl_checks : list PgCheck;
  tbl_primaryKeys : list PgPrimaryKey;
  tbl_uniqueConstraints : list PgUniqueConstraint;
  tbl_policies : list PgPolicy;
  tbl_enableRLS : bool;
  tbl_explain : option Explain;
}.

(** One relation of a relations configuration. *)
Record RelationIn : Type := {
  rel_isMany : bool;
  rel_fieldName : string;
  rel_relationName : option string;
  rel_referencedTableName : string;
}.

Record RelationsConfig : Type := {
  rc_dbName : string;
  rc_relations : list RelationIn;
}.

(** A field selected by a view: a column or something else. *)
Inductive selectedField : Type :=
| FieldColumn (c : PgColumn)
| FieldOther.

(** A view or a materialized view, as [getViewConfig] or
    [getMaterializedViewConfig] shows it. *)
Record PgViewLike : Type := {
  vw_materialized : bool;
  vw_name : string;
  vw_schema : option string;
  vw_query : option SQL;
  vw_selectedFields : list (string * selectedField);
  vw_isExisting : bool;
  vw_with : option (gmap string string);
  vw_tablespace : option string;
  vw_using : option string;
  vw_withNoData : option bool;
  vw_explain : option Explain;
}.

Record PgEnum : Type := {
  en_enumName : string;
  en_schema : option string;
  en_enumValues : list string;
}.

Record PgSequence : Type := {
  sq_seqName : string;
  sq_schema : option string;
  sq_seqOptions : option SequenceOptions;
}.

Record PgRole : Type := {
  role_name : string;
  role_existing : bool;
  role_createDb : option bool;
  role_createRole : option bool;
  role_inherit : option bool;
}.

Record PgSchema : Type := {
  schemaName : string;
}.

Record DrizzleObjects : Type := {
  tables : list PgTable;
  enums : list PgEnum;
  schemas : list PgSchema;
  sequences : list PgSequence;
  roles : list PgRole;
  policies : list PgPolicy;
  views : list PgViewLike;
  matViews : list PgViewLike;
  relations : list RelationsConfig;
}.

(** [config.entities.roles]: a boolean or an object with a provider. *)
Inductive rolesEntity : Type :=
| RolesFlag (b : bool)
| RolesObject (provider : option string).

Record PartialConfig : Type := {
  cfg_casing : option CasingType;
  cfg_schemaFilter : option (list string);
  cfg_projectId : option string;
  cfg_roles : option rolesEntity;
}.

(** ** The output: the snapshot document *)

Record Identity : Type := {
  identity_type : string;
  identity_name : string;
  identity_schema : string;
  identity_increment : string;
  identity_startWith : string;
  identity_minValue : string;
  identity_maxValue : string;
  identity_cache : string;
  identity_cycle : bool;
}.

(** [{ as, type: "stored" }]. *)
Record Generated : Type := {
  generated_as : value;
  generated_type : string;
}.

Record Column : Type := {
  column_name : string;
  column_type : string;
  column_typeSchema : option string;
  column_primaryKey : bool;
  column_notNull : bool;
  column_generated : option Generated;
  column_identity : option Identity;
  (** [explain.columns[name]], an object that is read as a dictionary *)
  column_description : Js.property string;
  column_enumValues : option (list string);
  column_defaultFn : option string;
  column_onUpdateFn : option string;
  column_jsonShape : option string;
  (** a string for the encoded defaults, the value itself otherwise *)
  column_default : option value;
}.

Record IndexColumnType : Type := {
  ict_expression : string;
  ict_isExpression : bool;
  ict_asc : bool;
  ict_nulls : string;
  ict_opclass : option string;
}.

Record Index : Type := {
  index_name : string;
  index_columns : list IndexColumnType;
  index_isUnique : bool;
  index_where : option string;
  index_concurrently : bool;
  index_method : string;
  index_with : gmap string string;
}.

Record ForeignKey : Type := {
  foreignKey_name : string;
  foreignKey_tableFrom : string;
  foreignKey_tableTo : string;
  foreignKey_schemaTo : option string;
  foreignKey_columnsFrom : list string;
  foreignKey_columnsTo : list string;
  foreignKey_onDelete : option string;
  foreignKey_onUpdate : option string;
}.

Record PrimaryKey : Type := {
  primaryKey_name : string;
  primaryKey_columns : list string;
}.

Record UniqueConstraint : Type := {
  unique_name : option string;
  unique_nullsNotDistinct : bool;
  unique_columns : list string;
}.

Record Policy : Type := {
  policy_name : string;
  policy_as : string;
  policy_for : string;
  policy_to : list string;
  policy_using : option string;
  policy_withCheck : option string;
  (** only on the policies of the top-level map *)
  policy_schema : option string;
  policy_on : option string;
}.

Record CheckConstraint : Type := {
  check_name : string;
  check_value : string;
}.

Record Relation : Type := {
  relation_type : string;
  relation_fieldName : string;
  relation_relationName : string;
  relation_referencedTableName : string;
}.

Record Table : Type := {
  table_name : string;
  table_schema : string;
  table_columns : gmap string Column;
  table_indexes : gmap string Index;
  table_foreignKeys : gmap string ForeignKey;
  table_compositePrimaryKeys : gmap string PrimaryKey;
  table_uniqueConstraints : gmap string UniqueConstraint;
  table_policies : gmap string Policy;
  table_checkConstraints : gmap string CheckConstraint;
  table_isRLSEnabled : bool;
  table_description : option string;
  table_relations : list Relation;
}.

Record View : Type := {
  view_columns : gmap string Column;
  view_definition : option string;
  view_name : string;
  view_schema : string;
  view_isExisting : bool;
  view_with : option (gmap string string);
  view_withNoData : option bool;
  view_materialized : bool;
  view_tablespace : option string;
  view_using : option string;
  view_description : option string;
}.

Record Enum : Type := {
  enum_name : string;
  enum_schema : string;
  enum_values : list string;
}.

Record Sequence : Type := {
  sequence_name : string;
  sequence_schema : string;
  sequence_increment : string;
  sequence_startWith : string;
  sequence_minValue : string;
  sequence_maxValue : string;
  sequence_cache : string;
  sequence_cycle : bool;
}.

Record Role : Type := {
  roleOut_name : string;
  roleOut_createDb : bool;
  roleOut_createRole : bool;
  roleOut_inherit : bool;
}.

Record Snapshot : Type := {
  snapshot_version : string;
  snapshot_dialect : string;
  snapshot_tables : gmap string Table;
  snapshot_enums : gmap string Enum;
  snapshot_schemas : gmap string string;
  snapshot_sequences : gmap string Sequence;
  snapshot_roles : gmap string Role;
  snapshot_policies : gmap string Policy;
  snapshot_views : gmap string View;
  (** [_meta]: three empty maps *)
  snapshot_meta : gmap string string * gmap string string * gmap string string;
  snapshot_provider : option string;
  snapshot_projectId : string;
}.

(** ** Errors and diagnostics *)

(** The errors the serializer throws.  Each constructor stands for one
    [throw new Error(...)] site (or family of sites) and records the names
    its message is built from; [ReferenceError] is the error of the
    runtime for a [const] read before its declaration was evaluated, and
    [TypeError] the one for a call of the method [what] on a value that
    has none ([undefined], or a member of [Object.prototype] that a
    dictionary was found to have). *)
Inductive error : Type :=
| DuplicateUniqueConstraintError (owner uniqueName : string)
| MissingIndexNameError (tableName expression : string)
| MissingOperatorClassError (column tableName : string)
| DuplicateIndexNameError (schema tableName : string)
| DuplicatePolicyNameError (tableKey policy : string)
| DuplicateCheckConstraintNameError (schema tableName : string)
| DuplicateViewNameError (schema : string)
| ReferenceError (variable : string)
| TypeError (what : string).

(** What [console.log] printed: the styled message that precedes the throw
    of an error, or the notice about a policy that is not linked. *)
Inductive diagnostic : Type :=
| Reported (e : error)
| PolicySkipped (policy : string).

(** ** Computations that log and may throw *)

Inductive outcome (A : Type) : Type :=
| Returned (a : A)
| Thrown (e : error).

Arguments Returned {A} a.
Arguments Thrown {A} e.

Definition M (A : Type) : Type :=
  list diagnostic → list diagnostic * outcome A.

Definition ret {A : Type} (a : A) : M A :=
  λ log, (log, Returned a).

Definition bind {A B : Type} (m : M A) (k : A → M B) : M B :=
  λ log,
    match m log with
    | (log', Returned a) => k a log'
    | (log', Thrown e) => (log', Thrown e)
    end.

Notation "'do' x <- m ; k" := (bind m (λ x, k))
  (at level 10, x pattern, m at level 100, k at level 200).
Notation "m ;; k" := (bind m (λ _, k))
  (at level 100, k at level 200, right associativity).

Definition throw {A : Type} (e : error) : M A :=
  λ log, (log, Thrown e).

(** [console.log]: the printed lines are kept in order. *)
Definition console_log (d : diagnostic) : M unit :=
  λ log, ((log ++ [d])%list, Returned tt).

(** The pattern of every error site: print the styled message, then
    throw. *)
Definition fail {A : Type} (e : error) : M A :=
  console_log (Reported e) ;; throw e.

(** [xs.forEach(...)] and [for (const x of xs)] with the variables the
    body updates passed along. *)
Fixpoint forEach {A S : Type} (body : S → A → M S) (s : S) (xs : list A) : M S :=
  match xs with
  | [] => ret s
  | x :: rest => do s' <- body s x; forEach body s' rest
  end.

(** Runs a computation from an empty log. *)
Definition run {A : Type} (m : M A) : list diagnostic * outcome A := m [].

(** ** What the serializer imports

    The functions below are called by the serializer and defined
    elsewhere: [getColumnCasing] and [sqlToStr] ([internal/helpers]),
    [escapeSingleQuotes] ([sql/utils]), [isPgArrayType] ([pg/utils]),
    [uniqueKeyName] and the rendering of [SQL] objects by [PgDialect]
    (the ORM), and [JSON.stringify] (the runtime).  [getColumnCasing] is
    applied to columns and to the members of an index, hence its two
    fields.  [JSON.stringify] is taken on the values for which it yields
    a text; a value that holds a [BigInt], on which it throws, is not
    covered. *)
Class Host : Type := {
  sqlToQuery : option CasingType → SQL → string;
  sqlToQueryIndexes : option CasingType → SQL → string;
  sqlToStr : SQL → option CasingType → string;
  getColumnCasing : PgColumn → option CasingType → string;
  getIndexedColumnCasing : IndexMember → option CasingType → string;
  uniqueKeyName : PgTable → list string → string;
  escapeSingleQuotes : string → string;
  isPgArrayType : string → bool;
  JSON_stringify : value → string;
  JSON_stringify_indented : value → string;
}.

(** ** Helpers of the serializer *)

Definition indexName (tableName : string) (columns : list string) : string :=
  tableName ++ "_" ++ Js.join "_" columns ++ "_index".

Definition stringFromIdentityProperty (field : option numeric) : option string :=
  match field with
  | Some (NumString s) => Some s
  | None => None
  | Some (NumNumber n) => Some (Js.numberText n)
  | Some (NumFloat text) => Some text
  end.

Definition maxRangeForIdentityBasedOn (columnType : string) : string :=
  if decide (columnType = "integer") then "2147483647"
  else if decide (columnType = "bigint") then "9223372036854775807"
  else "32767".

Definition minRangeForIdentityBasedOn (columnType : string) : string :=
  if decide (columnType = "integer") then "-2147483648"
  else if decide (columnType = "bigint") then "-9223372036854775808"
  else "-32768".

(** [a ?? b] *)
Definition orElse {A : Type} (a : option A) (b : A) : A := default b a.

(** [a || b] on strings: the empty string counts as absent. *)
Definition orIfEmpty (a : option string) (b : string) : string :=
  match a with
  | Some s => if decide (s = EmptyString) then b else s
  | None => b
  end.

(** A name used as a property key: [undefined] becomes the key
    ["undefined"]. *)
Definition propertyKey (name : option string) : string :=
  orElse name "undefined".

(** [identity?.sequenceOptions?.field] *)
Definition sequenceOption (identity : option GeneratedIdentity)
    (field : SequenceOptions → option numeric) : option numeric :=
  (identity ≫= gi_sequenceOptions) ≫= field.

(** The five values computed for every column before its entity is built
    (the statements that define [increment], [minValue], [maxValue],
    [startWith] and [cache]). *)
Definition identityIncrement (column : PgColumn) : string :=
  orElse (stringFromIdentityProperty
            (sequenceOption (col_generatedIdentity column) opt_increment)) "1".

Definition identityMinValue (column : PgColumn) : string :=
  orElse (stringFromIdentityProperty
            (sequenceOption (col_generatedIdentity column) opt_minValue))
    (if Js.parseFloatNegative (identityIncrement column)
     then minRangeForIdentityBasedOn (col_columnType column)
     else "1").

Definition identityMaxValue (column : PgColumn) : string :=
  orElse (stringFromIdentityProperty
            (sequenceOption (col_generatedIdentity column) opt_maxValue))
    (if Js.parseFloatNegative (identityIncrement column)
     then "-1"
     else maxRangeForIdentityBasedOn (col_sqlType column)).

Definition identityStartWith (column : PgColumn) : string :=
  orElse (stringFromIdentityProperty
            (sequenceOption (col_generatedIdentity column) opt_startWith))
    (if Js.parseFloatNegative (identityIncrement column)
     then identityMaxValue column
     else identityMinValue column).

Definition identityCache (column : PgColumn) : string :=
  orElse (stringFromIdentityProperty
            (sequenceOption (col_generatedIdentity column) opt_cache)) "1".

(** The [identity] field of a column entity; [owner] is the name of the
    table or view and [name] the name the column is stored under. *)
Definition identityOf (owner name : string) (schema : option string)
    (column : PgColumn) : option Identity :=
  (λ identity,
     {| identity_type := gi_type identity;
        identity_name := orElse (gi_sequenceName identity) (owner ++ "_" ++ name ++ "_seq");
        identity_schema := orElse schema "public";
        identity_increment := identityIncrement column;
        identity_startWith := identityStartWith column;
        identity_minValue := identityMinValue column;
        identity_maxValue := identityMaxValue column;
        identity_cache := identityCache column;
        identity_cycle := orElse (gi_sequenceOptions identity ≫= opt_cycle) false |})
  <$> col_generatedIdentity column.

(** [policy.as?.toUpperCase() ?? "PERMISSIVE"] and the same for [for]. *)
Definition policyAsUpper (a : option policyAs) : string :=
  match a with
  | Some Permissive | None => "PERMISSIVE"
  | Some Restrictive => "RESTRICTIVE"
  end.

Definition policyForUpper (f : option policyFor) : string :=
  match f with
  | Some ForAll | None => "ALL"
  | Some ForSelect => "SELECT"
  | Some ForInsert => "INSERT"
  | Some ForUpdate => "UPDATE"
  | Some ForDelete => "DELETE"
  end.

Definition roleRefName (r : roleRef) : string :=
  match r with
  | RoleName name => name
  | RoleObject name => name
  end.

(** The array [mappedTo] of a policy.  An empty role name is falsy, so it
    counts as an absent [to]. *)
Definition mappedTo (policy : PgPolicy) : list string :=
  match pol_to policy with
  | ToAbsent => ["public"]
  | ToOne (RoleName name) => if decide (name = EmptyString) then ["public"] else [name]
  | ToOne (RoleObject name) => [name]
  | ToMany rs => roleRefName <$> rs
  end.

(** ** The serializer *)

(** The double quote and the single quote as strings. *)
Definition dquote : string := String "034"%char EmptyString.
Definition squote : string := String "039"%char EmptyString.
Definition backslash : string := String "092"%char EmptyString.

Section Serializer.

Context `{Host}.

(** *** Array defaults *)

(** The callback of [array.map] in [buildArrayString]: the text of one
    element.  [sqlType] is the type after [sqlType.split("[")[0]]; the case
    of a nested array is the recursive call of [buildArrayString]. *)
Fixpoint elementString (sqlType : string) (value : value) : string :=
  match value with
  | VNumber n => Js.numberText n
  | VFloat text => text
  | VBigInt n => pretty n
  | VBool b => if b then "true" else "false"
  | VArray items =>
      "{" ++ Js.join "," (map (elementString (Js.before "[" sqlType)) items) ++ "}"
  | VDate iso =>
      if decide (sqlType = "date") then
        dquote ++ Js.before "T" iso ++ dquote
      else if decide (sqlType = "timestamp") then
        dquote ++ Js.slice0 23 (Js.replaceChar "T" " " iso) ++ dquote
      else dquote ++ iso ++ dquote
  | VNull | VObject _ | VSql _ =>
      dquote ++ Js.replaceAllChar "034" (backslash ++ dquote) (JSON_stringify value) ++ dquote
  | VString s => dquote ++ s ++ dquote
  | VUndefined => dquote ++ "undefined" ++ dquote
  end.

Definition buildArrayString (array : list value) (sqlType : string) : string :=
  let sqlType := Js.before "[" sqlType in
  let values := Js.join "," (map (elementString sqlType) array) in
  "{" ++ values ++ "}".

(** *** Everything below runs under one configuration *)

Variable config : PartialConfig.

Local Abbreviation casing := (cfg_casing config).
Local Abbreviation schemaFilter := (cfg_schemaFilter config).

(** *** Columns *)

Definition typeSchemaOf (column : PgColumn) : option string :=
  (λ schema, orIfEmpty schema "public") <$> col_enum column.

Definition generatedOf (column : PgColumn) : option Generated :=
  (λ generated,
     {| generated_as :=
          match generated with
          | AsSql q => VString (sqlToQuery casing q)
          | AsFunction q => VString (sqlToQuery casing q)
          | AsOther v => v
          end;
        generated_type := "stored" |})
  <$> col_generated column.

(** The value assigned to [columnToSet.default], if any. *)
Definition defaultOf (column : PgColumn) : option value :=
  let sqlTypeLowered := Js.toLowerCase (col_sqlType column) in
  match col_default column with
  | VUndefined => None
  | VSql q => Some (VString (sqlToStr q casing))
  | VString s => Some (VString (squote ++ escapeSingleQuotes s ++ squote))
  | v =>
      if bool_decide (sqlTypeLowered = "jsonb") || bool_decide (sqlTypeLowered = "json") then
        Some (VString (squote ++ JSON_stringify v ++ squote ++ "::" ++ sqlTypeLowered))
      else
        match v with
        | VDate iso =>
            if decide (sqlTypeLowered = "date") then
              Some (VString (squote ++ Js.before "T" iso ++ squote))
            else if decide (sqlTypeLowered = "timestamp") then
              Some (VString (squote ++ Js.slice0 23 (Js.replaceChar "T" " " iso) ++ squote))
            else Some (VString (squote ++ iso ++ squote))
        | VArray items =>
            if isPgArrayType sqlTypeLowered then
              Some (VString (squote ++ buildArrayString items sqlTypeLowered ++ squote))
            else Some v
        | _ => Some v
        end
  end.

(** The object [columnToSet] once its [default] is assigned.  The text that
    builds it occurs twice in the source, for the columns of a table and
    for those of a view; [owner] is the table or view name, [name] the name
    the column is stored under, and [jsonShape] is only computed for
    tables. *)
Definition columnToSet (owner name : string) (schema : option string)
    (explain : option Explain) (jsonShape : option string)
    (column : PgColumn) : Column :=
  {| column_name := name;
     column_type := col_sqlType column;
     column_typeSchema := typeSchemaOf column;
     column_primaryKey := col_primary column;
     column_notNull := col_notNull column;
     column_generated := generatedOf column;
     column_identity := identityOf owner name schema column;
     column_description :=
       match explain ≫= ex_columns with
       | Some columns => Js.get columns name
       | None => Js.Undefined
       end;
     column_enumValues := col_enumValues column;
     column_defaultFn := col_defaultFn column;
     column_onUpdateFn := col_onUpdateFn column;
     column_jsonShape := jsonShape;
     column_default := defaultOf column |}.

(** The check of a column's unique constraint against those already
    recorded for the table or view, and its recording.  The message of
    the duplicate case calls [existingUnique.columns.join]: when what was
    found is a member of [Object.prototype], which has no [columns], that
    call raises a type error before anything is printed. *)
Definition columnUnique (owner name : string) (column : PgColumn)
    (uniqueConstraintObject : gmap string UniqueConstraint)
    : M (gmap string UniqueConstraint) :=
  if col_isUnique column then
    let key := propertyKey (col_uniqueName column) in
    match Js.get uniqueConstraintObject key with
    | Js.Own existingUnique => fail (DuplicateUniqueConstraintError owner key)
    | Js.Inherited => throw (TypeError "join")
    | Js.Undefined =>
        ret (Js.put uniqueConstraintObject key
               {| unique_name := col_uniqueName column;
                  unique_nullsNotDistinct :=
                    bool_decide (col_uniqueType column = Some "not distinct");
                  unique_columns := [name] |})
    end
  else ret uniqueConstraintObject.

(** [JSON.stringify(explain?.jsonShapes?.[name], null, 2)]: [undefined]
    and functions have no JSON text, and the prototype object, which
    [__proto__] finds, has no property to print. *)
Definition jsonShapeOf (explain : option Explain) (name : string) : option string :=
  match explain ≫= ex_jsonShapes with
  | Some jsonShapes =>
      match Js.get jsonShapes name with
      | Js.Own VUndefined => None
      | Js.Own shape => Some (JSON_stringify_indented shape)
      | Js.Inherited => if decide (name = "__proto__") then Some "{}" else None
      | Js.Undefined => None
      end
  | None => None
  end.

(** The body of [columns.forEach] for a table. *)
Definition tableColumn (table : PgTable)
    (acc : gmap string Column * gmap string UniqueConstraint)
    (column : PgColumn) : M (gmap string Column * gmap string UniqueConstraint) :=
  let '(columnsObject, uniqueConstraintObject) := acc in
  let name := getColumnCasing column casing in
  let jsonShape := jsonShapeOf (tbl_explain table) name in
  do uniqueConstraintObject <-
    columnUnique (tbl_name table) name column uniqueConstraintObject;
  ret (Js.put columnsObject name
         (columnToSet (tbl_name table) name (tbl_schema table)
            (tbl_explain table) jsonShape column),
       uniqueConstraintObject).

(** *** Primary keys, unique constraints, foreign keys *)

(** The loops [name = name.replace(original[i], cased[i])], which run only
    when a casing is configured. *)
Definition replaceNames (name : string) (original cased : list string) : string :=
  match casing with
  | Some _ =>
      foldl (λ name '(o, c), Js.replaceFirst o c name) name (zip original cased)
  | None => name
  end.

Definition tablePrimaryKey (primaryKeysObject : gmap string PrimaryKey)
    (pk : PgPrimaryKey) : gmap string PrimaryKey :=
  let originalColumnNames := col_name <$> pk_columns pk in
  let columnNames := (λ c, getColumnCasing c casing) <$> pk_columns pk in
  let name := replaceNames (pk_name pk) originalColumnNames columnNames in
  Js.put primaryKeysObject name
    {| primaryKey_name := name; primaryKey_columns := columnNames |}.

(** The body of [uniqueConstraints?.map]. *)
Definition tableUnique (table : PgTable)
    (uniqueConstraintObject : gmap string UniqueConstraint)
    (unq : PgUniqueConstraint) : M (gmap string UniqueConstraint) :=
  let columnNames := (λ c, getColumnCasing c casing) <$> unq_columns unq in
  let name := orElse (unq_name unq) (uniqueKeyName table columnNames) in
  match Js.get uniqueConstraintObject name with
  | Js.Own existingUnique => fail (DuplicateUniqueConstraintError (tbl_name table) name)
  | Js.Inherited => throw (TypeError "join")
  | Js.Undefined =>
      ret (Js.put uniqueConstraintObject name
             {| unique_name := unq_name unq;
                unique_nullsNotDistinct := unq_nullsNotDistinct unq;
                unique_columns := columnNames |})
  end.

Definition tableForeignKey (tableName : string) (fk : PgForeignKey) : ForeignKey :=
  let originalColumnsFrom := col_name <$> fk_columns fk in
  let columnsFrom := (λ c, getColumnCasing c casing) <$> fk_columns fk in
  let originalColumnsTo := col_name <$> fk_foreignColumns fk in
  let columnsTo := (λ c, getColumnCasing c casing) <$> fk_foreignColumns fk in
  let name :=
    replaceNames (replaceNames (fk_name fk) originalColumnsFrom columnsFrom)
      originalColumnsTo columnsTo in
  {| foreignKey_name := name;
     foreignKey_tableFrom := tableName;
     foreignKey_tableTo := fk_foreignTableName fk;
     foreignKey_schemaTo := fk_foreignTableSchema fk;
     foreignKey_columnsFrom := columnsFrom;
     foreignKey_columnsTo := columnsTo;
     foreignKey_onDelete := fk_onDelete fk;
     foreignKey_onUpdate := fk_onUpdate fk |}.

(** *** Indexes *)

(** The body of [columns.forEach] for one index: the checks on a member
    and the push of its name onto [indexColumnNames]. *)
Definition indexMember (tableName : string) (value : PgIndex)
    (indexColumnNames : list string) (it : IndexMember) : M (list string) :=
  match it, ix_name value with
  | MemberSql q, None =>
      fail (MissingIndexNameError (ix_table value) (sqlToQuery casing q))
  | _, _ => ret tt
  end;;
  let name := getIndexedColumnCasing it casing in
  match it with
  | MemberColumn c =>
      if bool_decide (icol_type c = "PgVector")
         && bool_decide (ic_opClass (icol_indexConfig c) = None)
      then fail (MissingOperatorClassError name tableName)
      else ret (indexColumnNames ++ [name])%list
  | MemberSql _ => ret (indexColumnNames ++ [name])%list
  end.

(** [value.config.name ? value.config.name : indexName(...)]: an empty
    name is falsy. *)
Definition resolveIndexName (tableName : string) (value : PgIndex)
    (indexColumnNames : list string) : string :=
  match ix_name value with
  | Some name =>
      if decide (name = EmptyString) then indexName tableName indexColumnNames
      else name
  | None => indexName tableName indexColumnNames
  end.

(** The callback of [columns.map] that builds [indexColumns]. *)
Definition indexColumn (it : IndexMember) : IndexColumnType :=
  match it with
  | MemberSql q =>
      {| ict_expression := sqlToQueryIndexes casing q;
         ict_isExpression := true;
         ict_asc := true;
         ict_nulls := "last";
         ict_opclass := None |}
  | MemberColumn c =>
      let indexConfig := icol_indexConfig c in
      {| ict_expression := getIndexedColumnCasing it casing;
         ict_isExpression := false;
         ict_asc := bool_decide (ic_order indexConfig = Some "asc");
         ict_nulls :=
           match ic_nulls indexConfig with
           | Some nulls =>
               if decide (nulls = EmptyString) then
                 if decide (ic_order indexConfig = Some "desc") then "first" else "last"
               else nulls
           | None =>
               if decide (ic_order indexConfig = Some "desc") then "first" else "last"
           end;
         ict_opclass := ic_opClass indexConfig |}
  end.

(** The check for duplicated index names within a schema and the
    recording of the name.  A member of [Object.prototype] found under the
    name of the schema has no [includes] to call. *)
Definition registerIndexName (schema : option string) (tableName name : string)
    (indexesInSchema : gmap string (list string)) : M (gmap string (list string)) :=
  let key := orElse schema "public" in
  match Js.get indexesInSchema key with
  | Js.Own names =>
      if Js.includes names name then fail (DuplicateIndexNameError key tableName)
      else ret (<[key := (names ++ [name])%list]> indexesInSchema)
  | Js.Inherited => throw (TypeError "includes")
  | Js.Undefined => ret (Js.put indexesInSchema key [name])
  end.

(** The body of [indexes.forEach]. *)
Definition tableIndex (table : PgTable)
    (acc : gmap string (list string) * gmap string Index)
    (value : PgIndex) : M (gmap string (list string) * gmap string Index) :=
  let '(indexesInSchema, indexesObject) := acc in
  let columns := ix_columns value in
  do indexColumnNames <- forEach (indexMember (tbl_name table) value) [] columns;
  let name := resolveIndexName (tbl_name table) value indexColumnNames in
  let indexColumns := indexColumn <$> columns in
  do indexesInSchema <-
    registerIndexName (tbl_schema table) (tbl_name table) name indexesInSchema;
  ret (indexesInSchema,
       Js.put indexesObject name
         {| index_name := name;
            index_columns := indexColumns;
            index_isUnique := orElse (ix_unique value) false;
            index_where := sqlToQuery casing <$> ix_where value;
            index_concurrently := orElse (ix_concurrently value) false;
            index_method := orElse (ix_method value) "btree";
            index_with := orElse (ix_with value) ∅ |}).

(** *** Policies *)

(** The policy entity both loops build. *)
Definition mappedPolicy (policy : PgPolicy) : Policy :=
  {| policy_name := pol_name policy;
     policy_as := policyAsUpper (pol_as policy);
     policy_for := policyForUpper (pol_for policy);
     policy_to := Js.sort (mappedTo policy);
     policy_using := sqlToQuery casing <$> pol_using policy;
     policy_withCheck := sqlToQuery casing <$> pol_withCheck policy;
     policy_schema := None;
     policy_on := None |}.

(** The body of [policies.forEach] for the policies declared on a table.
    The message of the duplicate case reads [tableKey], a [const] that is
    declared further down in the loop body and not yet initialised when
    this callback runs: evaluating the message raises a reference error
    before anything is printed or thrown by the [throw] statement. *)
Definition tablePolicy (policiesObject : gmap string Policy)
    (policy : PgPolicy) : M (gmap string Policy) :=
  match Js.get policiesObject (pol_name policy) with
  | Js.Own _ | Js.Inherited => throw (ReferenceError "tableKey")
  | Js.Undefined => ret (Js.put policiesObject (pol_name policy) (mappedPolicy policy))
  end.

(** *** Check constraints *)

(** The body of [checks.forEach]; [checksInTable] is created anew for each
    table. *)
Definition tableCheck (table : PgTable)
    (acc : gmap string (list string) * gmap string CheckConstraint)
    (check : PgCheck) : M (gmap string (list string) * gmap string CheckConstraint) :=
  let '(checksInTable, checksObject) := acc in
  let checkName := chk_name check in
  let schema := orElse (tbl_schema table) "public" in
  let key := dquote ++ schema ++ dquote ++ "." ++ dquote ++ tbl_name table ++ dquote in
  do checksInTable <-
    match checksInTable !! key with
    | Some names =>
        if Js.includes names checkName
        then fail (DuplicateCheckConstraintNameError schema (tbl_name table))
        else ret (<[key := (names ++ [checkName])%list]> checksInTable)
    | None => ret (<[key := [checkName]]> checksInTable)
    end;
  ret (checksInTable,
       Js.put checksObject checkName
         {| check_name := checkName;
            check_value := sqlToQuery casing (chk_value check) |}).

(** *** Relations *)

Definition tableRelation (relation : RelationIn) : Relation :=
  {| relation_type := if rel_isMany relation then "many" else "one";
     relation_fieldName := rel_fieldName relation;
     relation_relationName :=
       orIfEmpty (rel_relationName relation) (rel_fieldName relation);
     relation_referencedTableName := rel_referencedTableName relation |}.

Definition tableRelations (relations : list RelationsConfig) (tableName : string)
    : list Relation :=
  mjoin ((λ config, tableRelation <$> rc_relations config)
         <$> filter (λ r, rc_dbName r = tableName) relations).

(** *** Tables *)

(** What the loop over the tables carries from one table to the next. *)
Record tablesState : Type := {
  result : gmap string Table;
  indexesInSchema : gmap string (list string);
}.

Definition tableKeyOf (schema : option string) (tableName : string) : string :=
  orElse schema "public" ++ "." ++ tableName.

(** Whether the table is skipped by the schema filter. *)
Definition filteredOut (table : PgTable) : bool :=
  match schemaFilter with
  | Some filter => negb (Js.includes filter (orElse (tbl_schema table) "public"))
  | None => false
  end.

(** The body of [for (const table of tables)]. *)
Definition tableStep (relations : list RelationsConfig)
    (st : tablesState) (table : PgTable) : M tablesState :=
  if filteredOut table then ret st
  else
    let tableName := tbl_name table in
    let schema := tbl_schema table in
    do (columnsObject, uniqueConstraintObject) <-
      forEach (tableColumn table) (∅, ∅) (tbl_columns table);
    let primaryKeysObject := foldl tablePrimaryKey ∅ (tbl_primaryKeys table) in
    do uniqueConstraintObject <-
      forEach (tableUnique table) uniqueConstraintObject (tbl_uniqueConstraints table);
    let fks := tableForeignKey tableName <$> tbl_foreignKeys table in
    let foreignKeysObject :=
      foldl (λ obj it, Js.put obj (foreignKey_name it) it) ∅ fks in
    do (indexesInSchema, indexesObject) <-
      forEach (tableIndex table) (indexesInSchema st, ∅) (tbl_indexes table);
    do policiesObject <- forEach tablePolicy ∅ (tbl_policies table);
    do (_, checksObject) <- forEach (tableCheck table) (∅, ∅) (tbl_checks table);
    let tableKey := tableKeyOf schema tableName in
    let description := tbl_explain table ≫= ex_description in
    ret {| result :=
             <[tableKey :=
                 {| table_name := tableName;
                    table_schema := orElse schema EmptyString;
                    table_columns := columnsObject;
                    table_indexes := indexesObject;
                    table_foreignKeys := foreignKeysObject;
                    table_compositePrimaryKeys := primaryKeysObject;
                    table_uniqueConstraints := uniqueConstraintObject;
                    table_policies := policiesObject;
                    table_checkConstraints := checksObject;
                    table_isRLSEnabled := tbl_enableRLS table;
                    table_description := description;
                    table_relations := tableRelations relations tableName |}]>
               (result st);
           indexesInSchema := indexesInSchema |}.

(** The loop over the tables, from empty registries. *)
Definition tablesLoop (relations : list RelationsConfig) (tables : list PgTable)
    : M tablesState :=
  forEach (tableStep relations) {| result := ∅; indexesInSchema := ∅ |} tables.

(** *** Policies linked to a table from outside *)

(** [result[tableKey].policies[policy.name] = mappedPolicy] *)
Definition withPolicy (table : Table) (policy : Policy) : Table :=
  {| table_name := table_name table;
     table_schema := table_schema table;
     table_columns := table_columns table;
     table_indexes := table_indexes table;
     table_foreignKeys := table_foreignKeys table;
     table_compositePrimaryKeys := table_compositePrimaryKeys table;
     table_uniqueConstraints := table_uniqueConstraints table;
     table_policies := Js.put (table_policies table) (policy_name policy) policy;
     table_checkConstraints := table_checkConstraints table;
     table_isRLSEnabled := table_isRLSEnabled table;
     table_description := table_description table;
     table_relations := table_relations table |}.

(** [{ ...mappedPolicy, schema, on }] *)
Definition unlinkedEntry (tableConfig : LinkedTable) (policy : Policy) : Policy :=
  let schema := orElse (lt_schema tableConfig) "public" in
  {| policy_name := policy_name policy;
     policy_as := policy_as policy;
     policy_for := policy_for policy;
     policy_to := policy_to policy;
     policy_using := policy_using policy;
     policy_withCheck := policy_withCheck policy;
     policy_schema := Some schema;
     policy_on :=
       Some (dquote ++ schema ++ dquote ++ "." ++ dquote ++ lt_name tableConfig ++ dquote) |}.

(** [result[tableKey]?.policies[name]] *)
Definition policyOfTable (result : gmap string Table) (tableKey name : string)
    : Js.property Policy :=
  match result !! tableKey with
  | Some table => Js.get (table_policies table) name
  | None => Js.Undefined
  end.

(** The body of [for (const policy of policies)]. *)
Definition policyStep (st : gmap string Table * gmap string Policy)
    (policy : PgPolicy) : M (gmap string Table * gmap string Policy) :=
  let '(result, policiesToReturn) := st in
  match pol_linkedTable policy with
  | None => console_log (PolicySkipped (pol_name policy));; ret st
  | Some tableConfig =>
      let tableKey := tableKeyOf (lt_schema tableConfig) (lt_name tableConfig) in
      match policyOfTable result tableKey (pol_name policy),
            Js.get policiesToReturn (pol_name policy) with
      | Js.Undefined, Js.Undefined =>
          match result !! tableKey with
          | Some table =>
              ret (<[tableKey := withPolicy table (mappedPolicy policy)]> result,
                   policiesToReturn)
          | None =>
              ret (result,
                   Js.put policiesToReturn (pol_name policy)
                     (unlinkedEntry tableConfig (mappedPolicy policy)))
          end
      | _, _ => fail (DuplicatePolicyNameError tableKey (pol_name policy))
      end
  end.

(** *** Sequences, roles, enums, schemas *)

Definition sequenceStep (sequencesToReturn : gmap string Sequence)
    (sequence : PgSequence) : gmap string Sequence :=
  let name := sq_seqName sequence in
  let schema := orElse (sq_schema sequence) "public" in
  let key := schema ++ "." ++ name in
  match sequencesToReturn !! key with
  | None =>
      let option (field : SequenceOptions → option numeric) :=
        stringFromIdentityProperty (sq_seqOptions sequence ≫= field) in
      let increment := orElse (option opt_increment) "1" in
      let minValue :=
        orElse (option opt_minValue)
          (if Js.parseFloatNegative increment then "-9223372036854775808" else "1") in
      let maxValue :=
        orElse (option opt_maxValue)
          (if Js.parseFloatNegative increment then "-1" else "9223372036854775807") in
      let startWith :=
        orElse (option opt_startWith)
          (if Js.parseFloatNegative increment then maxValue else minValue) in
      let cache := orElse (option opt_cache) "1" in
      <[key := {| sequence_name := name;
                  sequence_schema := schema;
                  sequence_increment := increment;
                  sequence_startWith := startWith;
                  sequence_minValue := minValue;
                  sequence_maxValue := maxValue;
                  sequence_cache := cache;
                  sequence_cycle := orElse (sq_seqOptions sequence ≫= opt_cycle) false |}]>
        sequencesToReturn
  | Some _ => sequencesToReturn
  end.

Definition roleStep (rolesToReturn : gmap string Role) (role : PgRole)
    : gmap string Role :=
  if role_existing role then rolesToReturn
  else
    Js.put rolesToReturn (role_name role)
      {| roleOut_name := role_name role;
         roleOut_createDb := orElse (role_createDb role) false;
         roleOut_createRole := orElse (role_createRole role) false;
         roleOut_inherit := orElse (role_inherit role) true |}.

Definition enumStep (map : gmap string Enum) (obj : PgEnum) : gmap string Enum :=
  let enumSchema := orIfEmpty (en_schema obj) "public" in
  let key := enumSchema ++ "." ++ en_enumName obj in
  <[key := {| enum_name := en_enumName obj;
              enum_schema := enumSchema;
              enum_values := en_enumValues obj |}]> map.

(** The filter applied to [schemas]. *)
Definition keptSchema (it : PgSchema) : bool :=
  match schemaFilter with
  | Some filter =>
      Js.includes filter (schemaName it) && negb (bool_decide (schemaName it = "public"))
  | None => negb (bool_decide (schemaName it = "public"))
  end.

(** [Object.fromEntries] of the pairs [[schemaName, schemaName]]. *)
Definition schemasObject (schemas : list PgSchema) : gmap string string :=
  foldl (λ obj it, <[schemaName it := schemaName it]> obj) ∅
    (List.filter keptSchema schemas).

(** *** Views *)

(** The body of the loop over the selected fields of a view, for a field
    that is a column. *)
Definition viewColumn (view : PgViewLike)
    (acc : gmap string Column * gmap string UniqueConstraint)
    (field : string * selectedField)
    : M (gmap string Column * gmap string UniqueConstraint) :=
  let '(columnsObject, uniqueConstraintObject) := acc in
  match field.2 with
  | FieldColumn column =>
      do uniqueConstraintObject <-
        columnUnique (vw_name view) (col_name column) column uniqueConstraintObject;
      ret (Js.put columnsObject (col_name column)
             (columnToSet (vw_name view) (col_name column) (vw_schema view)
                (vw_explain view) None column),
           uniqueConstraintObject)
  | FieldOther => ret acc
  end.

(** The body of [for (const view of combinedViews)]. *)
Definition viewStep (resultViews : gmap string View) (view : PgViewLike)
    : M (gmap string View) :=
  let materialized := vw_materialized view in
  let viewSchema := orElse (vw_schema view) "public" in
  let viewKey := viewSchema ++ "." ++ vw_name view in
  match resultViews !! viewKey with
  | Some existingView => fail (DuplicateViewNameError viewSchema)
  | None =>
      do (columnsObject, _) <- forEach (viewColumn view) (∅, ∅) (vw_selectedFields view);
      do definition <-
        (if vw_isExisting view then ret None
         else match vw_query view with
              | Some query => ret (Some (sqlToQuery casing query))
              | None => throw (TypeError "query")
              end);
      ret (<[viewKey :=
               {| view_columns := columnsObject;
                  view_definition := definition;
                  view_name := vw_name view;
                  view_schema := viewSchema;
                  view_isExisting := vw_isExisting view;
                  view_with := vw_with view;
                  view_withNoData := if materialized then vw_withNoData view else None;
                  view_materialized := materialized;
                  view_tablespace := if materialized then vw_tablespace view else None;
                  view_using := if materialized then vw_using view else None;
                  view_description := vw_explain view ≫= ex_description |}]>
             resultViews)
  end.

(** *** The snapshot *)

(** [drizzleObjectsToSnapshot(drizzleObjects, config)]; the configuration
    comes first here because the functions above are closed over it. *)
Definition drizzleObjectsToSnapshot (drizzleObjects : DrizzleObjects) : M Snapshot :=
  let projectId := orIfEmpty (cfg_projectId config) "drizzle-lab" in
  do st <- tablesLoop (relations drizzleObjects) (tables drizzleObjects);
  do (result, policiesToReturn) <-
    forEach policyStep (result st, ∅) (policies drizzleObjects);
  let sequencesToReturn := foldl sequenceStep ∅ (sequences drizzleObjects) in
  let rolesToReturn := foldl roleStep ∅ (roles drizzleObjects) in
  let combinedViews := (views drizzleObjects ++ matViews drizzleObjects)%list in
  do resultViews <- forEach viewStep ∅ combinedViews;
  let enumsToReturn := foldl enumStep ∅ (enums drizzleObjects) in
  let provider :=
    match cfg_roles config with
    | Some (RolesObject provider) => provider
    | _ => None
    end in
  ret {| snapshot_version := "7";
         snapshot_dialect := "postgresql";
         snapshot_tables := result;
         snapshot_enums := enumsToReturn;
         snapshot_schemas := schemasObject (schemas drizzleObjects);
         snapshot_sequences := sequencesToReturn;
         snapshot_roles := rolesToReturn;
         snapshot_policies := policiesToReturn;
         snapshot_views := resultViews;
         snapshot_meta := (∅, ∅, ∅);
         snapshot_provider := provider;
         snapshot_projectId := projectId |}.

End Serializer.

Arguments drizzleObjectsToSnapshot {_} config drizzleObjects _.

(** ** A host for worked examples

    No casing is applied, an [SQL] object renders as its source text, and
    a type is an array type when its name has a bracket.  The examples
    below contain no quotes to escape and no JSON defaults. *)

Definition sourceOf (q : SQL) : string :=
  match q with Sql source => source end.

Fixpoint hasBracket (s : string) : bool :=
  match s with
  | EmptyString => false
  | String a rest => Ascii.eqb a "[" || hasBracket rest
  end.

Definition plainHost : Host :=
  {| sqlToQuery := λ _ q, sourceOf q;
     sqlToQueryIndexes := λ _ q, sourceOf q;
     sqlToStr := λ q _, sourceOf q;
     getColumnCasing := λ column _, col_name column;
     getIndexedColumnCasing :=
       λ it _,
         match it with
         | MemberColumn c => orElse (icol_name c) EmptyString
         | MemberSql _ => EmptyString
         end;
     uniqueKeyName := λ table columns, tbl_name table ++ "_" ++ Js.join "_" columns ++ "_unique";
     escapeSingleQuotes := λ s, s;
     isPgArrayType := hasBracket;
     JSON_stringify := λ _, "null";
     JSON_stringify_indented := λ _, "null" |}.

(** The empty configuration [{}]. *)
Definition noConfig : PartialConfig :=
  {| cfg_casing := None; cfg_schemaFilter := None; cfg_projectId := None; cfg_roles := None |}.

(** A column with nothing but a name and a type. *)
Definition plainColumn (name sqlType columnType : string) : PgColumn :=
  {| col_name := name; col_keyAsName := false; col_notNull := false;
     col_primary := false; col_sqlType := sqlType; col_columnType := columnType;
     col_enum := None; col_generated := None; col_generatedIdentity := None;
     col_isUnique := false; col_uniqueName := None; col_uniqueType := None;
     col_default := VUndefined; col_enumValues := None;
     col_defaultFn := None; col_onUpdateFn := None |}.

(** A table with nothing but a name and a schema. *)
Definition plainTable (schema : option string) (name : string) : PgTable :=
  {| tbl_name := name; tbl_schema := schema; tbl_columns := [];
     tbl_indexes := []; tbl_foreignKeys := []; tbl_checks := [];
     tbl_primaryKeys := []; tbl_uniqueConstraints := []; tbl_policies := [];
     tbl_enableRLS := false; tbl_explain := None |}.

(** Schema objects with nothing but tables and standalone policies. *)
Definition onlyTables (tables : list PgTable) (policies : list PgPolicy) : DrizzleObjects :=
  {| tables := tables; enums := []; schemas := []; sequences := []; roles := [];
     policies := policies; views := []; matViews := []; relations := [] |}.

(** A policy with nothing but a name and, possibly, a linked table. *)
Definition plainPolicy (name : string) (linkedTable : option LinkedTable) : PgPolicy :=
  {| pol_name := name; pol_as := None; pol_for := None; pol_to := ToAbsent;
     pol_using := None; pol_withCheck := None; pol_linkedTable := linkedTable |}.

(** An indexed column and an index with nothing but a name and members. *)
Definition plainIndexedColumn (name type : string) (opClass : option string) : IndexedColumn :=
  {| icol_name := Some name; icol_keyAsName := false; icol_type := type;
     icol_indexConfig := {| ic_order := None; ic_nulls := None; ic_opClass := opClass |} |}.

Definition plainIndex (name : option string) (table : string)
    (columns : list IndexMember) : PgIndex :=
  {| ix_name := name; ix_columns := columns; ix_table := table; ix_unique := None;
     ix_where := None; ix_concurrently := None; ix_method := None; ix_with := None |}.

(** ** Notions used to state the properties *)

(** [throws r]: the run [r] ended in an error, so nothing was returned. *)
Definition throws {A : Type} (r : list diagnostic * outcome A) : Prop :=
  ∃ e, r.2 = Thrown e.

(** [uniform m]: the computation [m] appends to the log and decides its
    outcome without reading what was printed before.  Every computation of
    the serializer is of this kind. *)
Definition uniform {A : Type} (m : M A) : Prop :=
  ∃ emitted out, ∀ log, m log = ((log ++ emitted)%list, out).

(** The schema objects with other tables, or other standalone policies. *)
Definition withTables (objects : DrizzleObjects) (tables' : list PgTable) : DrizzleObjects :=
  {| tables := tables'; enums := enums objects; schemas := schemas objects;
     sequences := sequences objects; roles := roles objects;
     policies := policies objects; views := views objects;
     matViews := matViews objects; relations := relations objects |}.


(** The first name of [names] that is in [seen] or occurs earlier in
    [names]: the name at which a registry of names reports a duplicate. *)
Fixpoint firstRepeated (seen names : list string) : option string :=
  match names with
  | [] => None
  | name :: rest =>
      if bool_decide (name ∈ seen) then Some name
      else firstRepeated (name :: seen) rest
  end.

(** What a registry of names kept in a plain object finds first: a name
    that is recorded already ([true]) or, not recorded, the name of a
    member of [Object.prototype] ([false]). *)
Fixpoint firstFound (seen names : list string) : option (bool * string) :=
  match names with
  | [] => None
  | name :: rest =>
      if bool_decide (name ∈ seen) then Some (true, name)
      else if Js.inherited name then Some (false, name)
      else firstFound (name :: seen) rest
  end.

(** The names that no object inherits. *)
Definition ordinary (names : list string) : Prop :=
  Forall (λ name, Js.inherited name = false) names.

(** The name under which the unique constraint of a column is recorded, if
    the column is unique. *)
Definition columnUniqueKey (column : PgColumn) : option string :=
  if col_isUnique column then Some (propertyKey (col_uniqueName column)) else None.

(** The name a unique constraint declared on the table resolves to. *)
Definition tableUniqueName `{Host} (config : PartialConfig) (table : PgTable)
    (unq : PgUniqueConstraint) : string :=
  orElse (unq_name unq)
    (uniqueKeyName table ((λ c, getColumnCasing c (cfg_casing config)) <$> unq_columns unq)).

(** The names of all unique constraints of a table, in the order in which
    the serializer processes them: those of the unique columns, then those
    declared on the table. *)
Definition uniqueNames `{Host} (config : PartialConfig) (table : PgTable) : list string :=
  (omap columnUniqueKey (tbl_columns table)
   ++ (tableUniqueName config table <$> tbl_uniqueConstraints table))%list.

(** The two ways in which a member of an index is rejected: an SQL
    expression in an index declared without a name, and a vector column
    without an operator class. *)
Definition expressionWithoutName (value : PgIndex) (it : IndexMember) : bool :=
  match it, ix_name value with
  | MemberSql _, None => true
  | _, _ => false
  end.

Definition vectorWithoutOpClass (it : IndexMember) : bool :=
  match it with
  | MemberColumn c =>
      bool_decide (icol_type c = "PgVector")
      && bool_decide (ic_opClass (icol_indexConfig c) = None)
  | MemberSql _ => false
  end.

Definition accepted (value : PgIndex) (it : IndexMember) : bool :=
  negb (expressionWithoutName value it) && negb (vectorWithoutOpClass it).

(** The error for a member that is rejected. *)
Definition rejection `{Host} (config : PartialConfig) (tableName : string)
    (value : PgIndex) (it : IndexMember) : error :=
  match it with
  | MemberSql q =>
      MissingIndexNameError (ix_table value) (sqlToQuery (cfg_casing config) q)
  | MemberColumn _ =>
      MissingOperatorClassError (getIndexedColumnCasing it (cfg_casing config)) tableName
  end.

(** The names pushed onto [indexColumnNames] for the members of an index. *)
Definition memberNames `{Host} (config : PartialConfig) (members : list IndexMember)
    : list string :=
  (λ it, getIndexedColumnCasing it (cfg_casing config)) <$> members.

(** The name an index resolves to, when all its members are accepted. *)
Definition resolvedIndexName `{Host} (config : PartialConfig) (table : PgTable)
    (value : PgIndex) : option string :=
  if forallb (accepted value) (ix_columns value)
  then Some (resolveIndexName (tbl_name table) value (memberNames config (ix_columns value)))
  else None.

(** [registered registry schema name]: the name is in the list recorded for
    the schema. *)
Definition registered (registry : gmap string (list string)) (key : string * string) : Prop :=
  ∃ names, registry !! key.1 = Some names ∧ key.2 ∈ names.




(** Whether a member of an index is an SQL expression. *)
Definition isExpression (it : IndexMember) : bool :=
  match it with
  | MemberSql _ => true
  | MemberColumn _ => false
  end.

(** The two kinds of error of the members of an index. *)
Definition isMissingOperatorClass (e : error) : Prop :=
  ∃ column tableName, e = MissingOperatorClassError column tableName.

Definition isMissingIndexName (e : error) : Prop :=
  ∃ tableName expression, e = MissingIndexNameError tableName expression.

(** A table with one index. *)
Definition indexedTable (schema : option string) (name : string) (index : PgIndex)
    : PgTable :=
  {| tbl_name := name; tbl_schema := schema; tbl_columns := [];
     tbl_indexes := [index]; tbl_foreignKeys := []; tbl_checks := [];
     tbl_primaryKeys := []; tbl_uniqueConstraints := []; tbl_policies := [];
     tbl_enableRLS := false; tbl_explain := None |}.

(** An index named [idx1] on a column [id]. *)
Definition idx1 (table : string) : PgIndex :=
  plainIndex (Some "idx1") table [MemberColumn (plainIndexedColumn "id" "PgInteger" None)].

(** Members of an index on a table [items]: an SQL expression, a vector
    column without operator class, a vector column with one. *)
Definition lowerName : IndexMember := MemberSql (Sql "lower(name)").
Definition embedding : IndexMember :=
  MemberColumn (plainIndexedColumn "embedding" "PgVector" None).
Definition embeddingCosine : IndexMember :=
  MemberColumn (plainIndexedColumn "embedding" "PgVector" (Some "vector_cosine_ops")).

(** The table key and name under which a standalone policy is checked, if
    it is linked to a table. *)
Definition linkedPolicyKey (policy : PgPolicy) : list (string * string) :=
  match pol_linkedTable policy with
  | Some tableConfig =>
      [(tableKeyOf (lt_schema tableConfig) (lt_name tableConfig), pol_name policy)]
  | None => []
  end.

(** [policyKnown st (tableKey, name)]: a policy of that name is among the
    policies of the table stored under [tableKey], or among the top-level
    policies. *)
Definition policyKnown (st : gmap string Table * gmap string Policy)
    (key : string * string) : Prop :=
  is_Some (st.1 !! key.1 ≫= λ table, table_policies table !! key.2)
  ∨ is_Some (st.2 !! key.2).

(** A table with policies declared on it. *)
Definition tableWithPolicies (schema : option string) (name : string)
    (policies : list PgPolicy) : PgTable :=
  {| tbl_name := name; tbl_schema := schema; tbl_columns := [];
     tbl_indexes := []; tbl_foreignKeys := []; tbl_checks := [];
     tbl_primaryKeys := []; tbl_uniqueConstraints := []; tbl_policies := policies;
     tbl_enableRLS := false; tbl_explain := None |}.

(** An identity of type [always] with the given sequence options. *)
Definition alwaysIdentity (options : option SequenceOptions) : GeneratedIdentity :=
  {| gi_type := "always"; gi_sequenceName := None; gi_sequenceOptions := options |}.

(** Sequence options that only set [increment]. *)
Definition onlyIncrement (increment : numeric) : SequenceOptions :=
  {| opt_increment := Some increment; opt_minValue := None; opt_maxValue := None;
     opt_startWith := None; opt_cache := None; opt_cycle := None |}.

(** An [integer] identity column [id]. *)
Definition identityColumn (options : option SequenceOptions) : PgColumn :=
  {| col_name := "id"; col_keyAsName := false; col_notNull := true;
     col_primary := false; col_sqlType := "integer"; col_columnType := "PgInteger";
     col_enum := None; col_generated := None;
     col_generatedIdentity := Some (alwaysIdentity options);
     col_isUnique := false; col_uniqueName := None; col_uniqueType := None;
     col_default := VUndefined; col_enumValues := None;
     col_defaultFn := None; col_onUpdateFn := None |}.

(** A unique text column whose constraint has the given name. *)
Definition uniqueColumn (name uniqueName : string) : PgColumn :=
  {| col_name := name; col_keyAsName := false; col_notNull := false;
     col_primary := false; col_sqlType := "text"; col_columnType := "PgText";
     col_enum := None; col_generated := None; col_generatedIdentity := None;
     col_isUnique := true; col_uniqueName := Some uniqueName; col_uniqueType := None;
     col_default := VUndefined; col_enumValues := None;
     col_defaultFn := None; col_onUpdateFn := None |}.

(** A column with a default. *)
Definition columnWithDefault (name sqlType columnType : string) (default : value) : PgColumn :=
  {| col_name := name; col_keyAsName := false; col_notNull := false;
     col_primary := false; col_sqlType := sqlType; col_columnType := columnType;
     col_enum := None; col_generated := None; col_generatedIdentity := None;
     col_isUnique := false; col_uniqueName := None; col_uniqueType := None;
     col_default := default; col_enumValues := None;
     col_defaultFn := None; col_onUpdateFn := None |}.

(** A table with columns only. *)
Definition tableWithColumns (schema : option string) (name : string)
    (columns : list PgColumn) : PgTable :=
  {| tbl_name := name; tbl_schema := schema; tbl_columns := columns;
     tbl_indexes := []; tbl_foreignKeys := []; tbl_checks := [];
     tbl_primaryKeys := []; tbl_uniqueConstraints := []; tbl_policies := [];
     tbl_enableRLS := false; tbl_explain := None |}.

(** The configuration [{ schemaFilter: ["public"] }]. *)
Definition publicOnly : PartialConfig :=
  {| cfg_casing := None; cfg_schemaFilter := Some ["public"];
     cfg_projectId := None; cfg_roles := None |}.

(** A table link, as a standalone policy holds it. *)
Definition linkTo (schema : option string) (name : string) : LinkedTable :=
  {| lt_schema := schema; lt_name := name |}.

(** ** Notions used to state further properties *)

(** A table that declares no unique column, unique constraint, index,
    policy or check constraint. *)
Definition bare (table : PgTable) : Prop :=
  Forall (λ column, col_isUnique column = false) (tbl_columns table)
  ∧ tbl_uniqueConstraints table = []
  ∧ tbl_indexes table = []
  ∧ tbl_policies table = []
  ∧ tbl_checks table = [].

(** [quiet m]: when [m] returns, it has printed nothing. *)
Definition quiet {A : Type} (m : M A) : Prop :=
  ∀ log log' a, m log = (log', Returned a) → log' = log.

(** The errors that are raised by the runtime, not by a [throw] statement
    of the serializer, and so come without a printed message. *)
Definition silent (e : error) : Prop :=
  match e with
  | ReferenceError _ | TypeError _ => True
  | _ => False
  end.

(** [announced m]: when [m] throws an error of the serializer, the message
    for that error is the last thing it printed. *)
Definition announced {A : Type} (m : M A) : Prop :=
  ∀ log log' e, m log = (log', Thrown e) →
    silent e ∨ ∃ printed, log' = (printed ++ [Reported e])%list.

(** The notices for the standalone policies that are not linked to a
    table, in the order of the policies. *)
Definition unlinkedNotices (policies : list PgPolicy) : list diagnostic :=
  omap (λ policy,
          match pol_linkedTable policy with
          | None => Some (PolicySkipped (pol_name policy))
          | Some _ => None
          end) policies.

(** The key under which a view is stored. *)
Definition viewKeyOf (view : PgViewLike) : string :=
  orElse (vw_schema view) "public" ++ "." ++ vw_name view.

(** The keys of sequences and enums. *)
Definition sequenceKeyOf (sequence : PgSequence) : string :=
  orElse (sq_schema sequence) "public" ++ "." ++ sq_seqName sequence.

Definition enumKeyOf (obj : PgEnum) : string :=
  orIfEmpty (en_schema obj) "public" ++ "." ++ en_enumName obj.

(** Whether the character [c] occurs in [s]. *)
Fixpoint occurs (c : ascii) (s : string) : bool :=
  match s with
  | EmptyString => false
  | String a rest => Ascii.eqb a c || occurs c rest
  end.

(** [wellKeyed table]: every entity of the table is stored under its own
    name; a unique constraint is stored under its name when it has one. *)
Definition wellKeyed (table : Table) : Prop :=
  (∀ k c, table_columns table !! k = Some c → column_name c = k)
  ∧ (∀ k i, table_indexes table !! k = Some i → index_name i = k)
  ∧ (∀ k f, table_foreignKeys table !! k = Some f → foreignKey_name f = k)
  ∧ (∀ k p, table_compositePrimaryKeys table !! k = Some p → primaryKey_name p = k)
  ∧ (∀ k u, table_uniqueConstraints table !! k = Some u →
            unique_name u = None ∨ unique_name u = Some k)
  ∧ (∀ k p, table_policies table !! k = Some p → policy_name p = k)
  ∧ (∀ k c, table_checkConstraints table !! k = Some c → check_name c = k).

(** The key of the registry of check names for a table. *)
Definition checksKey (table : PgTable) : string :=
  dquote ++ orElse (tbl_schema table) "public" ++ dquote ++ "." ++ dquote
  ++ tbl_name table ++ dquote.

(** A check constraint, a sequence and a view with nothing but what the
    examples need. *)
Definition plainCheck (name expression : string) : PgCheck :=
  {| chk_name := name; chk_value := Sql expression |}.

Definition tableWithChecks (schema : option string) (name : string)
    (checks : list PgCheck) : PgTable :=
  {| tbl_name := name; tbl_schema := schema; tbl_columns := [];
     tbl_indexes := []; tbl_foreignKeys := []; tbl_checks := checks;
     tbl_primaryKeys := []; tbl_uniqueConstraints := []; tbl_policies := [];
     tbl_enableRLS := false; tbl_explain := None |}.

Definition plainSequence (schema : option string) (name : string)
    (options : option SequenceOptions) : PgSequence :=
  {| sq_seqName := name; sq_schema := schema; sq_seqOptions := options |}.

Definition plainView (materialized : bool) (schema : option string) (name query : string)
    : PgViewLike :=
  {| vw_materialized := materialized; vw_name := name; vw_schema := schema;
     vw_query := Some (Sql query); vw_selectedFields := []; vw_isExisting := false;
     vw_with := None; vw_tablespace := None; vw_using := None;
     vw_withNoData := None; vw_explain := None |}.

(** Schema objects with nothing but enums, schemas, sequences and roles. *)
Definition otherObjects (enums : list PgEnum) (schemas : list PgSchema)
    (sequences : list PgSequence) (roles : list PgRole) : DrizzleObjects :=
  {| tables := []; enums := enums; schemas := schemas; sequences := sequences;
     roles := roles; policies := []; views := []; matViews := []; relations := [] |}.

(** Schema objects with nothing but views and materialized views. *)
Definition onlyViews (views matViews : list PgViewLike) : DrizzleObjects :=
  {| tables := []; enums := []; schemas := []; sequences := []; roles := [];
     policies := []; views := views; matViews := matViews; relations := [] |}.

(** [storedView config view stored]: the entity [stored] is what the
    conversion keeps of [view], its columns apart. *)
Definition storedView `{Host} (config : PartialConfig) (view : PgViewLike)
    (stored : View) : Prop :=
  view_name stored = vw_name view
  ∧ view_schema stored = orElse (vw_schema view) "public"
  ∧ view_materialized stored = vw_materialized view
  ∧ view_isExisting stored = vw_isExisting view
  ∧ view_definition stored
    = (if vw_isExisting view then None
       else sqlToQuery (cfg_casing config) <$> vw_query view)
  ∧ view_with stored = vw_with view
  ∧ view_description stored = vw_explain view ≫= ex_description
  ∧ (vw_materialized view = false →
     view_withNoData stored = None ∧ view_tablespace stored = None
     ∧ view_using stored = None).

(** ** Reading and writing dictionaries *)

Section Dictionaries.

Context {V : Type}.
Implicit Types (obj : gmap string V) (key : string) (v : V).

Lemma get_own obj key v : obj !! key = Some v → Js.get obj key = Js.Own v.
Proof. intros Hkey. unfold Js.get. by rewrite Hkey. Qed.

Lemma get_own_inv obj key v : Js.get obj key = Js.Own v → obj !! key = Some v.
Proof.
  unfold Js.get. destruct (obj !! key); [by intros [= ->]|].
  by destruct (Js.inherited key).
Qed.

Lemma get_inherited obj key :
  obj !! key = None → Js.inherited key = true → Js.get obj key = Js.Inherited.
Proof. intros Hkey Hin. unfold Js.get. by rewrite Hkey, Hin. Qed.

Lemma get_undefined obj key :
  obj !! key = None → Js.inherited key = false → Js.get obj key = Js.Undefined.
Proof. intros Hkey Hin. unfold Js.get. by rewrite Hkey, Hin. Qed.

Lemma get_undefined_inv obj key :
  Js.get obj key = Js.Undefined → obj !! key = None ∧ Js.inherited key = false.
Proof.
  unfold Js.get. destruct (obj !! key); [done|].
  by destruct (Js.inherited key).
Qed.

Lemma inherited_proto : Js.inherited "__proto__" = true.
Proof. reflexivity. Qed.

Lemma not_inherited_not_proto key : Js.inherited key = false → key ≠ "__proto__".
Proof. by intros Hin ->. Qed.

(** Writing under a name other than [__proto__] adds the property. *)
Lemma put_insert obj key v : key ≠ "__proto__" → Js.put obj key v = <[key := v]> obj.
Proof.
  intros Hkey. unfold Js.put. destruct (obj !! key); [done|].
  by rewrite decide_False.
Qed.

Lemma put_undefined obj key v :
  Js.get obj key = Js.Undefined → Js.put obj key v = <[key := v]> obj.
Proof.
  intros [_ Hin]%get_undefined_inv. by apply put_insert, not_inherited_not_proto.
Qed.

(** A write never removes a property, and adds at most the one written. *)
Lemma put_lookup obj key v key' v' :
  Js.put obj key v !! key' = Some v' →
  (key' = key ∧ v' = v) ∨ (key' ≠ key ∧ obj !! key' = Some v').
Proof.
  unfold Js.put. destruct (obj !! key) eqn:Hkey.
  - destruct (decide (key = key')) as [<-|Hne].
    + rewrite lookup_insert_eq. intros [= <-]. by left.
    + rewrite lookup_insert_ne by done. by right.
  - case_decide as Hproto.
    + intros Hlookup. right. split; [|done]. intros ->. congruence.
    + destruct (decide (key = key')) as [<-|Hne].
      * rewrite lookup_insert_eq. intros [= <-]. by left.
      * rewrite lookup_insert_ne by done. by right.
Qed.

Lemma put_lookup_ne obj key v key' :
  key' ≠ key → Js.put obj key v !! key' = obj !! key'.
Proof.
  intros Hne. unfold Js.put.
  destruct (obj !! key); [by rewrite lookup_insert_ne|].
  case_decide; [done|by rewrite lookup_insert_ne].
Qed.

Lemma put_lookup_eq obj key v :
  key ≠ "__proto__" ∨ is_Some (obj !! key) → Js.put obj key v !! key = Some v.
Proof.
  intros Hkey. unfold Js.put. destruct (obj !! key) eqn:Hown.
  - by rewrite lookup_insert_eq.
  - destruct Hkey as [Hkey|[? ?]]; [|done].
    by rewrite decide_False, lookup_insert_eq.
Qed.

Lemma put_is_Some obj key v key' :
  is_Some (obj !! key') → is_Some (Js.put obj key v !! key').
Proof.
  intros Hsome. destruct (decide (key' = key)) as [->|Hne].
  - rewrite put_lookup_eq; [by eexists|by right].
  - by rewrite put_lookup_ne.
Qed.

Lemma put_is_Some_iff obj key v key' :
  is_Some (Js.put obj key v !! key')
  ↔ (key' = key ∧ key' ≠ "__proto__") ∨ is_Some (obj !! key').
Proof.
  split.
  - intros [v' Hlookup]. destruct (decide (key' = key)) as [->|Hne].
    + destruct (decide (key = "__proto__")) as [->|Hproto]; [|by left].
      right. unfold Js.put in Hlookup.
      destruct (obj !! "__proto__") eqn:Hown; [by eexists|].
      rewrite decide_True in Hlookup by done. congruence.
    + rewrite put_lookup_ne in Hlookup by done. right. by eexists.
  - intros [[-> Hproto]|Hsome]; [|by apply put_is_Some].
    rewrite put_lookup_eq; [by eexists|by left].
Qed.

(** Started from an object without it, no sequence of writes gives an
    object the property [__proto__]. *)
Lemma put_no_proto obj key v :
  obj !! "__proto__" = None → Js.put obj key v !! "__proto__" = None.
Proof.
  intros Hnone. destruct (decide (key = "__proto__")) as [->|Hne].
  - unfold Js.put. by rewrite Hnone, decide_True.
  - by rewrite put_lookup_ne.
Qed.

End Dictionaries.

(** ** Reasoning about computations *)

Lemma bind_returned {A B : Type} (m : M A) (k : A → M B) log log' a :
  m log = (log', Returned a) → bind m k log = k a log'.
Proof. intros Hm. unfold bind. by rewrite Hm. Qed.

Lemma bind_thrown {A B : Type} (m : M A) (k : A → M B) log log' e :
  m log = (log', Thrown e) → bind m k log = (log', Thrown e).
Proof. intros Hm. unfold bind. by rewrite Hm. Qed.

(** A computation that returns went through each of its two halves. *)
Lemma bind_inv_returned {A B : Type} (m : M A) (k : A → M B) log log'' b :
  bind m k log = (log'', Returned b) →
  ∃ log' a, m log = (log', Returned a) ∧ k a log' = (log'', Returned b).
Proof.
  unfold bind. destruct (m log) as [log' [a|e]] eqn:Hm; [eauto | discriminate].
Qed.

Section Loops.

Context {A S : Type}.

Lemma forEach_nil (body : S → A → M S) s log :
  forEach body s [] log = (log, Returned s).
Proof. reflexivity. Qed.

Lemma forEach_cons (body : S → A → M S) s x xs log :
  forEach body s (x :: xs) log = bind (body s x) (λ s', forEach body s' xs) log.
Proof. reflexivity. Qed.

Lemma forEach_app (body : S → A → M S) xs ys s log :
  forEach body s (xs ++ ys)%list log
  = bind (forEach body s xs) (λ s', forEach body s' ys) log.
Proof.
  revert s log. induction xs as [|x xs IH]; intros s log; [reflexivity|].
  simpl. unfold bind. destruct (body s x log) as [log' [s'|e]]; [|reflexivity].
  rewrite IH. reflexivity.
Qed.

(** A loop whose body does nothing on [x] skips [x]. *)
Lemma forEach_skip (body : S → A → M S) xs x ys s log :
  (∀ s' log', body s' x log' = (log', Returned s')) →
  forEach body s (xs ++ x :: ys)%list log = forEach body s (xs ++ ys)%list log.
Proof.
  intros Hskip. rewrite !forEach_app. unfold bind.
  destruct (forEach body s xs log) as [log' [s'|e]]; [|done].
  simpl. unfold bind. by rewrite Hskip.
Qed.

(** An invariant of the body of a loop holds after the loop. *)
Lemma forEach_invariant (P : S → Prop) (body : S → A → M S) xs :
  (∀ s x log log' s', x ∈ xs → P s → body s x log = (log', Returned s') → P s') →
  ∀ s log log' s',
    P s → forEach body s xs log = (log', Returned s') → P s'.
Proof.
  induction xs as [|x xs IH]; intros Hbody s log log' s' HP Hrun.
  - by inversion Hrun; subst.
  - rewrite forEach_cons in Hrun.
    apply bind_inv_returned in Hrun as (log1 & s1 & Hx & Hrest).
    eapply IH; [|eapply (Hbody s x); [left| |]; eassumption|exact Hrest].
    intros s2 y l l' s2' Hy. apply Hbody. by right.
Qed.

End Loops.

Lemma throws_bind_l {A B : Type} (m : M A) (k : A → M B) log :
  throws (m log) → throws (bind m k log).
Proof.
  intros [e He]. unfold bind. destruct (m log) as [log' [a|e']]; simpl in *;
    [discriminate | by exists e'].
Qed.

Lemma throws_not_returned {A : Type} (r : list diagnostic * outcome A) a :
  throws r → r.2 ≠ Returned a.
Proof. intros [e He]. rewrite He. discriminate. Qed.

(** A loop throws when, under an invariant of its body, the body throws on
    one of the elements. *)
Lemma forEach_throws {A S : Type} (P : S → Prop) (body : S → A → M S) xs x ys :
  (∀ s y log log' s', y ∈ xs → P s → body s y log = (log', Returned s') → P s') →
  (∀ s log, P s → throws (body s x log)) →
  ∀ s log, P s → throws (forEach body s (xs ++ x :: ys)%list log).
Proof.
  intros Hinv Hx s log HP. rewrite forEach_app. unfold bind.
  destruct (forEach body s xs log) as [log' [s'|e]] eqn:Hrun; [|by exists e].
  rewrite forEach_cons. apply throws_bind_l, Hx.
  eapply (forEach_invariant P); eauto.
Qed.

(** *** Computations that do not read the log *)

Lemma uniform_ret {A : Type} (a : A) : uniform (ret a).
Proof. exists [], (Returned a). intros log. unfold ret. by rewrite app_nil_r. Qed.

Lemma uniform_throw {A : Type} (e : error) : uniform (@throw A e).
Proof. exists [], (Thrown e). intros log. unfold throw. by rewrite app_nil_r. Qed.

Lemma uniform_console_log (d : diagnostic) : uniform (console_log d).
Proof. by exists [d], (Returned tt). Qed.

Lemma uniform_bind {A B : Type} (m : M A) (k : A → M B) :
  uniform m → (∀ a, uniform (k a)) → uniform (bind m k).
Proof.
  intros (em & [a|e] & Hm) Hk.
  - destruct (Hk a) as (ek & out & Hka).
    exists (em ++ ek)%list, out. intros log.
    unfold bind. rewrite Hm, Hka. by rewrite app_assoc.
  - exists em, (Thrown e). intros log. unfold bind. by rewrite Hm.
Qed.

Lemma uniform_fail {A : Type} (e : error) : uniform (@fail A e).
Proof.
  apply uniform_bind; [apply uniform_console_log | intros; apply uniform_throw].
Qed.

Lemma uniform_forEach {A S : Type} (body : S → A → M S) xs :
  (∀ s x, uniform (body s x)) → ∀ s, uniform (forEach body s xs).
Proof.
  intros Hbody. induction xs as [|x xs IH]; intros s; simpl.
  - apply uniform_ret.
  - apply uniform_bind; [apply Hbody | exact IH].
Qed.

(** What a uniform computation returns does not depend on the log it
    starts from. *)
Lemma uniform_outcome {A : Type} (m : M A) log1 log2 :
  uniform m → (m log1).2 = (m log2).2.
Proof. intros (em & out & Hm). by rewrite !Hm. Qed.

Lemma uniform_log_prefix {A : Type} (m : M A) log :
  uniform m → ∃ emitted, (m log).1 = (log ++ emitted)%list.
Proof. intros (em & out & Hm). exists em. by rewrite Hm. Qed.


Create HintDb uniform.

#[export] Hint Resolve uniform_ret uniform_throw uniform_console_log
  uniform_fail : uniform.

(** Splits a computation along its binds, loops and case distinctions. *)
Ltac uniformity :=
  repeat first
    [ progress intros
    | progress cbv zeta
    | apply uniform_ret | apply uniform_throw | apply uniform_console_log
    | apply uniform_fail
    | apply uniform_bind
    | apply uniform_forEach
    | match goal with
      | |- uniform (match ?x with _ => _ end) => destruct x
      | |- uniform (if ?x then _ else _) => destruct x
      | |- uniform (let '(_, _) := ?x in _) => destruct x
      end
    | solve [eauto with uniform] ].

Section Uniformity.

Context `{Host}.
Variable config : PartialConfig.

Lemma uniform_columnUnique owner name column uniqueConstraintObject :
  uniform (columnUnique owner name column uniqueConstraintObject).
Proof. unfold columnUnique. uniformity. Qed.

Lemma uniform_tableColumn table acc column :
  uniform (tableColumn config table acc column).
Proof. unfold tableColumn. destruct acc. uniformity. apply uniform_columnUnique. Qed.

Lemma uniform_tableUnique table uniqueConstraintObject unq :
  uniform (tableUnique config table uniqueConstraintObject unq).
Proof. unfold tableUnique. uniformity. Qed.

Lemma uniform_indexMember tableName value names it :
  uniform (indexMember config tableName value names it).
Proof. unfold indexMember. uniformity. Qed.

Lemma uniform_registerIndexName schema tableName name indexesInSchema :
  uniform (registerIndexName schema tableName name indexesInSchema).
Proof. unfold registerIndexName. uniformity. Qed.

Lemma uniform_tableIndex table acc value :
  uniform (tableIndex config table acc value).
Proof.
  unfold tableIndex. destruct acc. uniformity;
    auto using uniform_indexMember, uniform_registerIndexName.
Qed.

Lemma uniform_tablePolicy policiesObject policy :
  uniform (tablePolicy config policiesObject policy).
Proof. unfold tablePolicy. uniformity. Qed.

Lemma uniform_tableCheck table acc check :
  uniform (tableCheck config table acc check).
Proof. unfold tableCheck. destruct acc. uniformity. Qed.

Lemma uniform_tableStep relations st table :
  uniform (tableStep config relations st table).
Proof.
  unfold tableStep. uniformity;
    auto using uniform_tableColumn, uniform_tableUnique, uniform_tableIndex,
      uniform_tablePolicy, uniform_tableCheck.
Qed.

Lemma uniform_policyStep st policy : uniform (policyStep config st policy).
Proof. unfold policyStep. destruct st. uniformity. Qed.

Lemma uniform_viewColumn view acc field :
  uniform (viewColumn config view acc field).
Proof.
  unfold viewColumn. destruct acc. uniformity. apply uniform_columnUnique.
Qed.

Lemma uniform_viewStep resultViews view :
  uniform (viewStep config resultViews view).
Proof. unfold viewStep. uniformity. apply uniform_viewColumn. Qed.

End Uniformity.

(** ** The loop over the tables *)

Section Tables.

Context `{Host}.
Variable config : PartialConfig.

(** A table the schema filter rejects leaves everything as it was. *)
Lemma tableStep_filtered relations st table log :
  filteredOut config table = true →
  tableStep config relations st table log = (log, Returned st).
Proof. intros Hf. unfold tableStep. by rewrite Hf. Qed.

(** What a table that is not filtered out went through when its step
    returned: every phase returned, and the entity was stored under the
    table key. *)
Lemma tableStep_returned relations st table log log' st' :
  filteredOut config table = false →
  tableStep config relations st table log = (log', Returned st') →
  ∃ columnsObject uniques0 uniques registry indexesObject policiesObject
    checks checksObject log1 log2 log3 log4,
    forEach (tableColumn config table) (∅, ∅) (tbl_columns table) log
      = (log1, Returned (columnsObject, uniques0))
    ∧ forEach (tableUnique config table) uniques0 (tbl_uniqueConstraints table) log1
      = (log2, Returned uniques)
    ∧ forEach (tableIndex config table) (indexesInSchema st, ∅) (tbl_indexes table) log2
      = (log3, Returned (registry, indexesObject))
    ∧ forEach (tablePolicy config) ∅ (tbl_policies table) log3
      = (log4, Returned policiesObject)
    ∧ forEach (tableCheck config table) (∅, ∅) (tbl_checks table) log4
      = (log', Returned (checks, checksObject))
    ∧ indexesInSchema st' = registry
    ∧ ∃ entity,
        result st' = <[tableKeyOf (tbl_schema table) (tbl_name table) := entity]> (result st)
        ∧ table_name entity = tbl_name table
        ∧ table_schema entity = orElse (tbl_schema table) EmptyString
        ∧ table_uniqueConstraints entity = uniques
        ∧ table_indexes entity = indexesObject
        ∧ table_policies entity = policiesObject.
Proof.
  intros Hf Hrun. unfold tableStep in Hrun. rewrite Hf in Hrun.
  apply bind_inv_returned in Hrun as (log1 & [columnsObject uniques0] & Hcols & Hrun).
  apply bind_inv_returned in Hrun as (log2 & uniques & Huniq & Hrun).
  apply bind_inv_returned in Hrun as (log3 & [registry indexesObject] & Hidx & Hrun).
  apply bind_inv_returned in Hrun as (log4 & policiesObject & Hpol & Hrun).
  apply bind_inv_returned in Hrun as (log5 & [checks checksObject] & Hchk & Hrun).
  inversion Hrun; subst; clear Hrun.
  exists columnsObject, uniques0, uniques, registry, indexesObject, policiesObject,
    checks, checksObject, log1, log2, log3, log4.
  repeat split; try assumption.
  eexists. repeat split.
Qed.

(** What the step of a table that is not filtered out stores, in full. *)
Lemma tableStep_stored relations st table log log' st' :
  filteredOut config table = false →
  tableStep config relations st table log = (log', Returned st') →
  ∃ columnsObject uniques0 uniques registry indexesObject policiesObject
    checks checksObject log1 log2 log3 log4,
    forEach (tableColumn config table) (∅, ∅) (tbl_columns table) log
      = (log1, Returned (columnsObject, uniques0))
    ∧ forEach (tableUnique config table) uniques0 (tbl_uniqueConstraints table) log1
      = (log2, Returned uniques)
    ∧ forEach (tableIndex config table) (indexesInSchema st, ∅) (tbl_indexes table) log2
      = (log3, Returned (registry, indexesObject))
    ∧ forEach (tablePolicy config) ∅ (tbl_policies table) log3
      = (log4, Returned policiesObject)
    ∧ forEach (tableCheck config table) (∅, ∅) (tbl_checks table) log4
      = (log', Returned (checks, checksObject))
    ∧ st' =
      {| result :=
           <[tableKeyOf (tbl_schema table) (tbl_name table) :=
               {| table_name := tbl_name table;
                  table_schema := orElse (tbl_schema table) EmptyString;
                  table_columns := columnsObject;
                  table_indexes := indexesObject;
                  table_foreignKeys :=
                    foldl (λ obj it, Js.put obj (foreignKey_name it) it) ∅
                      (tableForeignKey config (tbl_name table) <$> tbl_foreignKeys table);
                  table_compositePrimaryKeys :=
                    foldl (tablePrimaryKey config) ∅ (tbl_primaryKeys table);
                  table_uniqueConstraints := uniques;
                  table_policies := policiesObject;
                  table_checkConstraints := checksObject;
                  table_isRLSEnabled := tbl_enableRLS table;
                  table_description := tbl_explain table ≫= ex_description;
                  table_relations := tableRelations relations (tbl_name table) |}]>
             (result st);
         indexesInSchema := registry |}.
Proof.
  intros Hf Hrun. unfold tableStep in Hrun. rewrite Hf in Hrun.
  apply bind_inv_returned in Hrun as (log1 & [columnsObject uniques0] & Hcols & Hrun).
  apply bind_inv_returned in Hrun as (log2 & uniques & Huniq & Hrun).
  apply bind_inv_returned in Hrun as (log3 & [registry indexesObject] & Hidx & Hrun).
  apply bind_inv_returned in Hrun as (log4 & policiesObject & Hpol & Hrun).
  apply bind_inv_returned in Hrun as (log5 & [checks checksObject] & Hchk & Hrun).
  inversion Hrun; subst; clear Hrun.
  exists columnsObject, uniques0, uniques, registry, indexesObject, policiesObject,
    checks, checksObject, log1, log2, log3, log4.
  by repeat split.
Qed.

(** The step of a table returns as soon as its five loops do. *)
Lemma tableStep_returns relations st table log columnsObject uniques0 uniques
    registry indexesObject policiesObject checks checksObject log1 log2 log3 log4 log5 :
  filteredOut config table = false →
  forEach (tableColumn config table) (∅, ∅) (tbl_columns table) log
    = (log1, Returned (columnsObject, uniques0)) →
  forEach (tableUnique config table) uniques0 (tbl_uniqueConstraints table) log1
    = (log2, Returned uniques) →
  forEach (tableIndex config table) (indexesInSchema st, ∅) (tbl_indexes table) log2
    = (log3, Returned (registry, indexesObject)) →
  forEach (tablePolicy config) ∅ (tbl_policies table) log3
    = (log4, Returned policiesObject) →
  forEach (tableCheck config table) (∅, ∅) (tbl_checks table) log4
    = (log5, Returned (checks, checksObject)) →
  ∃ st' entity,
    tableStep config relations st table log = (log5, Returned st')
    ∧ result st' = <[tableKeyOf (tbl_schema table) (tbl_name table) := entity]> (result st)
    ∧ indexesInSchema st' = registry
    ∧ table_name entity = tbl_name table
    ∧ table_schema entity = orElse (tbl_schema table) EmptyString
    ∧ table_columns entity = columnsObject
    ∧ table_policies entity = policiesObject.
Proof.
  intros Hf Hcols Huniq Hidx Hpol Hchk. unfold tableStep. rewrite Hf.
  rewrite (bind_returned _ _ _ _ _ Hcols). cbn beta iota.
  rewrite (bind_returned _ _ _ _ _ Huniq).
  rewrite (bind_returned _ _ _ _ _ Hidx). cbn beta iota.
  rewrite (bind_returned _ _ _ _ _ Hpol).
  rewrite (bind_returned _ _ _ _ _ Hchk). cbn beta iota.
  eexists _, _. split; [reflexivity|]. by repeat split.
Qed.

(** The loop over columns none of which is unique returns, and prints
    nothing. *)
Lemma columns_return table columns :
  Forall (λ column, col_isUnique column = false) columns →
  ∀ acc log, ∃ acc', forEach (tableColumn config table) acc columns log = (log, Returned acc').
Proof.
  induction 1 as [|column columns Hcolumn _ IH]; intros [columnsObject uniques] log.
  - by eexists.
  - rewrite forEach_cons. unfold tableColumn at 1, columnUnique. rewrite Hcolumn.
    unfold bind at 1 2, ret. apply IH.
Qed.

(** The step of a bare table returns and prints nothing. *)
Lemma tableStep_bare relations st table log :
  filteredOut config table = false →
  bare table →
  ∃ st' entity,
    tableStep config relations st table log = (log, Returned st')
    ∧ result st' = <[tableKeyOf (tbl_schema table) (tbl_name table) := entity]> (result st)
    ∧ table_name entity = tbl_name table
    ∧ table_schema entity = orElse (tbl_schema table) EmptyString.
Proof.
  intros Hf (Hcolumns & Huniq & Hidx & Hpol & Hchk).
  destruct (columns_return table _ Hcolumns (∅, ∅) log) as ([columnsObject uniques0] & Hcols).
  destruct (tableStep_returns relations st table log columnsObject uniques0 uniques0
              (indexesInSchema st) ∅ ∅ ∅ ∅ log log log log log Hf Hcols)
    as (st' & entity & Hstep & Hres & _ & Hname & Hschema & _).
  - by rewrite Huniq.
  - by rewrite Hidx.
  - by rewrite Hpol.
  - by rewrite Hchk.
  - by exists st', entity.
Qed.

(** The loop over bare tables returns and prints nothing. *)
Lemma tablesLoop_bare relations tables :
  Forall bare tables →
  ∀ st log, ∃ st', forEach (tableStep config relations) st tables log = (log, Returned st').
Proof.
  induction 1 as [|table tables Hbare _ IH]; intros st log.
  - by eexists.
  - rewrite forEach_cons.
    destruct (filteredOut config table) eqn:Hf.
    + rewrite (bind_returned _ _ _ _ _ (tableStep_filtered relations st table log Hf)).
      apply IH.
    + destruct (tableStep_bare relations st table log Hf Hbare) as (st' & _ & Hstep & _).
      rewrite (bind_returned _ _ _ _ _ Hstep). apply IH.
Qed.

(** The entry of a table that no later table replaces is the one that
    its own step stored. *)
Lemma tablesLoop_last relations before table after log log' st :
  forEach (tableStep config relations) {| result := ∅; indexesInSchema := ∅ |}
    (before ++ table :: after)%list log = (log', Returned st) →
  (∀ other, other ∈ after → filteredOut config other = false →
     tableKeyOf (tbl_schema other) (tbl_name other)
     ≠ tableKeyOf (tbl_schema table) (tbl_name table)) →
  ∃ st1 log1 log2 st2,
    tableStep config relations st1 table log1 = (log2, Returned st2)
    ∧ result st !! tableKeyOf (tbl_schema table) (tbl_name table)
      = result st2 !! tableKeyOf (tbl_schema table) (tbl_name table).
Proof.
  intros Hloop Hlater. rewrite forEach_app in Hloop.
  apply bind_inv_returned in Hloop as (log1 & st1 & _ & Hloop).
  rewrite forEach_cons in Hloop.
  apply bind_inv_returned in Hloop as (log2 & st2 & Htable & Hloop).
  exists st1, log1, log2, st2. split; [done|].
  refine (forEach_invariant
            (λ s, result s !! tableKeyOf (tbl_schema table) (tbl_name table)
                  = result st2 !! tableKeyOf (tbl_schema table) (tbl_name table))
            _ _ _ _ _ _ _ _ Hloop); [|done].
  intros s other l l' s' Hin HP Hother.
  destruct (filteredOut config other) eqn:Hfo.
  - rewrite tableStep_filtered in Hother by done. by inversion Hother; subst.
  - apply tableStep_returned in Hother
      as (? & ? & ? & ? & ? & ? & ? & ? & ? & ? & ? & ? & _ & _ & _ & _ & _ & _
          & entity' & Hres & _); [|done].
    rewrite Hres, lookup_insert_ne; [done|]. by apply Hlater.
Qed.

End Tables.

(** ** The loop over the standalone policies and the whole conversion *)

Section Conversion.

Context `{Host}.
Variable config : PartialConfig.

(** The three ways in which the step of a standalone policy returns: the
    name of a linked policy was found neither in the table it is linked
    to nor among the top-level policies, and is not the name of a member
    of [Object.prototype]. *)
Lemma policyStep_cases result policiesToReturn policy log log' result' policies' :
  policyStep config (result, policiesToReturn) policy log
    = (log', Returned (result', policies')) →
  match pol_linkedTable policy with
  | None => result' = result ∧ policies' = policiesToReturn
  | Some tableConfig =>
      let tableKey := tableKeyOf (lt_schema tableConfig) (lt_name tableConfig) in
      (policiesToReturn !! pol_name policy = None
       ∧ Js.inherited (pol_name policy) = false)
      ∧ match result !! tableKey with
        | Some table =>
            table_policies table !! pol_name policy = None
            ∧ result' = <[tableKey := withPolicy table (mappedPolicy config policy)]> result
            ∧ policies' = policiesToReturn
        | None =>
            result' = result
            ∧ policies'
              = <[pol_name policy := unlinkedEntry tableConfig (mappedPolicy config policy)]>
                  policiesToReturn
        end
  end.
Proof.
  unfold policyStep, policyOfTable.
  destruct (pol_linkedTable policy) as [tableConfig|].
  - cbv zeta. set (tableKey := tableKeyOf _ _).
    destruct (Js.get policiesToReturn (pol_name policy)) eqn:Htop;
      try (destruct (result !! tableKey) as [table|];
           [destruct (Js.get (table_policies table) (pol_name policy))|];
           unfold fail, bind, console_log, throw; simpl; discriminate).
    destruct (get_undefined_inv _ _ Htop) as [Hfree Hname].
    destruct (result !! tableKey) as [table|] eqn:Hk.
    + destruct (Js.get (table_policies table) (pol_name policy)) eqn:Hown;
        try (unfold fail, bind, console_log, throw; simpl; discriminate).
      apply get_undefined_inv in Hown as [Hown _].
      unfold ret. by intros [= <- <- <-].
    + rewrite put_undefined by done. unfold ret. by intros [= <- <- <-].
  - unfold bind, console_log, ret. by intros [= <- <- <-].
Qed.

(** A policy step that returns either left the tables alone or added the
    policy to the policies of a table that is in the result. *)
Lemma policyStep_returned result policiesToReturn policy log log' result' policies' :
  policyStep config (result, policiesToReturn) policy log
    = (log', Returned (result', policies')) →
  (result' = result
   ∨ ∃ tableKey table,
       result !! tableKey = Some table
       ∧ result' = <[tableKey := withPolicy table (mappedPolicy config policy)]> result).
Proof.
  intros Hstep%policyStep_cases.
  destruct (pol_linkedTable policy) as [tableConfig|]; [|by left; apply Hstep].
  cbv zeta in Hstep. destruct Hstep as [_ Hstep].
  destruct (result !! tableKeyOf _ _) as [table|] eqn:Hk.
  - destruct Hstep as (_ & -> & _). right. eauto.
  - destruct Hstep as (-> & _). by left.
Qed.

(** The policy loop neither adds a table nor removes one, and keeps the
    name and the schema of each. *)
Lemma policyLoop_tables policies :
  ∀ result policiesToReturn log log' result' policies',
    forEach (policyStep config) (result, policiesToReturn) policies log
      = (log', Returned (result', policies')) →
    ∀ key,
      match result !! key, result' !! key with
      | Some table, Some table' =>
          table_name table' = table_name table
          ∧ table_schema table' = table_schema table
      | None, None => True
      | _, _ => False
      end.
Proof.
  induction policies as [|policy policies IH];
    intros result policiesToReturn log log' result' policies' Hrun key.
  - inversion Hrun; subst. by destruct (result' !! key).
  - rewrite forEach_cons in Hrun.
    apply bind_inv_returned in Hrun as (log1 & [result1 policies1] & Hstep & Hrest).
    specialize (IH _ _ _ _ _ _ Hrest key).
    apply policyStep_returned in Hstep as [->|(tableKey & table & Hk & ->)]; [done|].
    destruct (decide (tableKey = key)) as [->|Hne].
    + rewrite lookup_insert_eq in IH. rewrite Hk. by destruct (result' !! key).
    + by rewrite lookup_insert_ne in IH.
Qed.

(** What a conversion that returned went through. *)
Lemma snapshot_returned objects log log' snapshot :
  drizzleObjectsToSnapshot config objects log = (log', Returned snapshot) →
  ∃ st log1 log2 policiesToReturn,
    tablesLoop config (relations objects) (tables objects) log = (log1, Returned st)
    ∧ forEach (policyStep config) (result st, ∅) (policies objects) log1
      = (log2, Returned (snapshot_tables snapshot, policiesToReturn))
    ∧ snapshot_policies snapshot = policiesToReturn.
Proof.
  unfold drizzleObjectsToSnapshot. intros Hrun.
  apply bind_inv_returned in Hrun as (log1 & st & Htables & Hrun).
  apply bind_inv_returned in Hrun as (log2 & [result' policies'] & Hpolicies & Hrun).
  apply bind_inv_returned in Hrun as (log3 & resultViews & Hviews & Hrun).
  inversion Hrun; subst; clear Hrun. simpl. eauto 10.
Qed.

(** Every key of the result of the table loop is the key of a table that
    passed the schema filter. *)
Lemma tablesLoop_keys relations tables log log' st :
  tablesLoop config relations tables log = (log', Returned st) →
  ∀ key, is_Some (result st !! key) →
    ∃ table, table ∈ tables ∧ filteredOut config table = false
             ∧ tableKeyOf (tbl_schema table) (tbl_name table) = key.
Proof.
  unfold tablesLoop. intros Hrun.
  eapply (forEach_invariant
            (λ st, ∀ key, is_Some (result st !! key) →
               ∃ table, table ∈ tables ∧ filteredOut config table = false
                        ∧ tableKeyOf (tbl_schema table) (tbl_name table) = key));
    [| |exact Hrun].
  - intros s table l l' s' Hin HP Hstep key Hkey.
    destruct (filteredOut config table) eqn:Hf.
    + rewrite tableStep_filtered in Hstep by done. inversion Hstep; subst. eauto.
    + apply tableStep_returned in Hstep
        as (? & ? & ? & ? & ? & ? & ? & ? & ? & ? & ? & ? & _ & _ & _ & _ & _ & _
            & entity & Hres & _); [|done].
      rewrite Hres in Hkey.
      destruct (decide (tableKeyOf (tbl_schema table) (tbl_name table) = key)) as [<-|Hne].
      * eauto.
      * rewrite lookup_insert_ne in Hkey by done. eauto.
  - simpl. intros key [? Hk]. by rewrite lookup_empty in Hk.
Qed.

(** The loop over the standalone policies does not read the log. *)
Lemma uniform_policyLoop st policies :
  uniform (forEach (policyStep config) st policies).
Proof. apply uniform_forEach. intros. apply uniform_policyStep. Qed.

End Conversion.

(** ** Schema filtering *)

(** C9.  A table whose schema (or ["public"] when it has none) is not in
    the configured schema filter takes no part in the conversion: its step
    returns at once with the result and the index registry unchanged and
    nothing printed; the whole conversion, diagnostics included, is the
    conversion of the input without that table; and the table has no entry
    in the tables of the snapshot (no entry under its key, as long as no
    table that passes the filter has the same key). *)
Theorem filtered_table_takes_no_part `{Host} (config : PartialConfig)
    (objects : DrizzleObjects) (before after : list PgTable) (table : PgTable)
    (filter : list string) :
  cfg_schemaFilter config = Some filter →
  orElse (tbl_schema table) "public" ∉ filter →
  (∀ relations st log,
     tableStep config relations st table log = (log, Returned st))
  ∧ (∀ log,
       drizzleObjectsToSnapshot config (withTables objects (before ++ table :: after)) log
       = drizzleObjectsToSnapshot config (withTables objects (before ++ after)) log)
  ∧ (∀ log log' snapshot,
       drizzleObjectsToSnapshot config (withTables objects (before ++ table :: after)) log
       = (log', Returned snapshot) →
       (∀ other, other ∈ (before ++ after)%list →
          filteredOut config other = false →
          tableKeyOf (tbl_schema other) (tbl_name other)
          ≠ tableKeyOf (tbl_schema table) (tbl_name table)) →
       snapshot_tables snapshot !! tableKeyOf (tbl_schema table) (tbl_name table) = None).
Proof.
  intros Hfilter Hnotin.
  assert (Hout : filteredOut config table = true).
  { unfold filteredOut, Js.includes. rewrite Hfilter.
    by rewrite bool_decide_eq_false_2. }
  assert (Hskip : ∀ relations st log,
             tableStep config relations st table log = (log, Returned st)).
  { intros. by apply tableStep_filtered. }
  assert (Hsame : ∀ log,
             drizzleObjectsToSnapshot config (withTables objects (before ++ table :: after)) log
             = drizzleObjectsToSnapshot config (withTables objects (before ++ after)) log).
  { intros log. unfold drizzleObjectsToSnapshot, tablesLoop. simpl.
    unfold bind at 1 5. by rewrite forEach_skip. }
  split; [exact Hskip|]. split; [exact Hsame|].
  intros log log' snapshot Hrun Hkeys. rewrite Hsame in Hrun.
  apply snapshot_returned in Hrun as (st & log1 & log2 & ptr & Htables & Hpolicies & _).
  simpl in Htables, Hpolicies.
  pose proof (policyLoop_tables _ _ _ _ _ _ _ _ Hpolicies
                (tableKeyOf (tbl_schema table) (tbl_name table))) as Hkey.
  destruct (result st !! tableKeyOf (tbl_schema table) (tbl_name table)) as [entity|] eqn:Hst.
  - destruct (tablesLoop_keys _ _ _ _ _ _ Htables _ (mk_is_Some _ _ Hst))
      as (other & Hin & Hother & Heq).
    by destruct (Hkeys other Hin Hother).
  - by destruct (snapshot_tables snapshot !! _).
Qed.

(** ** Standalone policies without a linked table *)


(** ** Table keys *)

(** C10.  A table that passes the schema filter is stored under the key
    made of its schema, or ["public"] when it has none, a dot, and its
    name, and the [schema] field of the stored entity is the declared
    schema, or the empty string when there is none.  So for a table without
    a schema the key starts with ["public."] while the field is empty, and
    for a table with a schema the two agree.  This holds of the result
    right after the step of the table, and of the returned snapshot when no
    later table that passes the filter has the same key.  The step of the
    table does return, with the table stored, when the five loops over
    its columns, unique constraints, indexes, policies and checks return,
    as they do for a table that has none of the last four and no unique
    column; and the conversion of such tables alone, whatever their names
    and schemas, returns a snapshot, with nothing printed, in which the
    table is stored in that way. *)
Theorem table_key_and_schema_field `{Host} (config : PartialConfig) (table : PgTable) :
  filteredOut config table = false →
  let key :=
    match tbl_schema table with
    | None => "public." ++ tbl_name table
    | Some schema => schema ++ "." ++ tbl_name table
    end in
  let field :=
    match tbl_schema table with
    | None => EmptyString
    | Some schema => schema
    end in
  (∀ relations st log log' st',
     tableStep config relations st table log = (log', Returned st') →
     ∃ entity,
       result st' !! key = Some entity
       ∧ table_name entity = tbl_name table ∧ table_schema entity = field)
  ∧ (∀ objects before after log log' snapshot,
       tables objects = (before ++ table :: after)%list →
       (∀ other, other ∈ after → filteredOut config other = false →
          tableKeyOf (tbl_schema other) (tbl_name other)
          ≠ tableKeyOf (tbl_schema table) (tbl_name table)) →
       drizzleObjectsToSnapshot config objects log = (log', Returned snapshot) →
       ∃ entity,
         snapshot_tables snapshot !! key = Some entity
         ∧ table_name entity = tbl_name table ∧ table_schema entity = field)
  ∧ (∀ relations st log columnsObject uniques0 uniques registry indexesObject
       policiesObject checks checksObject log1 log2 log3 log4 log5,
       forEach (tableColumn config table) (∅, ∅) (tbl_columns table) log
         = (log1, Returned (columnsObject, uniques0)) →
       forEach (tableUnique config table) uniques0 (tbl_uniqueConstraints table) log1
         = (log2, Returned uniques) →
       forEach (tableIndex config table) (indexesInSchema st, ∅) (tbl_indexes table) log2
         = (log3, Returned (registry, indexesObject)) →
       forEach (tablePolicy config) ∅ (tbl_policies table) log3
         = (log4, Returned policiesObject) →
       forEach (tableCheck config table) (∅, ∅) (tbl_checks table) log4
         = (log5, Returned (checks, checksObject)) →
       ∃ st' entity,
         tableStep config relations st table log = (log5, Returned st')
         ∧ result st' !! key = Some entity
         ∧ table_name entity = tbl_name table ∧ table_schema entity = field
         ∧ table_columns entity = columnsObject
         ∧ table_policies entity = policiesObject)
  ∧ (bare table →
     ∀ relations st log,
       ∃ st' entity,
         tableStep config relations st table log = (log, Returned st')
         ∧ result st' !! key = Some entity
         ∧ table_name entity = tbl_name table ∧ table_schema entity = field)
  ∧ (∀ objects before after log,
       tables objects = (before ++ table :: after)%list →
       Forall bare (tables objects) →
       policies objects = [] → views objects = [] → matViews objects = [] →
       (∀ other, other ∈ after → filteredOut config other = false →
          tableKeyOf (tbl_schema other) (tbl_name other)
          ≠ tableKeyOf (tbl_schema table) (tbl_name table)) →
       ∃ snapshot entity,
         drizzleObjectsToSnapshot config objects log = (log, Returned snapshot)
         ∧ snapshot_tables snapshot !! key = Some entity
         ∧ table_name entity = tbl_name table ∧ table_schema entity = field).
Proof.
  intros Hf key field.
  assert (Hkey : tableKeyOf (tbl_schema table) (tbl_name table) = key).
  { unfold tableKeyOf, key. by destruct (tbl_schema table). }
  assert (Hfield : orElse (tbl_schema table) EmptyString = field).
  { unfold field. by destruct (tbl_schema table). }
  assert (Hstep : ∀ relations st log log' st',
             tableStep config relations st table log = (log', Returned st') →
             ∃ entity,
               result st' !! key = Some entity
               ∧ table_name entity = tbl_name table ∧ table_schema entity = field).
  { intros relations st log log' st' Hrun.
    apply tableStep_returned in Hrun
      as (? & ? & ? & ? & ? & ? & ? & ? & ? & ? & ? & ? & _ & _ & _ & _ & _ & _
          & entity & Hres & Hname & Hschema & _); [|done].
    exists entity. rewrite Hres, Hkey, lookup_insert_eq. by rewrite <- Hfield. }
  assert (Hconv : ∀ objects before after log log' snapshot,
             tables objects = (before ++ table :: after)%list →
             (∀ other, other ∈ after → filteredOut config other = false →
                tableKeyOf (tbl_schema other) (tbl_name other)
                ≠ tableKeyOf (tbl_schema table) (tbl_name table)) →
             drizzleObjectsToSnapshot config objects log = (log', Returned snapshot) →
             ∃ entity,
               snapshot_tables snapshot !! key = Some entity
               ∧ table_name entity = tbl_name table ∧ table_schema entity = field).
  { intros objects before after log log' snapshot Htables Hlater Hrun.
    apply snapshot_returned in Hrun as (st & log1 & log2 & ptr & Hloop & Hpolicies & _).
    unfold tablesLoop in Hloop. rewrite Htables, forEach_app in Hloop.
    apply bind_inv_returned in Hloop as (log3 & st3 & _ & Hloop).
    rewrite forEach_cons in Hloop.
    apply bind_inv_returned in Hloop as (log4 & st4 & Htable & Hloop).
    apply Hstep in Htable as (entity & Hentity & Hname & Hschema).
    assert (Hst : result st !! key = Some entity).
    { eapply (forEach_invariant (λ st, result st !! key = Some entity));
        [|exact Hentity|exact Hloop].
      intros s other l l' s' Hin HP Hother.
      destruct (filteredOut config other) eqn:Hfo.
      - rewrite tableStep_filtered in Hother by done. by inversion Hother; subst.
      - apply tableStep_returned in Hother
          as (? & ? & ? & ? & ? & ? & ? & ? & ? & ? & ? & ? & _ & _ & _ & _ & _ & _
              & entity' & Hres & _); [|done].
        rewrite Hres, lookup_insert_ne; [done|].
        rewrite <- Hkey. by apply Hlater. }
    pose proof (policyLoop_tables _ _ _ _ _ _ _ _ Hpolicies key) as Hkeep.
    rewrite Hst in Hkeep.
    destruct (snapshot_tables snapshot !! key) as [entity'|]; [|done].
    destruct Hkeep as [Hname' Hschema']. exists entity'. by rewrite Hname', Hschema'. }
  split; [exact Hstep|]. split; [exact Hconv|].
  split; [|split].
  - intros relations st log columnsObject uniques0 uniques registry indexesObject
      policiesObject checks checksObject log1 log2 log3 log4 log5
      Hcols Huniq Hidx Hpol Hchk.
    destruct (tableStep_returns config relations st table log _ _ _ _ _ _ _ _ _ _ _ _ _
                Hf Hcols Huniq Hidx Hpol Hchk)
      as (st' & entity & Hrun & Hres & _ & Hname & Hschema & Hcolumns & Hpolicies).
    exists st', entity. split; [exact Hrun|].
    rewrite Hres, Hkey, lookup_insert_eq. by rewrite <- Hfield.
  - intros Hbare relations st log.
    destruct (tableStep_bare config relations st table log Hf Hbare)
      as (st' & entity & Hrun & Hres & Hname & Hschema).
    exists st', entity. split; [exact Hrun|].
    rewrite Hres, Hkey, lookup_insert_eq. by rewrite <- Hfield.
  - intros objects before after log Htables Hbare Hpolicies Hviews HmatViews Hlater.
    destruct (tablesLoop_bare config (relations objects) _ Hbare
                {| result := ∅; indexesInSchema := ∅ |} log) as (st & Hloop).
    assert (Hrun : ∃ snapshot,
               drizzleObjectsToSnapshot config objects log = (log, Returned snapshot)).
    { unfold drizzleObjectsToSnapshot, tablesLoop.
      rewrite (bind_returned _ _ _ _ _ Hloop), Hpolicies, Hviews, HmatViews.
      by eexists. }
    destruct Hrun as (snapshot & Hrun). exists snapshot.
    destruct (Hconv _ _ _ _ _ _ Htables Hlater Hrun) as (entity & Hentity).
    by exists entity.
Qed.

(** ** Identity columns *)

(** C2 (as amended).  For an identity column whose sequence options leave
    [minValue], [maxValue] and [startWith] unspecified: when [increment] is
    unspecified too, the identity of the column entity has increment ["1"],
    minValue ["1"], startWith ["1"] and as maxValue the positive bound of
    the SQL type of the column (["2147483647"] for [integer],
    ["9223372036854775807"] for [bigint], ["32767"] otherwise); when
    [increment] is ["-1"] (the string, or the number -1), maxValue is
    ["-1"] and startWith equals that maxValue. *)
Theorem identity_range_defaults `{Host} (config : PartialConfig)
    (owner name : string) (schema : option string) (explain : option Explain)
    (jsonShape : option string) (column : PgColumn) (identity : GeneratedIdentity) :
  col_generatedIdentity column = Some identity →
  sequenceOption (Some identity) opt_minValue = None →
  sequenceOption (Some identity) opt_maxValue = None →
  sequenceOption (Some identity) opt_startWith = None →
  ∃ resolved,
    column_identity (columnToSet config owner name schema explain jsonShape column)
      = Some resolved
    ∧ (sequenceOption (Some identity) opt_increment = None →
         identity_increment resolved = "1"
         ∧ identity_minValue resolved = "1"
         ∧ identity_startWith resolved = "1"
         ∧ identity_maxValue resolved
           = if decide (col_sqlType column = "integer") then "2147483647"
             else if decide (col_sqlType column = "bigint") then "9223372036854775807"
             else "32767")
    ∧ (sequenceOption (Some identity) opt_increment = Some (NumString "-1")
       ∨ sequenceOption (Some identity) opt_increment = Some (NumNumber (-1)) →
         identity_increment resolved = "-1"
         ∧ identity_maxValue resolved = "-1"
         ∧ identity_startWith resolved = identity_maxValue resolved).
Proof.
  intros Hid Hmin Hmax Hstart. simpl. unfold identityOf. rewrite Hid. simpl.
  eexists. split; [reflexivity|]. simpl.
  unfold identityStartWith, identityMaxValue, identityMinValue, identityIncrement.
  rewrite Hid, Hmin, Hmax, Hstart. split.
  - intros ->. simpl. unfold maxRangeForIdentityBasedOn. done.
  - intros [-> | ->]; simpl; done.
Qed.

(** ** Array defaults *)

(** The text of an integer below 2^53 in magnitude is its decimal
    notation. *)
Lemma numberText_safe (n : Z) : Js.safeInteger n → Js.numberText n = pretty n.
Proof.
  unfold Js.safeInteger, Js.numberText, Js.positiveText.
  change (2 ^ 53)%Z with 9007199254740992%Z. intros Hsafe.
  destruct n as [|p|p]; [done| |].
  - by rewrite (proj2 (Z.ltb_lt _ _)) by lia.
  - change (- Z.neg p)%Z with (Z.pos p).
    by rewrite (proj2 (Z.ltb_lt _ _)) by lia.
Qed.

(** C7 (as amended).  For a column of an array SQL type whose default is a
    literal list, the encoded default is the brace-delimited, comma-joined
    literal of the list enclosed in single quotes.  The literal is built
    by [buildArrayString]: its elements are encoded by kind (numbers bare,
    as [toString()] prints them, which for an integer below 2^53 in
    magnitude is its decimal notation; booleans lowercase; strings in
    double quotes; objects as their JSON text in double quotes with the
    inner double quotes escaped) and a nested list is encoded
    recursively; [[1,2,3]] gives [{1,2,3}], [[[1,2],[3,4]]] gives
    [{{1,2},{3,4}}], [[1.5,2]] gives [{1.5,2}] and the number 2^60 gives
    [{1152921504606847000}], so that the defaults stored for the first
    two are ['{1,2,3}'] and ['{{1,2},{3,4}}']. *)
Theorem array_default_literal `{Host} (config : PartialConfig)
    (owner name : string) (schema : option string) (explain : option Explain)
    (jsonShape : option string) (column : PgColumn) (items : list value) :
  let sqlTypeLowered := Js.toLowerCase (col_sqlType column) in
  col_default column = VArray items →
  isPgArrayType sqlTypeLowered = true →
  sqlTypeLowered ≠ "json" → sqlTypeLowered ≠ "jsonb" →
  column_default (columnToSet config owner name schema explain jsonShape column)
    = Some (VString (squote ++ buildArrayString items sqlTypeLowered ++ squote))
  ∧ buildArrayString items sqlTypeLowered
    = "{" ++ Js.join "," (elementString (Js.before "[" sqlTypeLowered) <$> items) ++ "}"
  ∧ (∀ sqlType,
       (∀ n, elementString sqlType (VNumber n) = Js.numberText n)
       ∧ (∀ n, Js.safeInteger n → elementString sqlType (VNumber n) = pretty n)
       ∧ (∀ text, elementString sqlType (VFloat text) = text)
       ∧ elementString sqlType (VBool true) = "true"
       ∧ elementString sqlType (VBool false) = "false"
       ∧ (∀ s, elementString sqlType (VString s) = dquote ++ s ++ dquote)
       ∧ (∀ fields,
            elementString sqlType (VObject fields)
            = dquote
              ++ Js.replaceAllChar "034" (backslash ++ dquote) (JSON_stringify (VObject fields))
              ++ dquote)
       ∧ (∀ nested,
            elementString sqlType (VArray nested) = buildArrayString nested sqlType))
  ∧ buildArrayString [VNumber 1; VNumber 2; VNumber 3] "integer[]" = "{1,2,3}"
  ∧ buildArrayString
      [VArray [VNumber 1; VNumber 2]; VArray [VNumber 3; VNumber 4]] "integer[]"
    = "{{1,2},{3,4}}"
  ∧ buildArrayString [VFloat "1.5"; VNumber 2] "real[]" = "{1.5,2}"
  ∧ buildArrayString [VNumber (2 ^ 60)] "bigint[]" = "{1152921504606847000}".
Proof.
  intros sqlTypeLowered Hdefault Harray Hjson Hjsonb. repeat split.
  - simpl. unfold defaultOf. fold sqlTypeLowered. rewrite Hdefault.
    rewrite !bool_decide_eq_false_2 by done. simpl. by rewrite Harray.
  - intros n Hsafe. simpl. by apply numberText_safe.
Qed.

(** ** Registries of names *)

Section FirstRepeated.

Lemma firstRepeated_app seen names1 names2 :
  firstRepeated seen (names1 ++ names2)%list
  = match firstRepeated seen names1 with
    | Some name => Some name
    | None => firstRepeated (reverse names1 ++ seen)%list names2
    end.
Proof.
  revert seen. induction names1 as [|name names1 IH]; intros seen; [done|].
  simpl. case_bool_decide; [done|].
  rewrite IH, reverse_cons, <- app_assoc. done.
Qed.

(** The name reported is the first that repeats an earlier one. *)
Lemma firstRepeated_split seen names first name rest :
  names = (first ++ name :: rest)%list →
  NoDup first → (∀ n, n ∈ first → n ∉ seen) →
  name ∈ first ∨ name ∈ seen →
  firstRepeated seen names = Some name.
Proof.
  intros -> Hnodup Hfresh Hname. revert seen Hfresh Hname.
  induction first as [|n first IH]; intros seen Hfresh Hname; simpl.
  - destruct Hname as [Hin|Hin]; [by apply elem_of_nil in Hin|].
    by rewrite bool_decide_eq_true_2.
  - rewrite bool_decide_eq_false_2 by (apply Hfresh; left).
    apply NoDup_cons in Hnodup as [Hn Hnodup]. apply IH; [done| |].
    + intros m Hm Hseen. apply elem_of_cons in Hseen as [->|Hseen]; [done|].
      by apply (Hfresh m); [right|].
    + destruct Hname as [Hin|Hin].
      * apply elem_of_cons in Hin as [->|Hin]; [right; left|by left].
      * right. by right.
Qed.

(** A list with a repeated element splits at the first repetition. *)
Lemma first_repetition (names : list string) :
  ¬ NoDup names →
  ∃ first name rest,
    names = (first ++ name :: rest)%list ∧ NoDup first ∧ name ∈ first.
Proof.
  induction names as [|name names IH] using rev_ind; intros Hdup.
  - destruct Hdup. constructor.
  - destruct (decide (NoDup names)) as [Hnodup|Hnot].
    + exists names, name, []. repeat split; [done|].
      destruct (decide (name ∈ names)) as [|Hnotin]; [done|].
      destruct Hdup. apply NoDup_app. repeat split; [done| |apply NoDup_singleton].
      intros n Hn Hn'. apply list_elem_of_singleton in Hn' as ->. done.
    + destruct (IH Hnot) as (first & n & rest & -> & Hnodup & Hin).
      exists first, n, (rest ++ [name])%list. by rewrite <- app_assoc.
Qed.

Lemma firstFound_app seen names1 names2 :
  firstFound seen (names1 ++ names2)%list
  = match firstFound seen names1 with
    | Some found => Some found
    | None => firstFound (reverse names1 ++ seen)%list names2
    end.
Proof.
  revert seen. induction names1 as [|name names1 IH]; intros seen; [done|].
  simpl. case_bool_decide; [done|]. destruct (Js.inherited name); [done|].
  rewrite IH, reverse_cons, <- app_assoc. done.
Qed.

(** On ordinary names, the first name found is the first repeated one. *)
Lemma firstFound_ordinary seen names :
  ordinary names →
  firstFound seen names = (λ name, (true, name)) <$> firstRepeated seen names.
Proof.
  intros Hnames. revert seen.
  induction Hnames as [|name names Hname Hnames IH]; intros seen; [done|].
  simpl. case_bool_decide; [done|]. by rewrite Hname.
Qed.

(** When nothing is found, the names are pairwise distinct. *)
Lemma firstFound_none seen names :
  firstFound seen names = None →
  NoDup names ∧ ordinary names ∧ ∀ name, name ∈ names → name ∉ seen.
Proof.
  revert seen. induction names as [|name names IH]; intros seen Hnone; simpl in Hnone.
  - repeat split; [constructor|constructor|]. intros name Hin.
    by apply elem_of_nil in Hin.
  - case_bool_decide as Hseen; [discriminate|].
    destruct (Js.inherited name) eqn:Hname; [discriminate|].
    destruct (IH _ Hnone) as (Hnodup & Hordinary & Hfresh). repeat split.
    + constructor; [|done]. intros Hin. apply (Hfresh name Hin). by left.
    + by constructor.
    + intros n Hn. apply elem_of_cons in Hn as [->|Hn]; [done|].
      intros Hin. apply (Hfresh n Hn). by right.
Qed.

Lemma firstFound_repeated names :
  ¬ NoDup names → ∃ found, firstFound [] names = Some found.
Proof.
  intros Hdup. destruct (firstFound [] names) as [found|] eqn:Hfound; [eauto|].
  by destruct (firstFound_none _ _ Hfound) as [Hnodup _].
Qed.

End FirstRepeated.

(** A loop that records names in a plain object and stops at the first
    name that it finds there.  [reg] is the object among the variables of
    the loop, [keyOf] the name an element is recorded under (if any);
    [err] is the error for a name that is recorded already and
    [errInherited] the one for the name of a member of
    [Object.prototype]. *)
Section Registry.

Context {A S V : Type}.
Variable body : S → A → M S.
Variable reg : S → gmap string V.
Variable keyOf : A → option string.
Variable emitted : string → list diagnostic.
Variable err : string → error.
Variable errInherited : string → error.

Hypothesis body_fresh : ∀ s x log k,
  keyOf x = Some k → reg s !! k = None → Js.inherited k = false →
  ∃ s' v, body s x log = (log, Returned s') ∧ reg s' = <[k := v]> (reg s).
Hypothesis body_taken : ∀ s x log k,
  keyOf x = Some k → is_Some (reg s !! k) →
  body s x log = ((log ++ emitted k)%list, Thrown (err k)).
Hypothesis body_inherited : ∀ s x log k,
  keyOf x = Some k → reg s !! k = None → Js.inherited k = true →
  body s x log = (log, Thrown (errInherited k)).
Hypothesis body_none : ∀ s x log,
  keyOf x = None → ∃ s', body s x log = (log, Returned s') ∧ reg s' = reg s.

Lemma registry_found xs :
  ∀ s log seen,
    (∀ k, is_Some (reg s !! k) ↔ k ∈ seen) →
    match firstFound seen (omap keyOf xs) with
    | Some (true, k) =>
        forEach body s xs log = ((log ++ emitted k)%list, Thrown (err k))
    | Some (false, k) => forEach body s xs log = (log, Thrown (errInherited k))
    | None =>
        ∃ s', forEach body s xs log = (log, Returned s')
              ∧ ∀ k, is_Some (reg s' !! k) ↔ k ∈ (reverse (omap keyOf xs) ++ seen)%list
    end.
Proof.
  induction xs as [|x xs IH]; intros s log seen Hseen; simpl.
  - exists s. split; [done|]. intros k. by rewrite Hseen.
  - change (list_omap A string keyOf xs) with (omap keyOf xs).
    destruct (keyOf x) as [k|] eqn:Hkey; simpl.
    + case_bool_decide as Hk.
      * erewrite bind_thrown; [done|].
        apply body_taken; [done|]. by apply Hseen.
      * assert (Hfree : reg s !! k = None).
        { apply eq_None_not_Some. by rewrite Hseen. }
        destruct (Js.inherited k) eqn:Hname.
        { erewrite bind_thrown; [done|]. by apply body_inherited. }
        destruct (body_fresh s x log k Hkey Hfree Hname) as (s' & v & Hx & Hreg).
        assert (Hseen' : ∀ k', is_Some (reg s' !! k') ↔ k' ∈ k :: seen).
        { intros k'. rewrite Hreg, elem_of_cons.
          destruct (decide (k = k')) as [->|Hne].
          - rewrite lookup_insert_eq. split; [by left|by eexists].
          - rewrite lookup_insert_ne by done. rewrite Hseen.
            split; [by right|by intros [?|?]]. }
        specialize (IH s' log (k :: seen) Hseen').
        destruct (firstFound (k :: seen) (omap keyOf xs)) as [[[] k']|].
        -- by erewrite bind_returned.
        -- by erewrite bind_returned.
        -- destruct IH as (s'' & Hrun & Hdom). exists s''.
           split; [by erewrite bind_returned|].
           intros k'. rewrite Hdom, reverse_cons, <- app_assoc. done.
    + destruct (body_none s x log Hkey) as (s' & Hx & Hreg).
      assert (Hseen' : ∀ k, is_Some (reg s' !! k) ↔ k ∈ seen).
      { intros k. by rewrite Hreg. }
      specialize (IH s' log seen Hseen').
      destruct (firstFound seen (omap keyOf xs)) as [[[] k']|].
      * by erewrite bind_returned.
      * by erewrite bind_returned.
      * destruct IH as (s'' & Hrun & Hdom). exists s''.
        split; [by erewrite bind_returned|done].
Qed.

(** On ordinary names the loop stops at the first name that repeats an
    earlier one. *)
Lemma registry_loop xs :
  ∀ s log seen,
    (∀ k, is_Some (reg s !! k) ↔ k ∈ seen) →
    ordinary (omap keyOf xs) →
    match firstRepeated seen (omap keyOf xs) with
    | Some k => forEach body s xs log = ((log ++ emitted k)%list, Thrown (err k))
    | None =>
        ∃ s', forEach body s xs log = (log, Returned s')
              ∧ ∀ k, is_Some (reg s' !! k) ↔ k ∈ (reverse (omap keyOf xs) ++ seen)%list
    end.
Proof.
  intros s log seen Hseen Hnames.
  pose proof (registry_found xs s log seen Hseen) as Hloop.
  rewrite (firstFound_ordinary _ _ Hnames) in Hloop.
  by destruct (firstRepeated seen (omap keyOf xs)).
Qed.

(** Whatever the names are, a loop that finds something throws. *)
Lemma registry_throws xs s log seen found :
  (∀ k, is_Some (reg s !! k) ↔ k ∈ seen) →
  firstFound seen (omap keyOf xs) = Some found →
  throws (forEach body s xs log).
Proof.
  intros Hseen Hfound. pose proof (registry_found xs s log seen Hseen) as Hloop.
  rewrite Hfound in Hloop. destruct found as [[] k]; rewrite Hloop; by eexists.
Qed.

End Registry.

(** ** Unique constraints *)

Section UniqueConstraints.

Context `{Host}.
Variable config : PartialConfig.

(** The loop over the columns of a table is a registry of the names of
    the unique columns. *)
Lemma columns_found table columns acc log seen :
  (∀ k, is_Some (acc.2 !! k) ↔ k ∈ seen) →
  match firstFound seen (omap columnUniqueKey columns) with
  | Some (true, k) =>
      forEach (tableColumn config table) acc columns log
      = ((log ++ [Reported (DuplicateUniqueConstraintError (tbl_name table) k)])%list,
         Thrown (DuplicateUniqueConstraintError (tbl_name table) k))
  | Some (false, k) =>
      forEach (tableColumn config table) acc columns log = (log, Thrown (TypeError "join"))
  | None =>
      ∃ acc', forEach (tableColumn config table) acc columns log = (log, Returned acc')
              ∧ ∀ k, is_Some (acc'.2 !! k)
                     ↔ k ∈ (reverse (omap columnUniqueKey columns) ++ seen)%list
  end.
Proof.
  apply (registry_found (tableColumn config table) snd columnUniqueKey
           (λ k, [Reported (DuplicateUniqueConstraintError (tbl_name table) k)])
           (DuplicateUniqueConstraintError (tbl_name table))
           (λ _, TypeError "join")).
  - intros [cols uq] column l k Hkey Hfree Hname. unfold columnUniqueKey in Hkey.
    unfold tableColumn, columnUnique.
    destruct (col_isUnique column); [|done]. injection Hkey as <-.
    simpl in Hfree. unfold bind. rewrite get_undefined by done. unfold ret. simpl.
    eexists _, _. split; [reflexivity|]. simpl.
    by apply put_insert, not_inherited_not_proto.
  - intros [cols uq] column l k Hkey [existing Htaken]. unfold columnUniqueKey in Hkey.
    unfold tableColumn, columnUnique.
    destruct (col_isUnique column); [|done]. injection Hkey as <-.
    simpl in Htaken. unfold bind. by rewrite (get_own _ _ _ Htaken).
  - intros [cols uq] column l k Hkey Hfree Hname. unfold columnUniqueKey in Hkey.
    unfold tableColumn, columnUnique.
    destruct (col_isUnique column); [|done]. injection Hkey as <-.
    simpl in Hfree. unfold bind. by rewrite get_inherited.
  - intros [cols uq] column l Hkey. unfold columnUniqueKey in Hkey.
    unfold tableColumn, columnUnique.
    destruct (col_isUnique column); [done|]. unfold bind, ret. simpl. eauto.
Qed.

Lemma columns_registry table columns acc log seen :
  (∀ k, is_Some (acc.2 !! k) ↔ k ∈ seen) →
  ordinary (omap columnUniqueKey columns) →
  match firstRepeated seen (omap columnUniqueKey columns) with
  | Some k =>
      forEach (tableColumn config table) acc columns log
      = ((log ++ [Reported (DuplicateUniqueConstraintError (tbl_name table) k)])%list,
         Thrown (DuplicateUniqueConstraintError (tbl_name table) k))
  | None =>
      ∃ acc', forEach (tableColumn config table) acc columns log = (log, Returned acc')
              ∧ ∀ k, is_Some (acc'.2 !! k)
                     ↔ k ∈ (reverse (omap columnUniqueKey columns) ++ seen)%list
  end.
Proof.
  intros Hseen Hnames. pose proof (columns_found table columns acc log seen Hseen) as Hloop.
  rewrite (firstFound_ordinary _ _ Hnames) in Hloop.
  by destruct (firstRepeated seen (omap columnUniqueKey columns)).
Qed.

(** So is the loop over the unique constraints declared on the table. *)
Lemma uniques_found table uniques uq log seen :
  (∀ k, is_Some (uq !! k) ↔ k ∈ seen) →
  match firstFound seen (tableUniqueName config table <$> uniques) with
  | Some (true, k) =>
      forEach (tableUnique config table) uq uniques log
      = ((log ++ [Reported (DuplicateUniqueConstraintError (tbl_name table) k)])%list,
         Thrown (DuplicateUniqueConstraintError (tbl_name table) k))
  | Some (false, k) =>
      forEach (tableUnique config table) uq uniques log = (log, Thrown (TypeError "join"))
  | None =>
      ∃ uq', forEach (tableUnique config table) uq uniques log = (log, Returned uq')
  end.
Proof.
  intros Hseen.
  pose proof (registry_found (tableUnique config table) id
                (λ unq, Some (tableUniqueName config table unq))
                (λ k, [Reported (DuplicateUniqueConstraintError (tbl_name table) k)])
                (DuplicateUniqueConstraintError (tbl_name table))
                (λ _, TypeError "join")) as Hloop.
  assert (Hkeys : omap (λ unq, Some (tableUniqueName config table unq)) uniques
                  = tableUniqueName config table <$> uniques).
  { induction uniques as [|unq uniques IH]; [done|]. simpl. by f_equal. }
  rewrite <- Hkeys.
  specialize (Hloop
    ltac:(intros uq0 unq l k [= <-] Hfree Hname;
          unfold tableUnique, tableUniqueName, id in *; cbv zeta;
          rewrite get_undefined by done; unfold ret;
          eexists _, _; split; [reflexivity|];
          by apply put_insert, not_inherited_not_proto)
    ltac:(intros uq0 unq l k [= <-] [existing Htaken];
          unfold tableUnique, tableUniqueName, id in *; cbv zeta;
          by rewrite (get_own _ _ _ Htaken))
    ltac:(intros uq0 unq l k [= <-] Hfree Hname;
          unfold tableUnique, tableUniqueName, id in *; cbv zeta;
          by rewrite get_inherited)
    ltac:(intros; discriminate)
    uniques uq log seen Hseen).
  destruct (firstFound seen _) as [[[] k]|]; [done|done|].
  destruct Hloop as (uq' & Hrun & _). eauto.
Qed.

(** The step of a table stops at the first unique-constraint name that is
    found when it is to be recorded. *)
Lemma tableStep_unique_found relations st table log :
  filteredOut config table = false →
  match firstFound [] (uniqueNames config table) with
  | Some (true, name) =>
      tableStep config relations st table log
      = ((log ++ [Reported (DuplicateUniqueConstraintError (tbl_name table) name)])%list,
         Thrown (DuplicateUniqueConstraintError (tbl_name table) name))
  | Some (false, name) =>
      tableStep config relations st table log = (log, Thrown (TypeError "join"))
  | None => True
  end.
Proof.
  intros Hf. unfold tableStep. rewrite Hf.
  unfold uniqueNames. rewrite firstFound_app.
  pose proof (columns_found table (tbl_columns table) (∅, ∅) log []) as Hcols.
  destruct (firstFound [] (omap columnUniqueKey (tbl_columns table))) as [[[] k]|].
  - erewrite bind_thrown; [done|]. apply Hcols.
    intros k'. simpl. rewrite lookup_empty. split; [by intros [??]|by intros ?%elem_of_nil].
  - erewrite bind_thrown; [done|]. apply Hcols.
    intros k'. simpl. rewrite lookup_empty. split; [by intros [??]|by intros ?%elem_of_nil].
  - destruct Hcols as ([cols uq] & Hrun & Hdom).
    { intros k. simpl. rewrite lookup_empty.
      split; [by intros [??]|by intros ?%elem_of_nil]. }
    pose proof (uniques_found table (tbl_uniqueConstraints table) uq log _ Hdom) as Huniq.
    simpl in Huniq.
    destruct (firstFound _ (tableUniqueName config table <$> _)) as [[[] k]|]; [| |done].
    + erewrite bind_returned by exact Hrun. cbv beta iota zeta. by erewrite bind_thrown.
    + erewrite bind_returned by exact Hrun. cbv beta iota zeta. by erewrite bind_thrown.
Qed.

(** A table with a repeated unique-constraint name stops at the first
    repetition, when the names are ordinary. *)
Lemma tableStep_duplicate_unique relations st table log name :
  filteredOut config table = false →
  ordinary (uniqueNames config table) →
  firstRepeated [] (uniqueNames config table) = Some name →
  tableStep config relations st table log
  = ((log ++ [Reported (DuplicateUniqueConstraintError (tbl_name table) name)])%list,
     Thrown (DuplicateUniqueConstraintError (tbl_name table) name)).
Proof.
  intros Hf Hnames Hrep.
  pose proof (tableStep_unique_found relations st table log Hf) as Hstep.
  by rewrite (firstFound_ordinary _ _ Hnames), Hrep in Hstep.
Qed.

(** Whatever the names are, a table with a repeated unique-constraint name
    does not get through its step. *)
Lemma tableStep_unique_throws relations st table log :
  filteredOut config table = false →
  ¬ NoDup (uniqueNames config table) →
  throws (tableStep config relations st table log).
Proof.
  intros Hf [found Hfound]%firstFound_repeated.
  pose proof (tableStep_unique_found relations st table log Hf) as Hstep.
  rewrite Hfound in Hstep. destruct found as [[] name]; rewrite Hstep; by eexists.
Qed.

End UniqueConstraints.

(** C4.  When two unique constraints of one table (from the [isUnique]
    flag of a column or from the unique constraints declared on the table)
    resolve to the same name, the step of the table, started from any
    result and index registry, throws, and a conversion whose tables
    include such a table returns no snapshot.  A unique constraint whose
    name is already recorded for the table, on a column or declared on the
    table, prints and throws the duplicate-unique-constraint error.  When
    no unique-constraint name of the table is the name of a member of
    [Object.prototype], the step of the table ends in the
    duplicate-unique-constraint error for the first name that repeats an
    earlier one, that is at the moment the second constraint of that name
    is processed, after printing the message for it and nothing else.  A
    name that [Object.prototype] has too is found before any constraint
    is recorded: the conversion of a table [users] with two unique columns
    whose constraints are both named [constructor] ends at the first of
    them in the type error of [existingUnique.columns.join], with nothing
    printed. *)
Theorem duplicate_unique_constraint_fails `{Host} (config : PartialConfig)
    (table : PgTable) :
  filteredOut config table = false →
  ¬ NoDup (uniqueNames config table) →
  (∀ relations st log, throws (tableStep config relations st table log))
  ∧ (∀ objects log,
       table ∈ tables objects →
       throws (drizzleObjectsToSnapshot config objects log))
  ∧ (∀ name column recorded existing log,
       col_isUnique column = true →
       recorded !! propertyKey (col_uniqueName column) = Some existing →
       columnUnique (tbl_name table) name column recorded log
       = ((log ++ [Reported (DuplicateUniqueConstraintError (tbl_name table)
                               (propertyKey (col_uniqueName column)))])%list,
          Thrown (DuplicateUniqueConstraintError (tbl_name table)
                    (propertyKey (col_uniqueName column)))))
  ∧ (∀ unq recorded existing log,
       recorded !! tableUniqueName config table unq = Some existing →
       tableUnique config table recorded unq log
       = ((log ++ [Reported (DuplicateUniqueConstraintError (tbl_name table)
                               (tableUniqueName config table unq))])%list,
          Thrown (DuplicateUniqueConstraintError (tbl_name table)
                    (tableUniqueName config table unq))))
  ∧ (ordinary (uniqueNames config table) →
     ∃ first name rest,
       uniqueNames config table = (first ++ name :: rest)%list
       ∧ NoDup first ∧ name ∈ first
       ∧ ∀ relations st log,
           tableStep config relations st table log
           = ((log ++ [Reported (DuplicateUniqueConstraintError (tbl_name table) name)])%list,
              Thrown (DuplicateUniqueConstraintError (tbl_name table) name)))
  ∧ run (drizzleObjectsToSnapshot noConfig
           (onlyTables
              [tableWithColumns None "users"
                 [uniqueColumn "email" "constructor";
                  uniqueColumn "login" "constructor"]] []))
    = ([], Thrown (TypeError "join")).
Proof.
  intros Hf Hdup. split; [|split; [|split; [|split; [|split]]]]; [| | | | |reflexivity].
  - intros relations st log. by apply tableStep_unique_throws.
  - intros objects log Hmem. unfold drizzleObjectsToSnapshot.
    apply throws_bind_l. unfold tablesLoop.
    apply list_elem_of_split in Hmem as (before & after & ->).
    apply (forEach_throws (λ _, True)); [done| |done].
    intros st l _. by apply tableStep_unique_throws.
  - intros name column recorded existing log Hunique Hrecorded.
    unfold columnUnique. by rewrite Hunique, (get_own _ _ _ Hrecorded).
  - intros unq recorded existing log Hrecorded.
    unfold tableUnique. fold (tableUniqueName config table unq).
    by rewrite (get_own _ _ _ Hrecorded).
  - intros Hnames.
    destruct (first_repetition _ Hdup) as (first & name & rest & Hsplit & Hnodup & Hin).
    exists first, name, rest. repeat split; try done.
    intros relations st log. apply tableStep_duplicate_unique; [done|done|].
    eapply firstRepeated_split; eauto. intros n _ Hn. by apply elem_of_nil in Hn.
Qed.

(** ** Loops that collect names

    A loop whose body, whenever it returns, has added the keys of its
    element to a set in which none of them was: when the loop returns, the
    keys of all its elements are pairwise distinct. *)
Section Collector.

Context {A S K : Type}.
Variable body : S → A → M S.
Variable mem : S → K → Prop.
Variable keysOf : A → list K.

Hypothesis body_returned : ∀ s x log log' s',
  body s x log = (log', Returned s') →
  NoDup (keysOf x)
  ∧ (∀ k, k ∈ keysOf x → ¬ mem s k)
  ∧ (∀ k, k ∈ keysOf x ∨ mem s k → mem s' k).

Lemma collector_loop xs :
  ∀ s log log' s',
    forEach body s xs log = (log', Returned s') →
    NoDup (xs ≫= keysOf)
    ∧ (∀ k, k ∈ xs ≫= keysOf → ¬ mem s k)
    ∧ (∀ k, k ∈ xs ≫= keysOf ∨ mem s k → mem s' k).
Proof.
  induction xs as [|x xs IH]; intros s log log' s' Hrun.
  - inversion Hrun; subst. repeat split.
    + constructor.
    + intros k Hk. by apply elem_of_nil in Hk.
    + intros k [Hk|Hk]; [by apply elem_of_nil in Hk|done].
  - rewrite forEach_cons in Hrun.
    apply bind_inv_returned in Hrun as (log1 & s1 & Hx & Hrest).
    destruct (body_returned _ _ _ _ _ Hx) as (Hnodup & Hfresh & Hgrow).
    destruct (IH _ _ _ _ Hrest) as (Hnodup' & Hfresh' & Hgrow').
    rewrite bind_cons. repeat split.
    + apply NoDup_app. repeat split; [done| |done].
      intros k Hk Hk'. apply (Hfresh' k Hk'), Hgrow. by left.
    + intros k Hk Hmem. apply elem_of_app in Hk as [Hk|Hk].
      * by apply (Hfresh k).
      * apply (Hfresh' k Hk), Hgrow. by right.
    + intros k Hk. apply Hgrow'. rewrite elem_of_app in Hk.
      destruct Hk as [[Hk|Hk]|Hk]; [right; apply Hgrow; by left|by left|].
      right. apply Hgrow. by right.
Qed.

End Collector.

(** ** Indexes *)

Section Indexes.

Context `{Host}.
Variable config : PartialConfig.

(** A member that is accepted adds its name; a member that is rejected
    ends the loop with its error. *)
Lemma indexMember_accepted tableName value names it log :
  accepted value it = true →
  indexMember config tableName value names it log
  = (log, Returned (names ++ [getIndexedColumnCasing it (cfg_casing config)])%list).
Proof.
  unfold accepted, expressionWithoutName, vectorWithoutOpClass, indexMember.
  destruct it as [q|c], (ix_name value); simpl; try done.
  all: intros ->%negb_true_iff; done.
Qed.

Lemma indexMember_rejected tableName value names it log :
  accepted value it = false →
  indexMember config tableName value names it log
  = ((log ++ [Reported (rejection config tableName value it)])%list,
     Thrown (rejection config tableName value it)).
Proof.
  unfold accepted, expressionWithoutName, vectorWithoutOpClass, indexMember.
  destruct it as [q|c], (ix_name value); simpl; try done.
  all: intros ->%negb_false_iff; done.
Qed.

Lemma indexMembers_accepted tableName value members :
  ∀ names log,
    forallb (accepted value) members = true →
    forEach (indexMember config tableName value) names members log
    = (log, Returned (names ++ memberNames config members)%list).
Proof.
  induction members as [|it members IH]; intros names log Hall; simpl.
  - by rewrite app_nil_r.
  - simpl in Hall. apply andb_true_iff in Hall as [Hit Hall].
    erewrite bind_returned by by apply indexMember_accepted.
    rewrite IH by done. by rewrite <- app_assoc.
Qed.

(** The first member that is rejected decides the error. *)
Lemma indexMembers_rejected tableName value before it after names log :
  forallb (accepted value) before = true →
  accepted value it = false →
  forEach (indexMember config tableName value) names (before ++ it :: after)%list log
  = ((log ++ [Reported (rejection config tableName value it)])%list,
     Thrown (rejection config tableName value it)).
Proof.
  intros Hbefore Hit. rewrite forEach_app.
  erewrite bind_returned by by apply indexMembers_accepted.
  rewrite forEach_cons. erewrite bind_thrown; [done|].
  by apply indexMember_rejected.
Qed.

(** A list with a rejected member splits at the first one. *)
Lemma first_rejected value members :
  forallb (accepted value) members = false →
  ∃ before it after,
    members = (before ++ it :: after)%list
    ∧ forallb (accepted value) before = true ∧ accepted value it = false.
Proof.
  induction members as [|it members IH]; [done|]. simpl.
  destruct (accepted value it) eqn:Hit; simpl.
  - intros (before & it' & after & -> & Hbefore & Hit')%IH.
    exists (it :: before), it', after. simpl. by rewrite Hit, Hbefore.
  - intros _. by exists [], it, members.
Qed.

(** The step of an index, by what the index resolves to. *)
Lemma tableIndex_resolved table registry indexesObject value log name :
  resolvedIndexName config table value = Some name →
  tableIndex config table (registry, indexesObject) value log
  = bind (registerIndexName (tbl_schema table) (tbl_name table) name registry)
      (λ registry',
         ret (registry',
              Js.put indexesObject name
                {| index_name := name;
                   index_columns := indexColumn config <$> ix_columns value;
                   index_isUnique := orElse (ix_unique value) false;
                   index_where := sqlToQuery (cfg_casing config) <$> ix_where value;
                   index_concurrently := orElse (ix_concurrently value) false;
                   index_method := orElse (ix_method value) "btree";
                   index_with := orElse (ix_with value) ∅ |}))
      log.
Proof.
  unfold resolvedIndexName, tableIndex.
  destruct (forallb _ _) eqn:Hall; [|done]. intros [= <-].
  erewrite bind_returned by by apply indexMembers_accepted. done.
Qed.

Lemma tableIndex_unresolved table acc value log :
  resolvedIndexName config table value = None →
  ∃ before it after,
    ix_columns value = (before ++ it :: after)%list
    ∧ forallb (accepted value) before = true ∧ accepted value it = false
    ∧ tableIndex config table acc value log
      = ((log ++ [Reported (rejection config (tbl_name table) value it)])%list,
         Thrown (rejection config (tbl_name table) value it)).
Proof.
  unfold resolvedIndexName, tableIndex.
  destruct (forallb _ _) eqn:Hall; [done|]. intros _.
  destruct (first_rejected _ _ Hall) as (before & it & after & Hsplit & Hbefore & Hit).
  exists before, it, after. repeat split; try done.
  destruct acc as [registry indexesObject]. rewrite Hsplit.
  erewrite bind_thrown; [done|]. by apply indexMembers_rejected.
Qed.

(** The registry of index names: a name that is registered for the schema
    is refused, any other is added, and nothing is ever removed. *)
Lemma registerIndexName_taken schema tableName name registry log :
  registered registry (orElse schema "public", name) →
  registerIndexName schema tableName name registry log
  = ((log ++ [Reported (DuplicateIndexNameError (orElse schema "public") tableName)])%list,
     Thrown (DuplicateIndexNameError (orElse schema "public") tableName)).
Proof.
  intros (names & Hnames & Hin). simpl in *. unfold registerIndexName, Js.includes.
  rewrite (get_own _ _ _ Hnames). by rewrite bool_decide_eq_true_2.
Qed.

(** A schema that has no names yet and is called like a member of
    [Object.prototype] cannot get any. *)
Lemma registerIndexName_inherited schema tableName name registry log :
  registry !! orElse schema "public" = None →
  Js.inherited (orElse schema "public") = true →
  registerIndexName schema tableName name registry log
  = (log, Thrown (TypeError "includes")).
Proof.
  intros Hnone Hname. unfold registerIndexName. by rewrite get_inherited.
Qed.

Lemma registerIndexName_free schema tableName name registry log :
  ¬ registered registry (orElse schema "public", name) →
  is_Some (registry !! orElse schema "public")
  ∨ Js.inherited (orElse schema "public") = false →
  ∃ registry',
    registerIndexName schema tableName name registry log = (log, Returned registry')
    ∧ ∀ key, registered registry' key
             ↔ key = (orElse schema "public", name) ∨ registered registry key.
Proof.
  intros Hfree Hschema. unfold registerIndexName, Js.includes, Js.get.
  destruct (registry !! orElse schema "public") as [names|] eqn:Hnames;
    [|destruct Hschema as [[? ?]|Hschema]; [done|];
      rewrite Hschema, put_insert by by apply not_inherited_not_proto].
  - rewrite bool_decide_eq_false_2.
    2:{ intros Hin. apply Hfree. by exists names. }
    eexists. split; [done|]. intros [k n]. unfold registered. simpl.
    destruct (decide (orElse schema "public" = k)) as [<-|Hne].
    + rewrite lookup_insert_eq. split.
      * intros (names' & [= <-] & [Hin| ->%list_elem_of_singleton]%elem_of_app);
          [right; eauto|by left].
      * intros [[= ->]|(names' & Hn & Hin)].
        -- eexists. split; [done|]. apply elem_of_app. right. by left.
        -- rewrite Hnames in Hn. injection Hn as <-.
           eexists. split; [done|]. apply elem_of_app. by left.
    + rewrite lookup_insert_ne by done. split; [by right|].
      intros [[= ? ?]|?]; [done|done].
  - eexists. split; [done|]. intros [k n]. unfold registered. simpl.
    destruct (decide (orElse schema "public" = k)) as [<-|Hne].
    + rewrite lookup_insert_eq, Hnames. split.
      * intros (names' & [= <-] & ->%list_elem_of_singleton). by left.
      * intros [[= ->]|(names' & Hn & _)]; [|done].
        eexists. split; [done|]. by left.
    + rewrite lookup_insert_ne by done. split; [by right|].
      intros [[= ? ?]|?]; [done|done].
Qed.

Lemma registered_dec registry key :
  registered registry key ∨ ¬ registered registry key.
Proof.
  unfold registered. destruct (registry !! key.1) as [names|].
  - destruct (decide (key.2 ∈ names)); [left; eauto|right].
    by intros (names' & [= <-] & Hin).
  - right. by intros (names' & ? & _).
Qed.




End Indexes.


Section IndexMembers.

Context `{Host}.
Variable config : PartialConfig.

(** The first rejected member of a list lies at or before any rejected
    member of the list. *)
Lemma first_rejected_before value (before0 : list IndexMember) it0 after0 :
  ∀ before it after,
    (before ++ it :: after)%list = (before0 ++ it0 :: after0)%list →
    forallb (accepted value) before0 = true →
    accepted value it = false →
    it0 ∈ before ∨ it0 = it.
Proof.
  induction before0 as [|y before0 IH]; intros before it after Heq Hacc Hit.
  - destruct before as [|x before]; simpl in Heq; injection Heq as -> _.
    + by right.
    + left. by left.
  - simpl in Hacc. apply andb_true_iff in Hacc as [Hy Hacc].
    destruct before as [|x before]; simpl in Heq.
    + injection Heq as -> _. by rewrite Hy in Hit.
    + injection Heq as -> Heq.
      destruct (IH _ _ _ Heq Hacc Hit) as [Hin| ->]; [left; by right|by right].
Qed.

(** An index with a rejected member fails with the error of its first
    rejected member, which is of one of the two kinds. *)
Lemma tableIndex_rejected table acc value log before it after :
  ix_columns value = (before ++ it :: after)%list →
  accepted value it = false →
  ∃ it0,
    (it0 ∈ before ∨ it0 = it) ∧ accepted value it0 = false
    ∧ tableIndex config table acc value log
      = ((log ++ [Reported (rejection config (tbl_name table) value it0)])%list,
         Thrown (rejection config (tbl_name table) value it0)).
Proof.
  intros Hsplit Hit.
  destruct (tableIndex_unresolved config table acc value log)
    as (before0 & it0 & after0 & Hsplit0 & Hacc0 & Hit0 & Hrun).
  { unfold resolvedIndexName. rewrite Hsplit, forallb_app. simpl.
    by rewrite Hit, andb_false_r. }
  exists it0. repeat split; [|done|done].
  rewrite Hsplit in Hsplit0. by eapply first_rejected_before.
Qed.

Lemma rejection_kind tableName value it :
  accepted value it = false →
  match it with
  | MemberSql _ =>
      ix_name value = None ∧ isMissingIndexName (rejection config tableName value it)
  | MemberColumn _ =>
      vectorWithoutOpClass it = true
      ∧ isMissingOperatorClass (rejection config tableName value it)
  end.
Proof.
  unfold accepted, expressionWithoutName.
  destruct it as [q|c]; simpl.
  - destruct (ix_name value); [done|]. intros _. split; [done|]. by eexists _, _.
  - intros ->%negb_false_iff. split; [done|]. by eexists _, _.
Qed.

(** When an expression comes first among the offending members of an index
    without a name, the error is the missing-index-name error; when a
    vector column without operator class comes first, it is the
    missing-operator-class error. *)
Lemma tableIndex_expression_first table acc value log before rest :
  ix_name value = None →
  ix_columns value = (before ++ rest)%list →
  (∃ it, it ∈ before ∧ isExpression it = true) →
  (∀ it, it ∈ before → vectorWithoutOpClass it = false) →
  ∃ e, tableIndex config table acc value log = ((log ++ [Reported e])%list, Thrown e)
       ∧ isMissingIndexName e.
Proof.
  intros Hnone Hsplit Hexpr Hvector.
  assert (Hloop : ∀ names,
            ∃ e, forEach (indexMember config (tbl_name table) value) names
                   (before ++ rest)%list log
                 = ((log ++ [Reported e])%list, Thrown e)
                 ∧ isMissingIndexName e).
  { clear Hsplit. induction before as [|it before IH]; intros names.
    - destruct Hexpr as (it & Hin & _). by apply elem_of_nil in Hin.
    - destruct (accepted value it) eqn:Hit.
      + simpl. erewrite bind_returned by by apply indexMember_accepted.
        apply IH.
        * destruct Hexpr as (it' & Hin & Hit').
          apply elem_of_cons in Hin as [->|Hin]; [|eauto].
          unfold accepted, expressionWithoutName in Hit. rewrite Hnone in Hit.
          by destruct it.
        * intros it' Hin. apply Hvector. by right.
      + eexists. split.
        * simpl. erewrite bind_thrown; [done|]. by apply indexMember_rejected.
        * pose proof (rejection_kind (tbl_name table) value it Hit) as Hkind.
          destruct it as [q|c]; [apply Hkind|].
          destruct Hkind as [Hvec _]. rewrite Hvector in Hvec; [done|by left]. }
  destruct acc as [registry indexesObject]. unfold tableIndex. rewrite Hsplit.
  destruct (Hloop []) as (e & Hrun & Hkind).
  exists e. split; [|done]. by erewrite bind_thrown.
Qed.

Lemma tableIndex_vector_first table acc value log before rest :
  ix_columns value = (before ++ rest)%list →
  (∃ it, it ∈ before ∧ vectorWithoutOpClass it = true) →
  (∀ it, it ∈ before → expressionWithoutName value it = false) →
  ∃ e, tableIndex config table acc value log = ((log ++ [Reported e])%list, Thrown e)
       ∧ isMissingOperatorClass e.
Proof.
  intros Hsplit Hvector Hexpr.
  assert (Hloop : ∀ names,
            ∃ e, forEach (indexMember config (tbl_name table) value) names
                   (before ++ rest)%list log
                 = ((log ++ [Reported e])%list, Thrown e)
                 ∧ isMissingOperatorClass e).
  { clear Hsplit. induction before as [|it before IH]; intros names.
    - destruct Hvector as (it & Hin & _). by apply elem_of_nil in Hin.
    - destruct (accepted value it) eqn:Hit.
      + simpl. erewrite bind_returned by by apply indexMember_accepted.
        apply IH.
        * destruct Hvector as (it' & Hin & Hit').
          apply elem_of_cons in Hin as [->|Hin]; [|eauto].
          unfold accepted in Hit. by rewrite Hit', andb_false_r in Hit.
        * intros it' Hin. apply Hexpr. by right.
      + eexists. split.
        * simpl. erewrite bind_thrown; [done|]. by apply indexMember_rejected.
        * pose proof (rejection_kind (tbl_name table) value it Hit) as Hkind.
          destruct it as [q|c]; [|apply Hkind].
          unfold accepted in Hit. rewrite Hexpr in Hit; [|by left]. done. }
  destruct acc as [registry indexesObject]. unfold tableIndex. rewrite Hsplit.
  destruct (Hloop []) as (e & Hrun & Hkind).
  exists e. split; [|done]. by erewrite bind_thrown.
Qed.

End IndexMembers.

(** ** Vector columns in indexes *)

(** C5 (as amended).  The conversion of an index that contains a
    vector-typed column member without an operator class fails, from any
    registry, at the first member of the index that is rejected: with the
    missing-operator-class error when the index is named or no
    SQL-expression member comes before that column, and with the
    missing-index-name error when the index is declared without a name and
    an SQL-expression member comes before the first such column.  An index
    all of whose vector-typed column members have an operator class never
    fails with the missing-operator-class error, and when it is named or
    has no SQL-expression member all its members are accepted and it is
    converted as soon as its name is not yet registered for its schema
    and the schema is not called like a member of [Object.prototype]; the
    index is then stored under its name, unless the name is
    [__proto__]. *)
Theorem vector_index_needs_operator_class `{Host} (config : PartialConfig)
    (table : PgTable) (value : PgIndex) :
  (∀ before c after acc log,
     ix_columns value = (before ++ MemberColumn c :: after)%list →
     vectorWithoutOpClass (MemberColumn c) = true →
     ∃ e,
       tableIndex config table acc value log = ((log ++ [Reported e])%list, Thrown e)
       ∧ (isMissingOperatorClass e ∨ (ix_name value = None ∧ isMissingIndexName e))
       ∧ (ix_name value ≠ None ∨ (∀ it, it ∈ before → isExpression it = false) →
          isMissingOperatorClass e)
       ∧ (ix_name value = None →
          (∃ it, it ∈ before ∧ isExpression it = true) →
          (∀ it, it ∈ before → vectorWithoutOpClass it = false) →
          isMissingIndexName e)
       ∧ (forallb (accepted value) before = true →
          e = MissingOperatorClassError
                (getIndexedColumnCasing (MemberColumn c) (cfg_casing config))
                (tbl_name table)))
  ∧ ((∀ it, it ∈ ix_columns value → vectorWithoutOpClass it = false) →
     (∀ acc log log' e,
        tableIndex config table acc value log = (log', Thrown e) →
        ¬ isMissingOperatorClass e)
     ∧ (ix_name value ≠ None ∨ (∀ it, it ∈ ix_columns value → isExpression it = false) →
        ∃ name,
          resolvedIndexName config table value = Some name
          ∧ ∀ registry indexesObject log,
              ¬ registered registry (orElse (tbl_schema table) "public", name) →
              Js.inherited (orElse (tbl_schema table) "public") = false →
              ∃ registry' indexesObject',
                tableIndex config table (registry, indexesObject) value log
                = (log, Returned (registry', indexesObject'))
                ∧ (name ≠ "__proto__" → is_Some (indexesObject' !! name)))).
Proof.
  split.
  - intros before c after acc log Hsplit Hvec.
    destruct (tableIndex_rejected config table acc value log _ _ _ Hsplit)
      as (it0 & Hpos & Hrej & Hrun).
    { unfold accepted. by rewrite Hvec, andb_false_r. }
    exists (rejection config (tbl_name table) value it0). split; [done|].
    pose proof (rejection_kind config (tbl_name table) value it0 Hrej) as Hkind.
    destruct it0 as [q|c0].
    + destruct Hkind as [Hnone Hkind]. split; [by right|]. split; [|split; [done|]].
      * intros [Hnamed|Hnosql]; [done|].
        destruct Hpos as [Hin|Heq]; [|done]. by apply Hnosql in Hin.
      * intros Hacc. destruct Hpos as [Hin|Heq]; [|done].
        apply list_elem_of_In in Hin.
        rewrite (proj1 (forallb_forall _ _) Hacc _ Hin) in Hrej. done.
    + destruct Hkind as [_ Hkind]. split; [by left|]. split; [done|]. split.
      * intros Hnone Hexpr Hvector.
        destruct (tableIndex_expression_first config table acc value log before
                    (MemberColumn c :: after) Hnone Hsplit Hexpr Hvector)
          as (e & Hrun' & He).
        rewrite Hrun in Hrun'. injection Hrun' as _ Heq. subst e. exact He.
      * intros Hacc. destruct Hpos as [Hin|Heq].
        -- apply list_elem_of_In in Hin.
           rewrite (proj1 (forallb_forall _ _) Hacc _ Hin) in Hrej. done.
        -- by rewrite Heq.
  - intros Hall. split.
    + intros acc log log' e Hrun Hkind.
      destruct (resolvedIndexName config table value) as [name|] eqn:Hname.
      * destruct acc as [registry indexesObject].
        rewrite (tableIndex_resolved _ _ _ _ _ _ _ Hname) in Hrun.
        destruct (registered_dec registry (orElse (tbl_schema table) "public", name))
          as [Htaken|Hfree].
        -- erewrite bind_thrown in Hrun by by apply registerIndexName_taken.
           injection Hrun as _ <-. by destruct Hkind as (? & ? & ?).
        -- destruct (registry !! orElse (tbl_schema table) "public") eqn:Hown;
             [|destruct (Js.inherited (orElse (tbl_schema table) "public")) eqn:Hproto].
           ++ destruct (registerIndexName_free (tbl_schema table) (tbl_name table) name
                          registry log Hfree) as (registry' & Hreg & _).
              { left. by rewrite Hown. }
              by erewrite bind_returned in Hrun by exact Hreg.
           ++ erewrite bind_thrown in Hrun by by apply registerIndexName_inherited.
              injection Hrun as _ <-. by destruct Hkind as (? & ? & ?).
           ++ destruct (registerIndexName_free (tbl_schema table) (tbl_name table) name
                          registry log Hfree) as (registry' & Hreg & _); [by right|].
              by erewrite bind_returned in Hrun by exact Hreg.
      * destruct (tableIndex_unresolved config table acc value log Hname)
          as (before & it & after & Hsplit & _ & Hrej & Hthrown).
        rewrite Hthrown in Hrun. injection Hrun as _ <-.
        pose proof (rejection_kind config (tbl_name table) value it Hrej) as Hit.
        destruct it as [q|c].
        -- by destruct Hkind as (? & ? & ?).
        -- destruct Hit as [Hvec _]. rewrite Hall in Hvec; [done|].
           rewrite Hsplit. apply elem_of_app. right. by left.
    + intros Hnamed.
      assert (Hacc : forallb (accepted value) (ix_columns value) = true).
      { apply forallb_forall. intros it Hin%list_elem_of_In.
        unfold accepted. rewrite (Hall it Hin), andb_true_r.
        unfold expressionWithoutName. destruct it as [q|c]; [|done].
        destruct Hnamed as [Hnamed|Hnosql]; [by destruct (ix_name value)|].
        by apply Hnosql in Hin. }
      eexists. split; [unfold resolvedIndexName; by rewrite Hacc|].
      intros registry indexesObject log Hfree Hschema.
      erewrite tableIndex_resolved by (unfold resolvedIndexName; by rewrite Hacc).
      destruct (registerIndexName_free (tbl_schema table) (tbl_name table) _
                  registry log Hfree (or_intror Hschema)) as (registry' & Hreg & _).
      erewrite bind_returned by exact Hreg.
      eexists _, _. split; [done|]. intros Hname.
      rewrite put_lookup_eq; [by eexists|by left].
Qed.

(** The name made for an index without a name is not [__proto__]. *)
Lemma length_appended (a b : string) :
  String.length (a ++ b) = (String.length a + String.length b)%nat.
Proof. induction a as [|x a IH]; [done|]. simpl. by rewrite IH. Qed.

Lemma indexName_not_proto (tableName : string) (columns : list string) :
  indexName tableName columns ≠ "__proto__".
Proof.
  unfold indexName. generalize (Js.join "_" columns). intros joined Heq.
  pose proof (f_equal String.length Heq) as Hlength.
  rewrite !length_appended in Hlength. simpl in Hlength.
  destruct tableName as [|a1 [|a2 [|a3 tableName]]],
    joined as [|j1 [|j2 [|j3 joined]]];
    simpl in Hlength; try lia; discriminate.
Qed.

(** ** Index names *)

(** C6 (as amended).  For an index declared without a name: when its
    members are all plain columns, the name under which the index is
    stored, and which the index entity carries, is the table name, the
    (cased) names of the columns in the order of declaration and [index],
    joined with underscores (columns [a] and [b] on table [users] give
    [users_a_b_index]), and the index is stored under that name as soon as
    no vector column lacks an operator class, the name is not yet
    registered for the schema and the schema is not called like a member
    of [Object.prototype]; when it contains an SQL-expression member
    the conversion fails at the first member of the index that is
    rejected: with the missing-index-name error when no vector-typed
    column without operator class comes before the expression, and with
    the missing-operator-class error when such a column comes before the
    first SQL-expression member. *)
Theorem unnamed_index_name `{Host} (config : PartialConfig)
    (table : PgTable) (value : PgIndex) :
  ix_name value = None →
  let name :=
    tbl_name table ++ "_" ++ Js.join "_" (memberNames config (ix_columns value))
    ++ "_index" in
  ((∀ it, it ∈ ix_columns value → isExpression it = false) →
   (∀ acc log log' acc',
      tableIndex config table acc value log = (log', Returned acc') →
      ∃ entity, acc'.2 !! name = Some entity ∧ index_name entity = name)
   ∧ ((∀ it, it ∈ ix_columns value → vectorWithoutOpClass it = false) →
      ∀ registry indexesObject log,
        ¬ registered registry (orElse (tbl_schema table) "public", name) →
        Js.inherited (orElse (tbl_schema table) "public") = false →
        ∃ registry' entity,
          tableIndex config table (registry, indexesObject) value log
          = (log, Returned (registry', <[name := entity]> indexesObject))
          ∧ index_name entity = name))
  ∧ (∀ before q after acc log,
       ix_columns value = (before ++ MemberSql q :: after)%list →
       ∃ e,
         tableIndex config table acc value log = ((log ++ [Reported e])%list, Thrown e)
         ∧ (isMissingIndexName e ∨ isMissingOperatorClass e)
         ∧ ((∀ it, it ∈ before → vectorWithoutOpClass it = false) →
            isMissingIndexName e)
         ∧ ((∀ it, it ∈ before → isExpression it = false) →
            (∃ it, it ∈ before ∧ vectorWithoutOpClass it = true) →
            isMissingOperatorClass e)
         ∧ (forallb (accepted value) before = true →
            e = MissingIndexNameError (ix_table value) (sqlToQuery (cfg_casing config) q)))
  ∧ indexName "users" ["a"; "b"] = "users_a_b_index".
Proof.
  intros Hnone name.
  assert (Hresolve : ∀ names, resolveIndexName (tbl_name table) value names
                              = tbl_name table ++ "_" ++ Js.join "_" names ++ "_index").
  { intros names. unfold resolveIndexName. by rewrite Hnone. }
  assert (Hproto : name ≠ "__proto__").
  { apply (indexName_not_proto (tbl_name table)). }
  split; [|split; [|done]].
  - intros Hcolumns. split.
    + intros [registry indexesObject] log log' acc' Hrun.
      destruct (resolvedIndexName config table value) as [name'|] eqn:Hname.
      * assert (name' = name) as ->.
        { unfold resolvedIndexName in Hname. destruct (forallb _ _); [|done].
          injection Hname as <-. apply Hresolve. }
        rewrite (tableIndex_resolved _ _ _ _ _ _ _ Hname) in Hrun.
        apply bind_inv_returned in Hrun as (log1 & registry' & _ & Hrun).
        inversion Hrun; subst; clear Hrun. simpl.
        rewrite put_lookup_eq by by left. eauto.
      * destruct (tableIndex_unresolved config table (registry, indexesObject) value
                    log Hname) as (? & ? & ? & _ & _ & _ & Hthrown).
        by rewrite Hthrown in Hrun.
    + intros Hvector registry indexesObject log Hfree Hschema.
      assert (Hname : resolvedIndexName config table value = Some name).
      { unfold resolvedIndexName. rewrite Hresolve.
        rewrite (proj2 (forallb_forall _ _)); [done|].
        intros it Hin%list_elem_of_In. unfold accepted.
        rewrite (Hvector it Hin), andb_true_r. unfold expressionWithoutName.
        specialize (Hcolumns it Hin). by destruct it. }
      rewrite (tableIndex_resolved _ _ _ _ _ _ _ Hname).
      destruct (registerIndexName_free (tbl_schema table) (tbl_name table) name
                  registry log Hfree (or_intror Hschema)) as (registry' & Hreg & _).
      erewrite bind_returned by exact Hreg. rewrite put_insert by done.
      eexists _, _. split; [done|done].
  - intros before q after acc log Hsplit.
    destruct (tableIndex_rejected config table acc value log _ _ _ Hsplit)
      as (it0 & Hpos & Hrej & Hrun).
    { unfold accepted, expressionWithoutName. by rewrite Hnone. }
    exists (rejection config (tbl_name table) value it0). split; [done|].
    pose proof (rejection_kind config (tbl_name table) value it0 Hrej) as Hkind.
    destruct it0 as [q0|c0].
    + destruct Hkind as [_ Hkind]. split; [by left|]. split; [done|]. split.
      * intros Hcolumns Hvector.
        destruct (tableIndex_vector_first config table acc value log before
                    (MemberSql q :: after) Hsplit Hvector) as (e & Hrun' & He).
        { intros it Hin. specialize (Hcolumns it Hin). by destruct it. }
        rewrite Hrun in Hrun'. injection Hrun' as _ Heq. subst e. exact He.
      * intros Hacc. destruct Hpos as [Hin|Heq].
        -- apply list_elem_of_In in Hin.
           rewrite (proj1 (forallb_forall _ _) Hacc _ Hin) in Hrej. done.
        -- by rewrite Heq.
    + destruct Hkind as [Hvec Hkind]. split; [by right|]. split; [|split; [done|]].
      * intros Hvector. destruct Hpos as [Hin|Heq]; [|done].
        by rewrite (Hvector _ Hin) in Hvec.
      * intros Hacc. destruct Hpos as [Hin|Heq]; [|done].
        apply list_elem_of_In in Hin.
        rewrite (proj1 (forallb_forall _ _) Hacc _ Hin) in Hrej. done.
Qed.

(** ** Policies *)

Section Policies.

Context `{Host}.
Variable config : PartialConfig.

(** The loop over the policies declared on a table is a registry of their
    names; there a name that is found, recorded or inherited, ends in the
    reference error. *)
Lemma policies_found policies policiesObject log seen :
  (∀ k, is_Some (policiesObject !! k) ↔ k ∈ seen) →
  match firstFound seen (pol_name <$> policies) with
  | Some _ =>
      forEach (tablePolicy config) policiesObject policies log
      = (log, Thrown (ReferenceError "tableKey"))
  | None =>
      ∃ policiesObject',
        forEach (tablePolicy config) policiesObject policies log
        = (log, Returned policiesObject')
        ∧ ∀ k, is_Some (policiesObject' !! k)
               ↔ k ∈ (reverse (pol_name <$> policies) ++ seen)%list
  end.
Proof.
  intros Hseen.
  pose proof (registry_found (tablePolicy config) id (λ policy, Some (pol_name policy))
                (λ _, []) (λ _, ReferenceError "tableKey")
                (λ _, ReferenceError "tableKey")) as Hloop.
  assert (Hkeys : omap (λ policy, Some (pol_name policy)) policies
                  = pol_name <$> policies).
  { induction policies as [|policy policies' IH]; [done|]. simpl. by f_equal. }
  rewrite <- Hkeys.
  specialize (Hloop
    ltac:(intros obj policy l k [= <-] Hfree Hname; unfold tablePolicy, id in *;
          rewrite get_undefined by done; unfold ret;
          eexists _, _; split; [reflexivity|];
          by apply put_insert, not_inherited_not_proto)
    ltac:(intros obj policy l k [= <-] [existing Htaken]; unfold tablePolicy, id in *;
          rewrite (get_own _ _ _ Htaken), app_nil_r; done)
    ltac:(intros obj policy l k [= <-] Hfree Hname; unfold tablePolicy, id in *;
          by rewrite get_inherited)
    ltac:(intros; discriminate)
    policies policiesObject log seen Hseen).
  destruct (firstFound seen _) as [[[] k]|]; [by rewrite app_nil_r in Hloop|done|done].
Qed.

(** A table on which two policies of the same name are declared does not
    get through its step. *)
Lemma tableStep_duplicate_policy relations st table log :
  filteredOut config table = false →
  ¬ NoDup (pol_name <$> tbl_policies table) →
  throws (tableStep config relations st table log).
Proof.
  intros Hf Hdup. unfold tableStep. rewrite Hf.
  destruct (forEach (tableColumn config table) (∅, ∅) (tbl_columns table) log)
    as [log1 [[columnsObject uniques0]|e]] eqn:Hcols;
    [|erewrite bind_thrown by done; by eexists].
  erewrite bind_returned by done. cbv beta iota zeta.
  destruct (forEach (tableUnique config table) uniques0 (tbl_uniqueConstraints table) log1)
    as [log2 [uniques|e]] eqn:Huniq;
    [|erewrite bind_thrown by done; by eexists].
  erewrite bind_returned by done. cbv beta iota zeta.
  destruct (forEach (tableIndex config table) (indexesInSchema st, ∅)
              (tbl_indexes table) log2)
    as [log3 [[registry indexesObject]|e]] eqn:Hidx;
    [|erewrite bind_thrown by done; by eexists].
  erewrite bind_returned by done. cbv beta iota zeta.
  destruct (firstFound_repeated _ Hdup) as [found Hfound].
  pose proof (policies_found (tbl_policies table) ∅ log3 []) as Hpol.
  rewrite Hfound in Hpol.
  erewrite bind_thrown; [by eexists|]. apply Hpol.
  intros k. rewrite lookup_empty. split; [by intros [??]|by intros ?%elem_of_nil].
Qed.

(** The step of a table that returns has stored the table with every
    policy declared on it. *)
Lemma tableStep_policies relations st table log log' st' :
  filteredOut config table = false →
  tableStep config relations st table log = (log', Returned st') →
  ∃ entity,
    result st' !! tableKeyOf (tbl_schema table) (tbl_name table) = Some entity
    ∧ ∀ policy, policy ∈ tbl_policies table →
        is_Some (table_policies entity !! pol_name policy).
Proof.
  intros Hf Hrun.
  apply tableStep_stored in Hrun
    as (columnsObject & uniques0 & uniques & registry & indexesObject & policiesObject
        & checks & checksObject & log1 & log2 & log3 & log4
        & _ & _ & _ & Hpolicies & _ & ->); [|done].
  eexists. simpl. rewrite lookup_insert_eq. split; [done|]. simpl.
  intros policy Hpolicy.
  pose proof (policies_found (tbl_policies table) ∅ log3 []) as Hpol.
  destruct (firstFound [] (pol_name <$> tbl_policies table)) as [found|].
  - rewrite Hpol in Hpolicies; [done|].
    intros k. rewrite lookup_empty. split; [by intros [??]|by intros ?%elem_of_nil].
  - destruct Hpol as (policiesObject' & Hrun & Hdom).
    { intros k. rewrite lookup_empty. split; [by intros [??]|by intros ?%elem_of_nil]. }
    rewrite Hrun in Hpolicies. injection Hpolicies as _ <-.
    apply Hdom. rewrite app_nil_r, elem_of_reverse. apply list_elem_of_fmap. eauto.
Qed.

(** The only error of the loop over the standalone policies is the
    duplicate-policy-name error, printed last. *)
Lemma policyStep_thrown st policy log log' e :
  policyStep config st policy log = (log', Thrown e) →
  ∃ key name,
    e = DuplicatePolicyNameError key name ∧ log' = (log ++ [Reported e])%list.
Proof.
  destruct st as [result policiesToReturn]. unfold policyStep, policyOfTable.
  destruct (pol_linkedTable policy) as [tableConfig|]; [|discriminate].
  cbv zeta.
  destruct (result !! _) as [table|];
    [destruct (Js.get (table_policies table) (pol_name policy))|];
    destruct (Js.get policiesToReturn (pol_name policy));
    try discriminate;
    unfold fail, bind, console_log, throw; intros [= <- <-]; eauto.
Qed.

Lemma policyLoop_thrown policies :
  ∀ st log log' e,
    forEach (policyStep config) st policies log = (log', Thrown e) →
    ∃ key name printed,
      e = DuplicatePolicyNameError key name ∧ log' = (printed ++ [Reported e])%list.
Proof.
  induction policies as [|policy policies IH]; intros st log log' e Hrun; [discriminate|].
  rewrite forEach_cons in Hrun. unfold bind in Hrun.
  destruct (policyStep config st policy log) as [log1 [st1|e1]] eqn:Hstep.
  - by eapply IH.
  - injection Hrun as <- <-.
    apply policyStep_thrown in Hstep as (key & name & -> & ->). eauto.
Qed.

(** A standalone policy whose name is known for its table is refused. *)
Lemma policyStep_known st policy tableConfig log :
  pol_linkedTable policy = Some tableConfig →
  policyKnown st (tableKeyOf (lt_schema tableConfig) (lt_name tableConfig), pol_name policy) →
  policyStep config st policy log
  = ((log ++ [Reported (DuplicatePolicyNameError
                          (tableKeyOf (lt_schema tableConfig) (lt_name tableConfig))
                          (pol_name policy))])%list,
     Thrown (DuplicatePolicyNameError
               (tableKeyOf (lt_schema tableConfig) (lt_name tableConfig))
               (pol_name policy))).
Proof.
  intros Hlinked Hknown. destruct st as [result policiesToReturn].
  unfold policyStep, policyOfTable. rewrite Hlinked.
  unfold policyKnown in Hknown. simpl in Hknown.
  destruct Hknown as [[existing Hknown]|[existing Hknown]].
  - destruct (result !! _) as [table|]; [|done]. simpl in Hknown.
    by rewrite (get_own _ _ _ Hknown).
  - rewrite (get_own _ _ _ Hknown).
    destruct (result !! _) as [table|]; [|done].
    by destruct (Js.get (table_policies table) (pol_name policy)).
Qed.

(** A policy step that returns has made the name of the policy known for
    its table, for which it was not known before, and has kept every name
    that was known. *)
Lemma policyStep_keys st policy log log' st' :
  policyStep config st policy log = (log', Returned st') →
  NoDup (linkedPolicyKey policy)
  ∧ (∀ key, key ∈ linkedPolicyKey policy → ¬ policyKnown st key)
  ∧ (∀ key, key ∈ linkedPolicyKey policy ∨ policyKnown st key → policyKnown st' key).
Proof.
  intros Hrun. unfold linkedPolicyKey.
  destruct (pol_linkedTable policy) as [tableConfig|] eqn:Hlinked.
  - split; [apply NoDup_singleton|]. split.
    + intros key ->%list_elem_of_singleton Hknown.
      by rewrite (policyStep_known _ _ _ _ Hlinked Hknown) in Hrun.
    + destruct st as [result policiesToReturn]. destruct st' as [result' policies'].
      apply policyStep_cases in Hrun. rewrite Hlinked in Hrun. cbv zeta in Hrun.
      destruct Hrun as [[_ Hname] Hrun].
      apply not_inherited_not_proto in Hname.
      set (tableKey := tableKeyOf _ _) in *.
      destruct (result !! tableKey) as [table|] eqn:Hk.
      * destruct Hrun as (_ & -> & ->).
        intros [k n] [->%list_elem_of_singleton|Hknown]; unfold policyKnown in *; simpl in *.
        -- left. rewrite lookup_insert_eq. simpl.
           rewrite put_lookup_eq by by left. by eexists.
        -- destruct Hknown as [Hknown|Hknown]; [left|by right].
           destruct (decide (tableKey = k)) as [<-|Hne].
           ++ rewrite Hk in Hknown. rewrite lookup_insert_eq. simpl in *.
              by apply put_is_Some.
           ++ by rewrite lookup_insert_ne.
      * destruct Hrun as (-> & ->).
        intros [k n] [->%list_elem_of_singleton|Hknown]; unfold policyKnown in *; simpl in *.
        -- right. rewrite lookup_insert_eq. by eexists.
        -- destruct Hknown as [Hknown|Hknown]; [by left|right].
           destruct (decide (pol_name policy = n)) as [<-|Hne].
           ++ rewrite lookup_insert_eq. by eexists.
           ++ by rewrite lookup_insert_ne.
  - destruct st as [result policiesToReturn]. unfold policyStep in Hrun.
    rewrite Hlinked in Hrun. inversion Hrun; subst; clear Hrun.
    repeat split; [constructor|by intros key ?%elem_of_nil|].
    by intros key [?%elem_of_nil|?].
Qed.

End Policies.

(** C1 (as amended).  Policy names are checked per table, not across the
    snapshot.  A conversion whose tables include a table (that passes the
    schema filter) on which two policies of the same name are declared
    returns no snapshot.  The step of a standalone policy linked to a table
    throws the duplicate-policy-name error when a policy of that name is
    already among the policies of that table in the result or among the
    top-level policies; a conversion in which two standalone policies of
    the same name are linked to the same table returns no snapshot; and
    neither does a conversion in which a standalone policy is linked to a
    table (the last of its key that passes the schema filter) on which a
    policy of the same name is declared: the step of the table has put the
    declared policy among the policies of the table in the result.  In
    both cases, when the loop over the tables returns, the conversion ends
    in a duplicate-policy-name error, printed last. *)
Theorem duplicate_policy_name_fails `{Host} (config : PartialConfig) :
  (∀ objects table log,
     table ∈ tables objects →
     filteredOut config table = false →
     ¬ NoDup (pol_name <$> tbl_policies table) →
     throws (drizzleObjectsToSnapshot config objects log))
  ∧ (∀ st policy tableConfig log,
       pol_linkedTable policy = Some tableConfig →
       let tableKey := tableKeyOf (lt_schema tableConfig) (lt_name tableConfig) in
       policyKnown st (tableKey, pol_name policy) →
       policyStep config st policy log
       = ((log ++ [Reported (DuplicatePolicyNameError tableKey (pol_name policy))])%list,
          Thrown (DuplicatePolicyNameError tableKey (pol_name policy))))
  ∧ (∀ objects log,
       ¬ NoDup (policies objects ≫= linkedPolicyKey) →
       throws (drizzleObjectsToSnapshot config objects log)
       ∧ ∀ log1 st,
           tablesLoop config (relations objects) (tables objects) log
           = (log1, Returned st) →
           ∃ key name printed,
             drizzleObjectsToSnapshot config objects log
             = ((printed ++ [Reported (DuplicatePolicyNameError key name)])%list,
                Thrown (DuplicatePolicyNameError key name)))
  ∧ (∀ table relations st log log' st',
       filteredOut config table = false →
       tableStep config relations st table log = (log', Returned st') →
       ∀ inline tableConfig policy,
         inline ∈ tbl_policies table →
         tableKeyOf (lt_schema tableConfig) (lt_name tableConfig)
         = tableKeyOf (tbl_schema table) (tbl_name table) →
         pol_linkedTable policy = Some tableConfig →
         pol_name policy = pol_name inline →
         policyKnown (result st', ∅)
           (tableKeyOf (lt_schema tableConfig) (lt_name tableConfig), pol_name policy))
  ∧ (∀ objects before table after inline policy tableConfig log,
       tables objects = (before ++ table :: after)%list →
       filteredOut config table = false →
       (∀ other, other ∈ after → filteredOut config other = false →
          tableKeyOf (tbl_schema other) (tbl_name other)
          ≠ tableKeyOf (tbl_schema table) (tbl_name table)) →
       inline ∈ tbl_policies table →
       policy ∈ policies objects →
       pol_linkedTable policy = Some tableConfig →
       tableKeyOf (lt_schema tableConfig) (lt_name tableConfig)
       = tableKeyOf (tbl_schema table) (tbl_name table) →
       pol_name policy = pol_name inline →
       throws (drizzleObjectsToSnapshot config objects log)
       ∧ ∀ log1 st,
           tablesLoop config (relations objects) (tables objects) log
           = (log1, Returned st) →
           ∃ key name printed,
             drizzleObjectsToSnapshot config objects log
             = ((printed ++ [Reported (DuplicatePolicyNameError key name)])%list,
                Thrown (DuplicatePolicyNameError key name))).
Proof.
  assert (Hrefused : ∀ objects log,
            (∀ log1 st log2 st2,
               tablesLoop config (relations objects) (tables objects) log
               = (log1, Returned st) →
               forEach (policyStep config) (result st, ∅) (policies objects) log1
               = (log2, Returned st2) → False) →
            throws (drizzleObjectsToSnapshot config objects log)
            ∧ ∀ log1 st,
                tablesLoop config (relations objects) (tables objects) log
                = (log1, Returned st) →
                ∃ key name printed,
                  drizzleObjectsToSnapshot config objects log
                  = ((printed ++ [Reported (DuplicatePolicyNameError key name)])%list,
                     Thrown (DuplicatePolicyNameError key name))).
  { intros objects log Hnever.
    assert (Hpolicies : ∀ log1 st,
              tablesLoop config (relations objects) (tables objects) log
              = (log1, Returned st) →
              ∃ key name printed,
                drizzleObjectsToSnapshot config objects log
                = ((printed ++ [Reported (DuplicatePolicyNameError key name)])%list,
                   Thrown (DuplicatePolicyNameError key name))).
    { intros log1 st Hloop. unfold drizzleObjectsToSnapshot.
      erewrite bind_returned by done.
      destruct (forEach (policyStep config) (result st, ∅) (policies objects) log1)
        as [log2 [st2|e]] eqn:Hpolicies; [by destruct (Hnever _ _ _ _ Hloop Hpolicies)|].
      erewrite bind_thrown by done.
      apply policyLoop_thrown in Hpolicies as (key & name & printed & -> & ->).
      by exists key, name, printed. }
    split; [|exact Hpolicies].
    destruct (tablesLoop config (relations objects) (tables objects) log)
      as [log1 [st|e]] eqn:Hloop.
    - destruct (Hpolicies _ _ eq_refl) as (key & name & printed & ->). by eexists.
    - unfold drizzleObjectsToSnapshot. erewrite bind_thrown by done. by eexists. }
  assert (Hstored : ∀ table relations st log log' st',
            filteredOut config table = false →
            tableStep config relations st table log = (log', Returned st') →
            ∀ inline tableConfig policy,
              inline ∈ tbl_policies table →
              tableKeyOf (lt_schema tableConfig) (lt_name tableConfig)
              = tableKeyOf (tbl_schema table) (tbl_name table) →
              pol_linkedTable policy = Some tableConfig →
              pol_name policy = pol_name inline →
              policyKnown (result st', ∅)
                (tableKeyOf (lt_schema tableConfig) (lt_name tableConfig),
                 pol_name policy)).
  { intros table relations st log log' st' Hf Hrun inline tableConfig policy
      Hinline Hkey Hlinked Hname.
    destruct (tableStep_policies config _ _ _ _ _ _ Hf Hrun) as (entity & Hentity & Hall).
    left. simpl. rewrite Hkey, Hentity, Hname. simpl. by apply Hall. }
  split; [|split; [|split; [|split; [exact Hstored|]]]].
  - intros objects table log Hmem Hf Hdup. unfold drizzleObjectsToSnapshot.
    apply throws_bind_l. unfold tablesLoop.
    apply list_elem_of_split in Hmem as (before & after & ->).
    apply (forEach_throws (λ _, True)); [done| |done].
    intros st l _. by apply tableStep_duplicate_policy.
  - intros st policy tableConfig log Hlinked tableKey Hknown.
    by apply policyStep_known.
  - intros objects log Hdup. apply Hrefused.
    intros log1 st log2 st2 Hloop Hpolicies. destruct Hdup.
    apply (collector_loop (policyStep config) policyKnown linkedPolicyKey) in Hpolicies.
    + apply Hpolicies.
    + intros. by eapply policyStep_keys.
  - intros objects before table after inline policy tableConfig log
      Htables Hf Hlater Hinline Hpolicy Hlinked Hkey Hname.
    apply Hrefused. intros log1 st log2 st2 Hloop Hpolicies.
    unfold tablesLoop in Hloop. rewrite Htables in Hloop.
    destruct (tablesLoop_last config _ _ _ _ _ _ _ Hloop Hlater)
      as (st1 & l1 & l2 & st3 & Hstep & Hsame).
    pose proof (Hstored _ _ _ _ _ _ Hf Hstep inline tableConfig policy
                  Hinline Hkey Hlinked Hname) as Hknown.
    apply (collector_loop (policyStep config) policyKnown linkedPolicyKey) in Hpolicies
      as (_ & Hfresh & _); [|intros; by eapply policyStep_keys].
    apply (Hfresh (tableKeyOf (lt_schema tableConfig) (lt_name tableConfig),
                   pol_name policy)).
    + apply list_elem_of_bind. exists policy. split; [|done].
      unfold linkedPolicyKey. rewrite Hlinked. by left.
    + unfold policyKnown in *. simpl in *. rewrite Hkey in *.
      by rewrite Hsame.
Qed.

(** ** Worked examples *)

(** Policies of two tables may have the same name, whether they are
    declared on the tables or linked to them: each of the three inputs is
    converted, and both tables of the snapshot have a policy [p]. *)
Lemma policy_names_shared_across_tables :
  let bothHaveP (snapshot : Snapshot) :=
    ∃ entityA entityB,
      snapshot_tables snapshot !! "public.a" = Some entityA
      ∧ is_Some (table_policies entityA !! "p")
      ∧ snapshot_tables snapshot !! "public.b" = Some entityB
      ∧ is_Some (table_policies entityB !! "p") in
  (∃ snapshot,
     run (drizzleObjectsToSnapshot (H := plainHost) noConfig
            (onlyTables [tableWithPolicies None "a" [plainPolicy "p" None];
                         tableWithPolicies None "b" [plainPolicy "p" None]] []))
     = ([], Returned snapshot) ∧ bothHaveP snapshot)
  ∧ (∃ snapshot,
       run (drizzleObjectsToSnapshot (H := plainHost) noConfig
              (onlyTables [tableWithPolicies None "a" [plainPolicy "p" None];
                           plainTable None "b"]
                 [plainPolicy "p" (Some (linkTo None "b"))]))
       = ([], Returned snapshot) ∧ bothHaveP snapshot)
  ∧ (∃ snapshot,
       run (drizzleObjectsToSnapshot (H := plainHost) noConfig
              (onlyTables [plainTable None "a"; plainTable None "b"]
                 [plainPolicy "p" (Some (linkTo None "a"));
                  plainPolicy "p" (Some (linkTo None "b"))]))
       = ([], Returned snapshot) ∧ bothHaveP snapshot).
Proof.
  cbv zeta. repeat split.
  all: eexists; split; [vm_compute; reflexivity|].
  all: eexists _, _; split; [vm_compute; reflexivity|]; split; [by eexists|].
  all: split; [vm_compute; reflexivity|by eexists].
Qed.

(** An [integer] identity column that counts down: the range ends at
    ["-1"], the sequence starts there and not at the minimum, and the
    minimum is not the lower bound of [integer]. *)
Lemma descending_identity_starts_at_max :
  ∃ resolved,
    column_identity
      (columnToSet (H := plainHost) noConfig "users" "id" None None None
         (identityColumn (Some (onlyIncrement (NumString "-1")))))
    = Some resolved
    ∧ identity_increment resolved = "-1"
    ∧ identity_maxValue resolved = "-1"
    ∧ identity_startWith resolved = "-1"
    ∧ identity_minValue resolved = "-32768"
    ∧ identity_startWith resolved ≠ identity_minValue resolved
    ∧ identity_minValue resolved ≠ "-2147483648".
Proof. eexists. split; [reflexivity|]. by repeat split. Qed.

Lemma identity_range_defaults_witness :
  col_generatedIdentity (identityColumn None) = Some (alwaysIdentity None)
  ∧ ∃ resolved,
      column_identity
        (columnToSet (H := plainHost) noConfig "users" "id" None None None
           (identityColumn None))
      = Some resolved
      ∧ identity_increment resolved = "1"
      ∧ identity_minValue resolved = "1"
      ∧ identity_startWith resolved = "1"
      ∧ identity_maxValue resolved = "2147483647".
Proof.
  split; [reflexivity|].
  destruct (identity_range_defaults (H := plainHost) noConfig "users" "id" None None None
              (identityColumn None) (alwaysIdentity None)
              eq_refl eq_refl eq_refl eq_refl) as (resolved & Hresolved & Hdefault & _).
  exists resolved. split; [exact Hresolved|]. apply Hdefault. reflexivity.
Defined.

(** Two unique columns whose constraints are both named
    [users_email_unique]. *)
Lemma duplicate_unique_constraint_fails_witness :
  filteredOut noConfig
    (tableWithColumns None "users"
       [uniqueColumn "email" "users_email_unique";
        uniqueColumn "login" "users_email_unique"]) = false
  ∧ ∃ name,
      ∀ relations st log,
        tableStep (H := plainHost) noConfig relations st
          (tableWithColumns None "users"
             [uniqueColumn "email" "users_email_unique";
              uniqueColumn "login" "users_email_unique"]) log
        = ((log ++ [Reported (DuplicateUniqueConstraintError "users" name)])%list,
           Thrown (DuplicateUniqueConstraintError "users" name)).
Proof.
  split; [reflexivity|].
  destruct (duplicate_unique_constraint_fails (H := plainHost) noConfig
              (tableWithColumns None "users"
                 [uniqueColumn "email" "users_email_unique";
                  uniqueColumn "login" "users_email_unique"]) eq_refl)
    as (_ & _ & _ & _ & Hordinary & _).
  - apply (bool_decide_unpack _). vm_compute. exact I.
  - destruct Hordinary as (first & name & rest & _ & _ & _ & Hstep).
    + by repeat constructor.
    + exists name. exact Hstep.
Defined.

(** An index without a name whose first member is an SQL expression fails
    with the missing-index-name error although a vector column without
    operator class follows; it fails as well when the vector column has an
    operator class; and a named index on a vector column with an operator
    class fails when its name is taken in the schema. *)
Lemma vector_index_other_error :
  run (drizzleObjectsToSnapshot (H := plainHost) noConfig
         (onlyTables
            [indexedTable None "items" (plainIndex None "items" [lowerName; embedding])] []))
  = ([Reported (MissingIndexNameError "items" "lower(name)")],
     Thrown (MissingIndexNameError "items" "lower(name)"))
  ∧ run (drizzleObjectsToSnapshot (H := plainHost) noConfig
           (onlyTables
              [indexedTable None "items"
                 (plainIndex None "items" [lowerName; embeddingCosine])] []))
    = ([Reported (MissingIndexNameError "items" "lower(name)")],
       Thrown (MissingIndexNameError "items" "lower(name)"))
  ∧ run (drizzleObjectsToSnapshot (H := plainHost) noConfig
           (onlyTables
              [indexedTable None "items"
                 (plainIndex (Some "embedding_idx") "items" [embeddingCosine]);
               indexedTable None "notes"
                 (plainIndex (Some "embedding_idx") "notes" [embeddingCosine])] []))
    = ([Reported (DuplicateIndexNameError "public" "notes")],
       Thrown (DuplicateIndexNameError "public" "notes")).
Proof. repeat split; vm_compute; reflexivity. Qed.

(** An index without a name whose SQL expression comes after a vector
    column without operator class fails with the missing-operator-class
    error. *)
Lemma unnamed_index_other_error :
  run (drizzleObjectsToSnapshot (H := plainHost) noConfig
         (onlyTables
            [indexedTable None "items" (plainIndex None "items" [embedding; lowerName])] []))
  = ([Reported (MissingOperatorClassError "embedding" "items")],
     Thrown (MissingOperatorClassError "embedding" "items")).
Proof. vm_compute. reflexivity. Qed.

(** An index without a name on the columns [a] and [b] of [users]. *)
Lemma unnamed_index_name_witness :
  ix_name (plainIndex None "users"
             [MemberColumn (plainIndexedColumn "a" "PgText" None);
              MemberColumn (plainIndexedColumn "b" "PgText" None)]) = None
  ∧ ∃ registry' entity,
      tableIndex (H := plainHost) noConfig (plainTable None "users") (∅, ∅)
        (plainIndex None "users"
           [MemberColumn (plainIndexedColumn "a" "PgText" None);
            MemberColumn (plainIndexedColumn "b" "PgText" None)]) []
      = ([], Returned (registry', <["users_a_b_index" := entity]> ∅))
      ∧ index_name entity = "users_a_b_index".
Proof.
  split; [reflexivity|].
  destruct (unnamed_index_name (H := plainHost) noConfig (plainTable None "users")
              (plainIndex None "users"
                 [MemberColumn (plainIndexedColumn "a" "PgText" None);
                  MemberColumn (plainIndexedColumn "b" "PgText" None)]) eq_refl)
    as [Hcolumns _].
  destruct Hcolumns as [_ Hstored].
  - intros it Hin. repeat (apply elem_of_cons in Hin as [->|Hin]; [reflexivity|]).
    by apply elem_of_nil in Hin.
  - apply Hstored.
    + intros it Hin. repeat (apply elem_of_cons in Hin as [->|Hin]; [reflexivity|]).
      by apply elem_of_nil in Hin.
    + intros (names & Hnames & _). simpl in Hnames. by rewrite lookup_empty in Hnames.
    + reflexivity.
Defined.

(** The default [[1,2,3]] of an [integer[]] column is stored with single
    quotes around the literal. *)
Lemma array_default_is_quoted :
  column_default
    (columnToSet (H := plainHost) noConfig "posts" "tags" None None None
       (columnWithDefault "tags" "integer[]" "PgArray"
          (VArray [VNumber 1; VNumber 2; VNumber 3])))
  = Some (VString "'{1,2,3}'")
  ∧ (∃ snapshot entity column,
       run (drizzleObjectsToSnapshot (H := plainHost) noConfig
              (onlyTables
                 [tableWithColumns None "posts"
                    [columnWithDefault "tags" "integer[]" "PgArray"
                       (VArray [VNumber 1; VNumber 2; VNumber 3])]] []))
       = ([], Returned snapshot)
       ∧ snapshot_tables snapshot !! "public.posts" = Some entity
       ∧ table_columns entity !! "tags" = Some column
       ∧ column_default column = Some (VString "'{1,2,3}'"))
  ∧ Some (VString "'{1,2,3}'") ≠ Some (VString "{1,2,3}").
Proof.
  split; [reflexivity|]. split; [|done].
  eexists _, _, _. split; [vm_compute; reflexivity|].
  split; [vm_compute; reflexivity|]. split; [vm_compute; reflexivity|reflexivity].
Qed.

Lemma array_default_literal_witness :
  col_default (columnWithDefault "tags" "integer[]" "PgArray"
                 (VArray [VArray [VNumber 1; VNumber 2]; VArray [VNumber 3; VNumber 4]]))
  = VArray [VArray [VNumber 1; VNumber 2]; VArray [VNumber 3; VNumber 4]]
  ∧ column_default
      (columnToSet (H := plainHost) noConfig "posts" "tags" None None None
         (columnWithDefault "tags" "integer[]" "PgArray"
            (VArray [VArray [VNumber 1; VNumber 2]; VArray [VNumber 3; VNumber 4]])))
    = Some (VString "'{{1,2},{3,4}}'").
Proof.
  split; [reflexivity|].
  destruct (array_default_literal (H := plainHost) noConfig "posts" "tags" None None None
              (columnWithDefault "tags" "integer[]" "PgArray"
                 (VArray [VArray [VNumber 1; VNumber 2]; VArray [VNumber 3; VNumber 4]]))
              [VArray [VNumber 1; VNumber 2]; VArray [VNumber 3; VNumber 4]]
              eq_refl eq_refl) as [Hdefault _].
  - vm_compute. discriminate.
  - vm_compute. discriminate.
  - exact Hdefault.
Defined.


(** A table of schema [tenant_a] under the filter [["public"]]. *)
Lemma filtered_table_takes_no_part_witness :
  cfg_schemaFilter publicOnly = Some ["public"]
  ∧ (orElse (tbl_schema (plainTable (Some "tenant_a") "accounts")) "public" ∉ ["public"])
  ∧ ∀ log,
      drizzleObjectsToSnapshot (H := plainHost) publicOnly
        (withTables (onlyTables [] [])
           ([plainTable None "users"] ++ plainTable (Some "tenant_a") "accounts" :: [])) log
      = drizzleObjectsToSnapshot (H := plainHost) publicOnly
          (withTables (onlyTables [] []) ([plainTable None "users"] ++ [])) log.
Proof.
  assert (Hnotin : orElse (tbl_schema (plainTable (Some "tenant_a") "accounts")) "public"
                   ∉ ["public"]).
  { apply (bool_decide_unpack _). vm_compute. exact I. }
  split; [reflexivity|]. split; [exact Hnotin|].
  exact (proj1 (proj2 (filtered_table_takes_no_part (H := plainHost) publicOnly
                         (onlyTables [] []) [plainTable None "users"] []
                         (plainTable (Some "tenant_a") "accounts") ["public"]
                         eq_refl Hnotin))).
Defined.

(** A table [users] without a schema, converted together with a table
    [users] of the schema [auth]. *)
Lemma table_key_and_schema_field_witness :
  filteredOut noConfig (plainTable None "users") = false
  ∧ ∃ snapshot entity,
      drizzleObjectsToSnapshot (H := plainHost) noConfig
        (onlyTables [plainTable None "users"; plainTable (Some "auth") "users"] []) []
      = ([], Returned snapshot)
      ∧ snapshot_tables snapshot !! "public.users" = Some entity
      ∧ table_name entity = "users" ∧ table_schema entity = EmptyString.
Proof.
  split; [reflexivity|].
  apply (proj2 (proj2 (proj2 (proj2
           (table_key_and_schema_field (H := plainHost) noConfig
              (plainTable None "users") eq_refl))))
           (onlyTables [plainTable None "users"; plainTable (Some "auth") "users"] [])
           [] [plainTable (Some "auth") "users"] []).
  - reflexivity.
  - repeat constructor.
  - reflexivity.
  - reflexivity.
  - reflexivity.
  - intros other Hin _. apply elem_of_cons in Hin as [->|Hin]; [discriminate|].
    by apply elem_of_nil in Hin.
Defined.

(** The same policy name twice on one table, and a policy declared on a
    table together with a standalone policy of the same name linked to
    that table. *)
Lemma duplicate_policy_name_fails_witness :
  ¬ NoDup (pol_name <$> tbl_policies
             (tableWithPolicies None "a" [plainPolicy "p" None; plainPolicy "p" None]))
  ∧ throws
      (run (drizzleObjectsToSnapshot (H := plainHost) noConfig
              (onlyTables
                 [tableWithPolicies None "a" [plainPolicy "p" None; plainPolicy "p" None]]
                 [])))
  ∧ ∃ key name printed,
      run (drizzleObjectsToSnapshot (H := plainHost) noConfig
             (onlyTables
                [tableWithPolicies None "a" [plainPolicy "p" None]]
                [plainPolicy "p" (Some (linkTo None "a"))]))
      = ((printed ++ [Reported (DuplicatePolicyNameError key name)])%list,
         Thrown (DuplicatePolicyNameError key name)).
Proof.
  assert (Hdup : ¬ NoDup (pol_name <$> tbl_policies
                            (tableWithPolicies None "a"
                               [plainPolicy "p" None; plainPolicy "p" None]))).
  { apply (bool_decide_unpack _). vm_compute. exact I. }
  split; [exact Hdup|].
  destruct (duplicate_policy_name_fails (H := plainHost) noConfig)
    as (Hdeclared & _ & _ & _ & Hlinked).
  split.
  - apply (Hdeclared
             (onlyTables
                [tableWithPolicies None "a" [plainPolicy "p" None; plainPolicy "p" None]] [])
             (tableWithPolicies None "a" [plainPolicy "p" None; plainPolicy "p" None]) []);
      [by left|reflexivity|exact Hdup].
  - destruct (Hlinked
                (onlyTables [tableWithPolicies None "a" [plainPolicy "p" None]]
                   [plainPolicy "p" (Some (linkTo None "a"))])
                [] (tableWithPolicies None "a" [plainPolicy "p" None]) []
                (plainPolicy "p" None) (plainPolicy "p" (Some (linkTo None "a")))
                (linkTo None "a") []) as [_ Herror].
    + reflexivity.
    + reflexivity.
    + by intros other ?%elem_of_nil.
    + by left.
    + by left.
    + reflexivity.
    + reflexivity.
    + reflexivity.
    + destruct (tablesLoop (H := plainHost) noConfig []
                  [tableWithPolicies None "a" [plainPolicy "p" None]] [])
        as [log1 [st|e]] eqn:Hloop; [|vm_compute in Hloop; discriminate].
      exact (Herror _ _ Hloop).
Defined.


(** An index on a vector column without operator class. *)
Lemma vector_index_needs_operator_class_witness :
  vectorWithoutOpClass embedding = true
  ∧ ∃ e,
      tableIndex (H := plainHost) noConfig (plainTable None "items") (∅, ∅)
        (plainIndex (Some "items_embedding_idx") "items" [embedding]) []
      = ([Reported e], Thrown e)
      ∧ e = MissingOperatorClassError "embedding" "items".
Proof.
  split; [reflexivity|].
  destruct (proj1 (vector_index_needs_operator_class (H := plainHost) noConfig
                     (plainTable None "items")
                     (plainIndex (Some "items_embedding_idx") "items" [embedding]))
              [] (plainIndexedColumn "embedding" "PgVector" None) [] (∅, ∅) []
              eq_refl eq_refl) as (e & Hrun & _ & _ & Hfirst).
  exists e. split; [exact Hrun|]. apply Hfirst. reflexivity.
Defined.

(** ** The examples of the specification, evaluated *)

Example same_index_name_in_one_schema :
  run (drizzleObjectsToSnapshot (H := plainHost) noConfig
         (onlyTables [indexedTable None "a" (idx1 "a"); indexedTable None "b" (idx1 "b")] []))
  = ([Reported (DuplicateIndexNameError "public" "b")],
     Thrown (DuplicateIndexNameError "public" "b")).
Proof. vm_compute. reflexivity. Qed.

Example unique_constraint_name_twice :
  run (drizzleObjectsToSnapshot (H := plainHost) noConfig
         (onlyTables
            [tableWithColumns None "users"
               [uniqueColumn "email" "users_email_unique";
                uniqueColumn "login" "users_email_unique"]] []))
  = ([Reported (DuplicateUniqueConstraintError "users" "users_email_unique")],
     Thrown (DuplicateUniqueConstraintError "users" "users_email_unique")).
Proof. vm_compute. reflexivity. Qed.

Example vector_column_without_operator_class :
  run (drizzleObjectsToSnapshot (H := plainHost) noConfig
         (onlyTables
            [indexedTable None "items"
               (plainIndex (Some "items_embedding_idx") "items" [embedding])] []))
  = ([Reported (MissingOperatorClassError "embedding" "items")],
     Thrown (MissingOperatorClassError "embedding" "items")).
Proof. vm_compute. reflexivity. Qed.

Example vector_column_with_operator_class :
  ∃ snapshot entity index,
    run (drizzleObjectsToSnapshot (H := plainHost) noConfig
           (onlyTables
              [indexedTable None "items"
                 (plainIndex (Some "items_embedding_idx") "items" [embeddingCosine])] []))
    = ([], Returned snapshot)
    ∧ snapshot_tables snapshot !! "public.items" = Some entity
    ∧ table_indexes entity !! "items_embedding_idx" = Some index
    ∧ ict_opclass <$> index_columns index = [Some "vector_cosine_ops"].
Proof.
  eexists _, _, _. split; [vm_compute; reflexivity|].
  split; [vm_compute; reflexivity|]. split; [vm_compute; reflexivity|reflexivity].
Qed.

Example policy_twice_on_one_table :
  run (drizzleObjectsToSnapshot (H := plainHost) noConfig
         (onlyTables
            [tableWithPolicies None "a" [plainPolicy "p" None; plainPolicy "p" None]] []))
  = ([], Thrown (ReferenceError "tableKey")).
Proof. vm_compute. reflexivity. Qed.

Example policy_declared_on_and_linked_to_one_table :
  run (drizzleObjectsToSnapshot (H := plainHost) noConfig
         (onlyTables [tableWithPolicies None "a" [plainPolicy "p" None]]
            [plainPolicy "p" (Some (linkTo None "a"))]))
  = ([Reported (DuplicatePolicyNameError "public.a" "p")],
     Thrown (DuplicatePolicyNameError "public.a" "p")).
Proof. vm_compute. reflexivity. Qed.

(** Names that [Object.prototype] has too: a unique constraint named
    [constructor], an index on a table of the schema [constructor], a
    policy named [toString] declared on a table or linked to one, and an
    index named [__proto__], which leaves the indexes of its table
    empty. *)
Example names_of_the_prototype :
  run (drizzleObjectsToSnapshot (H := plainHost) noConfig
         (onlyTables
            [tableWithColumns None "users" [uniqueColumn "email" "constructor"]] []))
  = ([], Thrown (TypeError "join"))
  ∧ run (drizzleObjectsToSnapshot (H := plainHost) noConfig
           (onlyTables [indexedTable (Some "constructor") "a" (idx1 "a")] []))
    = ([], Thrown (TypeError "includes"))
  ∧ run (drizzleObjectsToSnapshot (H := plainHost) noConfig
           (onlyTables [tableWithPolicies None "a" [plainPolicy "toString" None]] []))
    = ([], Thrown (ReferenceError "tableKey"))
  ∧ run (drizzleObjectsToSnapshot (H := plainHost) noConfig
           (onlyTables [plainTable None "a"]
              [plainPolicy "toString" (Some (linkTo None "a"))]))
    = ([Reported (DuplicatePolicyNameError "public.a" "toString")],
       Thrown (DuplicatePolicyNameError "public.a" "toString"))
  ∧ ∃ snapshot entity,
      run (drizzleObjectsToSnapshot (H := plainHost) noConfig
             (onlyTables
                [indexedTable None "a"
                   (plainIndex (Some "__proto__") "a"
                      [MemberColumn (plainIndexedColumn "x" "PgText" None)])] []))
      = ([], Returned snapshot)
      ∧ snapshot_tables snapshot !! "public.a" = Some entity
      ∧ table_indexes entity = ∅.
Proof.
  repeat split; try (vm_compute; reflexivity).
  eexists _, _. split; [vm_compute; reflexivity|].
  split; [vm_compute; reflexivity|]. vm_compute. reflexivity.
Qed.

Example policy_linked_twice_to_one_table :
  run (drizzleObjectsToSnapshot (H := plainHost) noConfig
         (onlyTables [plainTable None "a"]
            [plainPolicy "p" (Some (linkTo None "a"));
             plainPolicy "p" (Some (linkTo None "a"))]))
  = ([Reported (DuplicatePolicyNameError "public.a" "p")],
     Thrown (DuplicatePolicyNameError "public.a" "p")).
Proof. vm_compute. reflexivity. Qed.

Example unlinked_policy_notice :
  ∃ snapshot,
    run (drizzleObjectsToSnapshot (H := plainHost) noConfig
           (onlyTables [plainTable None "a"] [plainPolicy "orphan" None]))
    = ([PolicySkipped "orphan"], Returned snapshot)
    ∧ snapshot_policies snapshot = ∅
    ∧ (table_policies <$> snapshot_tables snapshot !! "public.a") = Some ∅.
Proof.
  eexists. split; [vm_compute; reflexivity|]. split; vm_compute; reflexivity.
Qed.

Example tenant_table_filtered_out :
  ∃ snapshot,
    run (drizzleObjectsToSnapshot (H := plainHost) publicOnly
           (onlyTables [plainTable None "users"; plainTable (Some "tenant_a") "accounts"] []))
    = ([], Returned snapshot)
    ∧ is_Some (snapshot_tables snapshot !! "public.users")
    ∧ snapshot_tables snapshot !! "tenant_a.accounts" = None.
Proof.
  eexists. split; [vm_compute; reflexivity|].
  split; [by eexists|vm_compute; reflexivity].
Qed.

(** ** What is printed *)

Lemma quiet_ret {A : Type} (a : A) : quiet (ret a).
Proof. intros log log' a' [= <- _]. done. Qed.

Lemma quiet_throw {A : Type} (e : error) : quiet (@throw A e).
Proof. intros log log' a. discriminate. Qed.

Lemma quiet_fail {A : Type} (e : error) : quiet (@fail A e).
Proof. intros log log' a. discriminate. Qed.

Lemma quiet_bind {A B : Type} (m : M A) (k : A → M B) :
  quiet m → (∀ a, quiet (k a)) → quiet (bind m k).
Proof.
  intros Hm Hk log log' b (log1 & a & Hrun & Hrest)%bind_inv_returned.
  apply Hm in Hrun as ->. by apply Hk in Hrest.
Qed.

Lemma quiet_forEach {A S : Type} (body : S → A → M S) xs :
  (∀ s x, quiet (body s x)) → ∀ s, quiet (forEach body s xs).
Proof.
  intros Hbody. induction xs as [|x xs IH]; intros s; simpl.
  - apply quiet_ret.
  - apply quiet_bind; [apply Hbody | exact IH].
Qed.

Lemma announced_ret {A : Type} (a : A) : announced (ret a).
Proof. intros log log' e. discriminate. Qed.

Lemma announced_console_log (d : diagnostic) : announced (console_log d).
Proof. intros log log' e. discriminate. Qed.

Lemma announced_throw {A : Type} (e : error) : silent e → announced (@throw A e).
Proof. intros He log log' e' [= _ <-]. by left. Qed.

Lemma announced_fail {A : Type} (e : error) : announced (@fail A e).
Proof. intros log log' e' [= <- <-]. right. by eexists. Qed.

Lemma announced_bind {A B : Type} (m : M A) (k : A → M B) :
  announced m → (∀ a, announced (k a)) → announced (bind m k).
Proof.
  intros Hm Hk log log' e. unfold bind.
  destruct (m log) as [log1 [a|e1]] eqn:Hrun.
  - apply Hk.
  - intros [= <- <-]. by eapply Hm.
Qed.

Lemma announced_forEach {A S : Type} (body : S → A → M S) xs :
  (∀ s x, announced (body s x)) → ∀ s, announced (forEach body s xs).
Proof.
  intros Hbody. induction xs as [|x xs IH]; intros s; simpl.
  - apply announced_ret.
  - apply announced_bind; [apply Hbody | exact IH].
Qed.

(** Splits a computation along its binds, loops and case distinctions. *)
Ltac quietness :=
  repeat first
    [ progress intros
    | progress cbv zeta
    | apply quiet_ret | apply quiet_throw | apply quiet_fail
    | apply quiet_bind
    | apply quiet_forEach
    | match goal with
      | |- quiet (match ?x with _ => _ end) => destruct x
      | |- quiet (if ?x then _ else _) => destruct x
      end ].

Ltac announcement :=
  repeat first
    [ progress intros
    | progress cbv zeta
    | apply announced_ret | apply announced_fail | apply announced_console_log
    | apply announced_throw; exact I
    | apply announced_bind
    | apply announced_forEach
    | match goal with
      | |- announced (match ?x with _ => _ end) => destruct x
      | |- announced (if ?x then _ else _) => destruct x
      end ].

Section Printing.

Context `{Host}.
Variable config : PartialConfig.

Lemma quiet_tableStep relations st table :
  quiet (tableStep config relations st table).
Proof.
  unfold tableStep, tableColumn, columnUnique, tableUnique, tableIndex, indexMember,
    registerIndexName, tablePolicy, tableCheck.
  quietness.
Qed.

Lemma quiet_viewStep resultViews view : quiet (viewStep config resultViews view).
Proof. unfold viewStep, viewColumn, columnUnique. quietness. Qed.

Lemma announced_tableStep relations st table :
  announced (tableStep config relations st table).
Proof.
  unfold tableStep, tableColumn, columnUnique, tableUnique, tableIndex, indexMember,
    registerIndexName, tablePolicy, tableCheck.
  announcement.
Qed.

Lemma announced_policyStep st policy : announced (policyStep config st policy).
Proof. unfold policyStep. destruct st. announcement. Qed.

Lemma announced_viewStep resultViews view :
  announced (viewStep config resultViews view).
Proof. unfold viewStep, viewColumn, columnUnique. announcement. Qed.

(** The loop over the standalone policies prints one notice for each
    policy that is not linked, and nothing else, when it returns. *)
Lemma policyLoop_log policies :
  ∀ st log log' st',
    forEach (policyStep config) st policies log = (log', Returned st') →
    log' = (log ++ unlinkedNotices policies)%list.
Proof.
  induction policies as [|policy policies IH]; intros st log log' st' Hrun.
  - inversion Hrun; subst. by rewrite app_nil_r.
  - rewrite forEach_cons in Hrun.
    apply bind_inv_returned in Hrun as (log1 & st1 & Hstep & Hrest).
    apply IH in Hrest as ->. unfold unlinkedNotices. simpl.
    destruct st as [result policiesToReturn].
    destruct (pol_linkedTable policy) as [tableConfig|] eqn:Hlinked; simpl.
    + assert (Hquiet : quiet (policyStep config (result, policiesToReturn) policy)).
      { unfold policyStep. rewrite Hlinked. quietness. }
      by apply Hquiet in Hstep as ->.
    + unfold policyStep in Hstep. rewrite Hlinked in Hstep.
      injection Hstep as <- _. by rewrite <- app_assoc.
Qed.

(** What a conversion that returned went through, and what it returned. *)
Lemma snapshot_returned_parts objects log log' snapshot :
  drizzleObjectsToSnapshot config objects log = (log', Returned snapshot) →
  ∃ st log1 log2 result' policiesToReturn resultViews,
    tablesLoop config (relations objects) (tables objects) log = (log1, Returned st)
    ∧ forEach (policyStep config) (result st, ∅) (policies objects) log1
      = (log2, Returned (result', policiesToReturn))
    ∧ forEach (viewStep config) ∅ (views objects ++ matViews objects)%list log2
      = (log', Returned resultViews)
    ∧ snapshot_version snapshot = "7"
    ∧ snapshot_dialect snapshot = "postgresql"
    ∧ snapshot_tables snapshot = result'
    ∧ snapshot_enums snapshot = foldl enumStep ∅ (enums objects)
    ∧ snapshot_schemas snapshot = schemasObject config (schemas objects)
    ∧ snapshot_sequences snapshot = foldl sequenceStep ∅ (sequences objects)
    ∧ snapshot_roles snapshot = foldl roleStep ∅ (roles objects)
    ∧ snapshot_policies snapshot = policiesToReturn
    ∧ snapshot_views snapshot = resultViews
    ∧ snapshot_meta snapshot = (∅, ∅, ∅)
    ∧ snapshot_projectId snapshot = orIfEmpty (cfg_projectId config) "drizzle-lab".
Proof.
  unfold drizzleObjectsToSnapshot. intros Hrun.
  apply bind_inv_returned in Hrun as (log1 & st & Htables & Hrun).
  apply bind_inv_returned in Hrun as (log2 & [result' policies'] & Hpolicies & Hrun).
  apply bind_inv_returned in Hrun as (log3 & resultViews & Hviews & Hrun).
  inversion Hrun; subst; clear Hrun. simpl.
  exists st, log1, log2, result', policies', resultViews. by repeat split.
Qed.

End Printing.

(** X1.  When the conversion returns a snapshot, what it has printed is
    exactly one notice for each standalone policy that is not linked to a
    table, in the order of the policies: no table, index, linked policy or
    view prints anything unless it fails. *)
Theorem returned_log_is_the_unlinked_notices `{Host} (config : PartialConfig)
    (objects : DrizzleObjects) (log log' : list diagnostic) (snapshot : Snapshot) :
  drizzleObjectsToSnapshot config objects log = (log', Returned snapshot) →
  log' = (log ++ unlinkedNotices (policies objects))%list.
Proof.
  intros (st & log1 & log2 & result' & ptr & rv & Htables & Hpolicies & Hviews & _)
    %snapshot_returned_parts.
  apply (quiet_forEach _ _ (quiet_tableStep config (relations objects))) in Htables as ->.
  apply (quiet_forEach _ _ (quiet_viewStep config)) in Hviews as ->.
  by apply policyLoop_log in Hpolicies.
Qed.

(** X2.  When the conversion throws, the error is either one raised by the
    runtime (the reference error of the duplicate-policy message, the type
    error of a view without query) or one of the serializer's own errors,
    and then the message for that error is the last thing printed. *)
Theorem thrown_error_is_announced `{Host} (config : PartialConfig)
    (objects : DrizzleObjects) (log log' : list diagnostic) (e : error) :
  drizzleObjectsToSnapshot config objects log = (log', Thrown e) →
  silent e ∨ ∃ printed, log' = (printed ++ [Reported e])%list.
Proof.
  revert log log' e. change (announced (drizzleObjectsToSnapshot config objects)).
  unfold drizzleObjectsToSnapshot, tablesLoop.
  apply announced_bind; [apply announced_forEach, announced_tableStep|intros st].
  apply announced_bind; [apply announced_forEach, announced_policyStep|intros [r p]].
  apply announced_bind; [apply announced_forEach, announced_viewStep|intros rv].
  apply announced_ret.
Qed.

(** ** Sequences, enums, roles and schemas *)

Section Folds.

(** A sequence step never touches a key that is taken. *)
Lemma sequenceStep_keeps sequencesToReturn sequence key entity :
  sequencesToReturn !! key = Some entity →
  sequenceStep sequencesToReturn sequence !! key = Some entity.
Proof.
  intros Hkey. unfold sequenceStep.
  destruct (sequencesToReturn !! (_ ++ "." ++ _)) eqn:Hown; [done|].
  rewrite lookup_insert_ne; [done|]. intros Heq. by rewrite Heq, Hkey in Hown.
Qed.

Lemma sequenceStep_other sequencesToReturn sequence key :
  sequenceKeyOf sequence ≠ key →
  sequenceStep sequencesToReturn sequence !! key = sequencesToReturn !! key.
Proof.
  intros Hne. unfold sequenceStep.
  destruct (sequencesToReturn !! (_ ++ "." ++ _)); [done|].
  by rewrite lookup_insert_ne.
Qed.

Lemma sequences_keep sequences :
  ∀ sequencesToReturn key entity,
    sequencesToReturn !! key = Some entity →
    foldl sequenceStep sequencesToReturn sequences !! key = Some entity.
Proof.
  induction sequences as [|sequence sequences IH]; intros m key entity Hkey; [done|].
  simpl. by apply IH, sequenceStep_keeps.
Qed.

Lemma sequences_others sequences :
  ∀ sequencesToReturn key,
    (∀ other, other ∈ sequences → sequenceKeyOf other ≠ key) →
    foldl sequenceStep sequencesToReturn sequences !! key = sequencesToReturn !! key.
Proof.
  induction sequences as [|sequence sequences IH]; intros m key Hothers; [done|].
  simpl. rewrite IH.
  - apply sequenceStep_other, Hothers. by left.
  - intros other Hin. apply Hothers. by right.
Qed.

Lemma enums_others enums :
  ∀ map key,
    (∀ other, other ∈ enums → enumKeyOf other ≠ key) →
    foldl enumStep map enums !! key = map !! key.
Proof.
  induction enums as [|obj enums IH]; intros m key Hothers; [done|].
  simpl. rewrite IH.
  - unfold enumStep. apply lookup_insert_ne, Hothers. by left.
  - intros other Hin. apply Hothers. by right.
Qed.

(** The roles of the result: a name is present exactly when a role of
    that name is not marked as existing, and the entry is built from such
    a role. *)
Lemma roles_lookup roles :
  ∀ rolesToReturn name entity,
    foldl roleStep rolesToReturn roles !! name = Some entity →
    rolesToReturn !! name = Some entity
    ∨ ∃ role, role ∈ roles ∧ role_existing role = false ∧ role_name role = name
              ∧ entity = {| roleOut_name := name;
                            roleOut_createDb := orElse (role_createDb role) false;
                            roleOut_createRole := orElse (role_createRole role) false;
                            roleOut_inherit := orElse (role_inherit role) true |}.
Proof.
  induction roles as [|role roles IH]; intros m name entity Hlookup; [by left|].
  simpl in Hlookup. apply IH in Hlookup as [Hlookup|(role' & Hin & ?)].
  - unfold roleStep in Hlookup. destruct (role_existing role) eqn:Hex; [by left|].
    apply put_lookup in Hlookup as [[-> ->]|[_ Hlookup]]; [|by left].
    right. exists role. repeat split; [by left|done].
  - right. exists role'. split; [by right|done].
Qed.

Lemma roles_present roles :
  ∀ rolesToReturn name,
    (is_Some (rolesToReturn !! name)
     ∨ name ≠ "__proto__"
       ∧ ∃ role, role ∈ roles ∧ role_existing role = false ∧ role_name role = name) →
    is_Some (foldl roleStep rolesToReturn roles !! name).
Proof.
  induction roles as [|role roles IH]; intros m name Hpresent.
  - destruct Hpresent as [?|(_ & role & Hin & _)]; [done|by apply elem_of_nil in Hin].
  - simpl. apply IH. destruct Hpresent as [Hm|(Hproto & role' & Hin & Hex & Hname)].
    + left. unfold roleStep. destruct (role_existing role); [done|].
      by apply put_is_Some.
    + apply elem_of_cons in Hin as [->|Hin]; [|right; eauto].
      left. unfold roleStep. rewrite Hex, Hname.
      rewrite put_lookup_eq; [by eexists|by left].
Qed.

(** No role is stored under [__proto__]. *)
Lemma roles_no_proto roles :
  ∀ rolesToReturn,
    rolesToReturn !! "__proto__" = None →
    foldl roleStep rolesToReturn roles !! "__proto__" = None.
Proof.
  induction roles as [|role roles IH]; intros m Hnone; [done|].
  simpl. apply IH. unfold roleStep. destruct (role_existing role); [done|].
  by apply put_no_proto.
Qed.

End Folds.

(** The object built from the schemas: every entry maps a schema name to
    itself. *)
Lemma schemas_fold (schemas : list PgSchema) :
  ∀ (obj : gmap string string) key value,
    (∀ k v, obj !! k = Some v → v = k) →
    foldl (λ obj it, <[schemaName it := schemaName it]> obj) obj schemas !! key
      = Some value
    ↔ value = key ∧ (key ∈ schemaName <$> schemas ∨ is_Some (obj !! key)).
Proof.
  induction schemas as [|it schemas IH]; intros obj key value Hobj; simpl.
  - split.
    + intros Hkey. split; [by apply Hobj|]. right. by eexists.
    + intros [-> [Hin|[v Hv]]]; [by apply elem_of_nil in Hin|].
      by rewrite Hv, (Hobj _ _ Hv).
  - rewrite IH.
    2:{ intros k v. destruct (decide (schemaName it = k)) as [<-|Hne].
        - rewrite lookup_insert_eq. by intros [= <-].
        - rewrite lookup_insert_ne by done. apply Hobj. }
    split; intros [-> Hcases]; (split; [done|]).
    + destruct Hcases as [Hin|Hsome]; [left; by right|].
      destruct (decide (schemaName it = key)) as [<-|Hne]; [left; by left|].
      right. by rewrite lookup_insert_ne in Hsome.
    + destruct (decide (schemaName it = key)) as [<-|Hne].
      * right. rewrite lookup_insert_eq. by eexists.
      * rewrite lookup_insert_ne by done.
        destruct Hcases as [[?|Hin]%elem_of_cons|Hsome]; [done|by left|by right].
Qed.

(** X3.  Of several sequences with the same key (schema, or ["public"],
    and name) the first one wins: in a returned snapshot the entry under
    the key is the one that this sequence produces on its own, whatever
    the later sequences of that key declare; no error is raised. *)
Theorem first_sequence_wins `{Host} (config : PartialConfig) (objects : DrizzleObjects)
    (before after : list PgSequence) (sequence : PgSequence)
    (log log' : list diagnostic) (snapshot : Snapshot) :
  drizzleObjectsToSnapshot config objects log = (log', Returned snapshot) →
  sequences objects = (before ++ sequence :: after)%list →
  (∀ other, other ∈ before → sequenceKeyOf other ≠ sequenceKeyOf sequence) →
  is_Some (snapshot_sequences snapshot !! sequenceKeyOf sequence)
  ∧ snapshot_sequences snapshot !! sequenceKeyOf sequence
    = sequenceStep ∅ sequence !! sequenceKeyOf sequence.
Proof.
  intros (? & ? & ? & ? & ? & ? & _ & _ & _ & _ & _ & _ & _ & _ & Hseq & _)
    %snapshot_returned_parts Hsplit Hfirst.
  rewrite Hseq, Hsplit, foldl_app. simpl.
  assert (Hnone : foldl sequenceStep ∅ before !! sequenceKeyOf sequence = None).
  { by rewrite sequences_others. }
  assert (Hown : ∃ entity,
            sequenceStep (foldl sequenceStep ∅ before) sequence !! sequenceKeyOf sequence
              = Some entity
            ∧ sequenceStep ∅ sequence !! sequenceKeyOf sequence = Some entity).
  { unfold sequenceStep at 1 3. unfold sequenceKeyOf in *.
    rewrite Hnone, lookup_empty. rewrite !lookup_insert_eq. eauto. }
  destruct Hown as (entity & Hstep & Halone).
  rewrite Halone, (sequences_keep _ _ _ _ Hstep). split; [by eexists|done].
Qed.

(** X4.  Of several enums with the same key (schema, or ["public"] when it
    is absent or empty, and name) the last one wins: in a returned snapshot
    the entry under the key has the values of the last enum of that key. *)
Theorem last_enum_wins `{Host} (config : PartialConfig) (objects : DrizzleObjects)
    (before after : list PgEnum) (obj : PgEnum)
    (log log' : list diagnostic) (snapshot : Snapshot) :
  drizzleObjectsToSnapshot config objects log = (log', Returned snapshot) →
  enums objects = (before ++ obj :: after)%list →
  (∀ other, other ∈ after → enumKeyOf other ≠ enumKeyOf obj) →
  snapshot_enums snapshot !! enumKeyOf obj
  = Some {| enum_name := en_enumName obj;
            enum_schema := orIfEmpty (en_schema obj) "public";
            enum_values := en_enumValues obj |}.
Proof.
  intros (? & ? & ? & ? & ? & ? & _ & _ & _ & _ & _ & _ & Henum & _)
    %snapshot_returned_parts Hsplit Hlast.
  rewrite Henum, Hsplit, foldl_app. simpl.
  rewrite enums_others by done. unfold enumStep, enumKeyOf.
  by rewrite lookup_insert_eq.
Qed.

(** X5.  The roles of a returned snapshot are the roles that are not
    marked as existing: a name has an entry exactly when it is not
    [__proto__] (writing under that name stores no property) and some role
    of that name is not existing, and every entry is built from such a
    role, with [createDb] and [createRole] defaulting to false and
    [inherit] to true. *)
Theorem roles_of_snapshot `{Host} (config : PartialConfig) (objects : DrizzleObjects)
    (log log' : list diagnostic) (snapshot : Snapshot) :
  drizzleObjectsToSnapshot config objects log = (log', Returned snapshot) →
  (∀ name,
     is_Some (snapshot_roles snapshot !! name)
     ↔ name ≠ "__proto__"
       ∧ ∃ role, role ∈ roles objects ∧ role_existing role = false ∧ role_name role = name)
  ∧ (∀ name entity,
       snapshot_roles snapshot !! name = Some entity →
       ∃ role,
         role ∈ roles objects ∧ role_existing role = false ∧ role_name role = name
         ∧ entity = {| roleOut_name := name;
                       roleOut_createDb := orElse (role_createDb role) false;
                       roleOut_createRole := orElse (role_createRole role) false;
                       roleOut_inherit := orElse (role_inherit role) true |}).
Proof.
  intros (? & ? & ? & ? & ? & ? & _ & _ & _ & _ & _ & _ & _ & _ & _ & Hroles & _)
    %snapshot_returned_parts.
  rewrite Hroles.
  assert (Hentry : ∀ name entity,
            foldl roleStep ∅ (roles objects) !! name = Some entity →
            ∃ role,
              role ∈ roles objects ∧ role_existing role = false ∧ role_name role = name
              ∧ entity = {| roleOut_name := name;
                            roleOut_createDb := orElse (role_createDb role) false;
                            roleOut_createRole := orElse (role_createRole role) false;
                            roleOut_inherit := orElse (role_inherit role) true |}).
  { intros name entity [Hempty|Hrole]%roles_lookup; [|done].
    by rewrite lookup_empty in Hempty. }
  split; [|exact Hentry].
  intros name. split.
  - intros [entity Hlookup]. split.
    + intros ->. by rewrite roles_no_proto in Hlookup.
    + apply Hentry in Hlookup as (role & Hin & Hex & Hname & _). eauto.
  - intros Hrole. apply roles_present. by right.
Qed.

(** X6.  The schemas of a returned snapshot map each kept schema name to
    itself: a name is kept exactly when it is the name of one of the input
    schemas, is not ["public"], and is in the schema filter when one is
    configured. *)
Theorem schemas_of_snapshot `{Host} (config : PartialConfig) (objects : DrizzleObjects)
    (log log' : list diagnostic) (snapshot : Snapshot) :
  drizzleObjectsToSnapshot config objects log = (log', Returned snapshot) →
  ∀ key value,
    snapshot_schemas snapshot !! key = Some value
    ↔ value = key
      ∧ key ≠ "public"
      ∧ key ∈ schemaName <$> schemas objects
      ∧ match cfg_schemaFilter config with
        | Some filter => key ∈ filter
        | None => True
        end.
Proof.
  intros (? & ? & ? & ? & ? & ? & _ & _ & _ & _ & _ & _ & _ & Hschemas & _)
    %snapshot_returned_parts key value.
  rewrite Hschemas. unfold schemasObject. rewrite schemas_fold.
  2:{ intros k v. by rewrite lookup_empty. }
  assert (Hkept : key ∈ schemaName <$> List.filter (keptSchema config) (schemas objects)
                  ↔ key ≠ "public"
                    ∧ key ∈ schemaName <$> schemas objects
                    ∧ match cfg_schemaFilter config with
                      | Some filter => key ∈ filter
                      | None => True
                      end).
  { rewrite !list_elem_of_fmap. split.
    - intros (it & -> & Hin). apply list_elem_of_In, filter_In in Hin as [Hin Hkept].
      apply list_elem_of_In in Hin. unfold keptSchema, Js.includes in Hkept.
      destruct (cfg_schemaFilter config) as [filter|].
      + apply andb_true_iff in Hkept as [Hfilter Hpublic].
        apply bool_decide_eq_true in Hfilter. apply negb_true_iff in Hpublic.
        apply bool_decide_eq_false in Hpublic. eauto.
      + apply negb_true_iff, bool_decide_eq_false in Hkept. eauto.
    - intros (Hpublic & (it & -> & Hin) & Hfilter). exists it. split; [done|].
      apply list_elem_of_In, filter_In. split; [by apply list_elem_of_In|].
      unfold keptSchema, Js.includes.
      destruct (cfg_schemaFilter config) as [filter|].
      + by rewrite bool_decide_eq_true_2, bool_decide_eq_false_2.
      + by rewrite bool_decide_eq_false_2. }
  rewrite Hkept, lookup_empty. split.
  - intros [-> [?|[? ?]]]; done.
  - intros [-> ?]. split; [done|by left].
Qed.

(** X7.  A standalone sequence that is recorded gets these defaults, which
    do not depend on any column type: with [minValue], [maxValue] and
    [startWith] unspecified, an unspecified increment gives increment
    ["1"], minValue ["1"], maxValue ["9223372036854775807"] and startWith
    ["1"]; the increment ["-1"] (string or number) gives minValue
    ["-9223372036854775808"], maxValue ["-1"] and startWith ["-1"]; the
    cache defaults to ["1"] and the cycle flag to false. *)
Theorem sequence_range_defaults (sequencesToReturn : gmap string Sequence)
    (sequence : PgSequence) :
  sequencesToReturn !! sequenceKeyOf sequence = None →
  stringFromIdentityProperty (sq_seqOptions sequence ≫= opt_minValue) = None →
  stringFromIdentityProperty (sq_seqOptions sequence ≫= opt_maxValue) = None →
  stringFromIdentityProperty (sq_seqOptions sequence ≫= opt_startWith) = None →
  ∃ entity,
    sequenceStep sequencesToReturn sequence !! sequenceKeyOf sequence = Some entity
    ∧ sequence_name entity = sq_seqName sequence
    ∧ sequence_schema entity = orElse (sq_schema sequence) "public"
    ∧ (sq_seqOptions sequence ≫= opt_increment = None →
       sequence_increment entity = "1"
       ∧ sequence_minValue entity = "1"
       ∧ sequence_maxValue entity = "9223372036854775807"
       ∧ sequence_startWith entity = "1")
    ∧ (sq_seqOptions sequence ≫= opt_increment = Some (NumString "-1")
       ∨ sq_seqOptions sequence ≫= opt_increment = Some (NumNumber (-1)) →
       sequence_increment entity = "-1"
       ∧ sequence_minValue entity = "-9223372036854775808"
       ∧ sequence_maxValue entity = "-1"
       ∧ sequence_startWith entity = "-1")
    ∧ (sq_seqOptions sequence ≫= opt_cache = None → sequence_cache entity = "1")
    ∧ (sq_seqOptions sequence ≫= opt_cycle = None → sequence_cycle entity = false).
Proof.
  intros Hfree Hmin Hmax Hstart. unfold sequenceStep, sequenceKeyOf in *.
  rewrite Hfree, lookup_insert_eq. eexists. split; [done|]. simpl.
  rewrite Hmin, Hmax, Hstart. repeat split.
  all: intros; repeat match goal with
         | Hor : _ ∨ _ |- _ => destruct Hor
         | Heq : _ ≫= _ = _ |- _ => rewrite Heq; clear Heq
         end; reflexivity.
Qed.

(** X8.  A returned snapshot has version ["7"], dialect ["postgresql"],
    three empty maps as [_meta], and as project id the configured one, or
    ["drizzle-lab"] when none is configured or the configured one is the
    empty string. *)
Theorem header_of_snapshot `{Host} (config : PartialConfig) (objects : DrizzleObjects)
    (log log' : list diagnostic) (snapshot : Snapshot) :
  drizzleObjectsToSnapshot config objects log = (log', Returned snapshot) →
  snapshot_version snapshot = "7"
  ∧ snapshot_dialect snapshot = "postgresql"
  ∧ snapshot_meta snapshot = (∅, ∅, ∅)
  ∧ snapshot_projectId snapshot
    = match cfg_projectId config with
      | Some projectId =>
          if decide (projectId = EmptyString) then "drizzle-lab" else projectId
      | None => "drizzle-lab"
      end.
Proof.
  intros (? & ? & ? & ? & ? & ? & _ & _ & _ & Hv & Hd & _ & _ & _ & _ & _ & _ & _
          & Hm & Hp)%snapshot_returned_parts.
  by rewrite Hv, Hd, Hm, Hp.
Qed.

(** ** Strings *)

Lemma before_none c s : occurs c s = false → Js.before c s = s.
Proof.
  induction s as [|a s IH]; [done|]. simpl.
  destruct (Ascii.eqb a c); [done|]. simpl. intros Hs. by rewrite IH.
Qed.

Lemma before_app c a b : occurs c a = false → Js.before c (a ++ String c b) = a.
Proof.
  induction a as [|x a IH]; simpl.
  - by rewrite Ascii.eqb_refl.
  - destruct (Ascii.eqb x c); [done|]. simpl. intros Ha. by rewrite IH.
Qed.

Lemma replaceChar_app c d a b :
  occurs c a = false → Js.replaceChar c d (a ++ String c b) = a ++ String d b.
Proof.
  induction a as [|x a IH]; simpl.
  - by rewrite Ascii.eqb_refl.
  - destruct (Ascii.eqb x c); [done|]. simpl. intros Ha. by rewrite IH.
Qed.

Lemma append_associative (a b c : string) : (a ++ b) ++ c = a ++ b ++ c.
Proof.
  induction a as [|x a IH]; [done|].
  change (String x ((a ++ b) ++ c) = String x (a ++ b ++ c)). by rewrite IH.
Qed.

Lemma slice0_app a b n :
  Js.slice0 (String.length a + n) (a ++ b) = a ++ Js.slice0 n b.
Proof.
  unfold Js.slice0. induction a as [|x a IH]; [done|]. simpl. by rewrite IH.
Qed.

(** Insertion sort gives an ascending list with the same elements. *)
Lemma insertSorted_perm x xs : Js.insertSorted x xs ≡ₚ x :: xs.
Proof.
  induction xs as [|y ys IH]; [done|]. simpl.
  destruct (String.leb x y); [done|]. rewrite IH. apply Permutation_swap.
Qed.

Lemma sort_perm xs : Js.sort xs ≡ₚ xs.
Proof.
  induction xs as [|x xs IH]; [done|]. simpl.
  unfold Js.sort in *. by rewrite insertSorted_perm, IH.
Qed.

Lemma insertSorted_sorted x xs :
  Sorted (λ a b, String.leb a b = true) xs →
  Sorted (λ a b, String.leb a b = true) (Js.insertSorted x xs).
Proof.
  induction xs as [|y ys IH]; intros Hsorted; simpl.
  - by repeat constructor.
  - destruct (String.leb x y) eqn:Hxy.
    + constructor; [done|]. by constructor.
    + apply Sorted_inv in Hsorted as [Hys Hhd].
      constructor; [by apply IH|].
      assert (Hyx : String.leb y x = true).
      { destruct (String.leb_total x y) as [Hle|Hle]; [by rewrite Hle in Hxy|done]. }
      destruct ys as [|z zs]; simpl; [by constructor|].
      destruct (String.leb x z); constructor; [done|].
      by apply HdRel_inv in Hhd.
Qed.

Lemma sort_sorted xs : Sorted (λ a b, String.leb a b = true) (Js.sort xs).
Proof.
  induction xs as [|x xs IH]; [constructor|]. by apply insertSorted_sorted.
Qed.

(** X9.  The roles of a policy entity are the target roles of the policy
    in ascending order, with repetitions kept: an absent target (or an
    empty role name) gives [["public"]], a single role gives that role, a
    list gives the names of its elements.  An absent [as] gives
    ["PERMISSIVE"] and an absent [for] gives ["ALL"]. *)
Theorem policy_roles_are_sorted `{Host} (config : PartialConfig) (policy : PgPolicy) :
  Sorted (λ a b, String.leb a b = true) (policy_to (mappedPolicy config policy))
  ∧ policy_to (mappedPolicy config policy) ≡ₚ mappedTo policy
  ∧ (pol_to policy = ToAbsent ∨ pol_to policy = ToOne (RoleName EmptyString) →
     policy_to (mappedPolicy config policy) = ["public"])
  ∧ (∀ rs, pol_to policy = ToMany rs → mappedTo policy = roleRefName <$> rs)
  ∧ (pol_as policy = None → policy_as (mappedPolicy config policy) = "PERMISSIVE")
  ∧ (pol_for policy = None → policy_for (mappedPolicy config policy) = "ALL")
  ∧ policy_name (mappedPolicy config policy) = pol_name policy.
Proof.
  simpl. split; [apply sort_sorted|]. split; [apply sort_perm|].
  repeat split.
  - unfold mappedTo. by intros [-> | ->].
  - unfold mappedTo. by intros rs ->.
  - by intros ->.
  - by intros ->.
Qed.

(** X10.  A [Date] default whose ISO text is a date, the letter [T] and a
    time is stored, on a column that is not of a JSON type, as the date
    alone for the type [date], as the date, a space and the first twelve
    characters of the time for the type [timestamp] (that is, without the
    zone), and as the whole ISO text for any other type; always in single
    quotes. *)
Theorem date_default_formats `{Host} (config : PartialConfig) (column : PgColumn)
    (date time : string) :
  let sqlTypeLowered := Js.toLowerCase (col_sqlType column) in
  col_default column = VDate (date ++ "T" ++ time) →
  occurs "T" date = false →
  String.length date = 10%nat →
  sqlTypeLowered ≠ "json" → sqlTypeLowered ≠ "jsonb" →
  (sqlTypeLowered = "date" →
   defaultOf config column = Some (VString (squote ++ date ++ squote)))
  ∧ (sqlTypeLowered = "timestamp" →
     defaultOf config column
     = Some (VString (squote ++ date ++ " " ++ Js.slice0 12 time ++ squote)))
  ∧ (sqlTypeLowered ≠ "date" → sqlTypeLowered ≠ "timestamp" →
     defaultOf config column
     = Some (VString (squote ++ date ++ "T" ++ time ++ squote))).
Proof.
  intros sqlTypeLowered Hdefault Hdate Hlength Hjson Hjsonb.
  unfold defaultOf. fold sqlTypeLowered. rewrite Hdefault.
  rewrite !bool_decide_eq_false_2 by done. simpl.
  change (String "T" time) with ("T" ++ time).
  repeat split.
  - intros ->. simpl. change ("T" ++ time) with (String "T" time).
    by rewrite before_app.
  - intros ->. simpl. change ("T" ++ time) with (String "T" time).
    rewrite replaceChar_app by done.
    replace 23%nat with (String.length date + 13)%nat by by rewrite Hlength.
    rewrite slice0_app. unfold Js.slice0. simpl.
    rewrite append_associative. reflexivity.
  - intros Hd Ht. rewrite !decide_False by done.
    by rewrite !append_associative.
Qed.

(** X11.  The dimensions of an array type play no part in the literal of
    an array default: only the part of the type before its first bracket
    is looked at, so a type with any suffix of brackets gives the literal
    of its element type. *)
Theorem array_literal_ignores_dimensions `{Host} (items : list value)
    (elementType suffix : string) :
  occurs "[" elementType = false →
  buildArrayString items (elementType ++ "[" ++ suffix)
  = buildArrayString items elementType.
Proof.
  intros Hbase. unfold buildArrayString.
  change ("[" ++ suffix) with (String "[" suffix).
  by rewrite before_app, before_none.
Qed.

(** ** Numeric increments *)

Lemma pretty_N_char_digit (d : N) :
  (d < 10)%N →
  Js.isDigit (pretty_N_char d) = true
  ∧ (Z.of_nat (Ascii.nat_of_ascii (pretty_N_char d)) - 48 = Z.of_N d)%Z.
Proof.
  intros Hd.
  assert (d = 0 ∨ d = 1 ∨ d = 2 ∨ d = 3 ∨ d = 4 ∨ d = 5 ∨ d = 6 ∨ d = 7
          ∨ d = 8 ∨ d = 9)%N as Hcases by lia.
  repeat (destruct Hcases as [->|Hcases]; [by vm_compute|]). subst. by vm_compute.
Qed.

Lemma digit_is_plain (a : ascii) :
  Js.isDigit a = true →
  Js.isSpace a = false ∧ a ≠ "-"%char ∧ a ≠ "I"%char ∧ a ≠ "."%char.
Proof.
  destruct a as [[] [] [] [] [] [] [] []]; vm_compute; intros Hdigit;
    try discriminate; by repeat split.
Qed.

(** Reading the decimal notation of a positive number gives the number
    back: the digits that [pretty] writes are the digits that [digits]
    reads. *)
Lemma digits_pretty_N_go (x : N) :
  (0 < x)%N →
  ∀ acc s,
    ∃ k : nat,
      (0 < k)%nat
      ∧ Js.digits acc (pretty_N_go x s)
        = let '(n, v, r) := Js.digits (acc * 10 ^ Z.of_nat k + Z.of_N x)%Z s in
          ((k + n)%nat, v, r).
Proof.
  induction (N.lt_wf_0 x) as [x _ IH]. intros Hx acc s.
  rewrite pretty_N_go_step by done.
  destruct (pretty_N_char_digit (x `mod` 10)%N) as [Hdigit Hvalue].
  { by apply N.mod_lt. }
  destruct (decide (x < 10)%N) as [Hsmall|Hlarge].
  - rewrite N.div_small, pretty_N_go_0 by done. exists 1%nat. split; [lia|].
    simpl. rewrite Hdigit, Hvalue. rewrite N.mod_small by done.
    replace (10 * acc + Z.of_N x)%Z with (acc * 10 ^ Z.of_nat 1 + Z.of_N x)%Z by lia.
    by destruct (Js.digits _ s) as [[n v] r].
  - destruct (IH (x `div` 10)%N) with (acc := acc)
        (s := String (pretty_N_char (x `mod` 10)) s) as (k & Hk & Hrun).
    { apply N.div_lt; lia. }
    { apply N.div_str_pos. lia. }
    exists (S k). split; [lia|]. rewrite Hrun. simpl. rewrite Hdigit, Hvalue.
    replace (10 * (acc * 10 ^ Z.of_nat k + Z.of_N (x `div` 10)) + Z.of_N (x `mod` 10))%Z
      with (acc * 10 ^ Z.of_nat (S k) + Z.of_N x)%Z.
    + destruct (Js.digits _ s) as [[n v] r]. simpl. by rewrite Nat.add_succ_r.
    + rewrite Nat2Z.inj_succ, Z.pow_succ_r by lia.
      rewrite (N.div_mod x 10) at 1 by lia. lia.
Qed.

Lemma digits_pretty_N (x : N) :
  (0 < x)%N →
  ∃ k a rest,
    (0 < k)%nat ∧ pretty_N_go x EmptyString = String a rest ∧ Js.isDigit a = true
    ∧ Js.digits 0 (pretty_N_go x EmptyString) = (k, Z.of_N x, EmptyString).
Proof.
  intros Hx. destruct (digits_pretty_N_go x Hx 0%Z EmptyString) as (k & Hk & Hrun).
  simpl in Hrun. rewrite Nat.add_0_r in Hrun.
  destruct (pretty_N_go x EmptyString) as [|a rest] eqn:Hs.
  - simpl in Hrun. injection Hrun as <-. lia.
  - exists k, a, rest. repeat split; [done| |done].
    simpl in Hrun. destruct (Js.isDigit a); [done|]. injection Hrun as <-. lia.
Qed.

(** The number of digits of a positive number and its size. *)
Lemma pretty_N_go_length (x : N) :
  (0 < x)%N →
  ∀ s, ∃ k : nat,
    (0 < k)%nat
    ∧ String.length (pretty_N_go x s) = (k + String.length s)%nat
    ∧ (10 ^ (Z.of_nat k - 1) ≤ Z.of_N x < 10 ^ Z.of_nat k)%Z.
Proof.
  induction (N.lt_wf_0 x) as [x _ IH]. intros Hx s.
  rewrite pretty_N_go_step by done.
  destruct (decide (x < 10)%N) as [Hsmall|Hlarge].
  - rewrite N.div_small, pretty_N_go_0 by done. exists 1%nat.
    split; [lia|]. split; [done|]. simpl. lia.
  - destruct (IH (x `div` 10)%N) with (s := String (pretty_N_char (x `mod` 10)) s)
      as (k & Hk & Hlen & Hlow & Hhigh).
    { apply N.div_lt; lia. }
    { apply N.div_str_pos. lia. }
    exists (S k). split; [lia|]. split; [rewrite Hlen; simpl; lia|].
    replace (Z.of_nat (S k) - 1)%Z with (Z.succ (Z.of_nat k - 1)) by lia.
    rewrite Nat2Z.inj_succ, !Z.pow_succ_r by lia.
    rewrite N2Z.inj_div in Hlow, Hhigh.
    pose proof (Z.div_mod (Z.of_N x) 10) as Hz.
    pose proof (Z.mod_pos_bound (Z.of_N x) 10) as Hb.
    change (Z.of_N 10) with 10%Z in *. lia.
Qed.

(** What [digits] reads is a prefix of the string. *)
Lemma digits_length (s : string) :
  ∀ acc n v r,
    Js.digits acc s = (n, v, r) → String.length s = (n + String.length r)%nat.
Proof.
  induction s as [|a s IH]; intros acc n v r Hrun; simpl in Hrun.
  - by injection Hrun as <- _ <-.
  - destruct (Js.isDigit a).
    + destruct (Js.digits _ s) as [[n' v'] r'] eqn:Hrest.
      injection Hrun as <- _ <-. simpl. f_equal. by eapply IH.
    + by injection Hrun as <- _ <-.
Qed.

(** Digits that were read to the end of a string are read in the same
    way when something that is not a digit follows. *)
Lemma digits_app (s t : string) :
  (∀ a rest, t = String a rest → Js.isDigit a = false) →
  ∀ acc n v,
    Js.digits acc s = (n, v, EmptyString) → Js.digits acc (s ++ t) = (n, v, t).
Proof.
  intros Ht. induction s as [|a s IH]; intros acc n v Hrun; simpl in Hrun.
  - injection Hrun as <- <-. simpl. destruct t as [|b t]; [done|].
    simpl. by rewrite (Ht b t).
  - simpl. destruct (Js.isDigit a); [|discriminate].
    destruct (Js.digits _ s) as [[n' v'] r'] eqn:Hrest.
    injection Hrun as <- <- ->. by rewrite (IH _ _ _ Hrest).
Qed.

(** The decimal notation of a positive integer: it starts with a digit,
    reads back as the integer, and its length tells the size of the
    integer. *)
Lemma pretty_positive_digits (v : Z) :
  (0 < v)%Z →
  ∃ a rest,
    pretty v = String a rest ∧ Js.isDigit a = true
    ∧ Js.digits 0 (pretty v) = (Js.decimalDigits v, v, EmptyString)
    ∧ (10 ^ (Z.of_nat (Js.decimalDigits v) - 1) ≤ v
       < 10 ^ Z.of_nat (Js.decimalDigits v))%Z.
Proof.
  intros Hv. destruct v as [|p|p]; [lia| |lia].
  unfold Js.decimalDigits.
  unfold pretty, pretty_Z, pretty, pretty_positive, pretty, pretty_N.
  rewrite !decide_False by done.
  destruct (digits_pretty_N (N.pos p)) as (k & a & rest & Hk & Hs & Hdigit & Hrun); [lia|].
  destruct (pretty_N_go_length (N.pos p)) with (s := EmptyString)
    as (k' & Hk' & Hlen & Hsize); [lia|].
  simpl in Hlen. rewrite Nat.add_0_r in Hlen.
  pose proof (digits_length _ _ _ _ _ Hrun) as Hread.
  simpl in Hread. rewrite Nat.add_0_r in Hread.
  exists a, rest. rewrite Hlen. repeat split; try done; try apply Hsize.
  rewrite Hrun. f_equal. f_equal. congruence.
Qed.

Lemma decimalDigits_mono (w v : Z) :
  (0 < w ≤ v)%Z → (Js.decimalDigits w ≤ Js.decimalDigits v)%nat.
Proof.
  intros [Hw Hle].
  destruct (pretty_positive_digits w Hw) as (_ & _ & _ & _ & _ & Hlow & _).
  destruct (pretty_positive_digits v) as (_ & _ & _ & _ & _ & _ & Hhigh); [lia|].
  assert (10 ^ (Z.of_nat (Js.decimalDigits w) - 1)
          < 10 ^ Z.of_nat (Js.decimalDigits v))%Z as Hpow by lia.
  destruct (decide (Js.decimalDigits w ≤ Js.decimalDigits v)%nat) as [|Hgt]; [done|].
  assert (10 ^ Z.of_nat (Js.decimalDigits v)
          ≤ 10 ^ (Z.of_nat (Js.decimalDigits w) - 1))%Z.
  { apply Z.pow_le_mono_r; lia. }
  lia.
Qed.

Lemma stripZeros_positive (fuel : nat) :
  ∀ v, (0 < v)%Z → (0 < Js.stripZeros fuel v ≤ v)%Z.
Proof.
  induction fuel as [|fuel IH]; intros v Hv; simpl; [lia|].
  destruct (v mod 10 =? 0)%Z eqn:Hmod; [|lia].
  apply Z.eqb_eq in Hmod.
  pose proof (Z.div_mod v 10) as Hdiv.
  destruct (IH (v / 10)%Z); lia.
Qed.

Lemma significant_positive (v : Z) : (0 < v)%Z → (0 < Js.significant v ≤ v)%Z.
Proof. apply stripZeros_positive. Qed.

Lemma better_cases (x a b : Z) : Js.better x a b = a ∨ Js.better x a b = b.
Proof. unfold Js.better. repeat case_match; auto. Qed.

Lemma numeral_positive (x : Z) : (0 < x)%Z → (0 < Js.numeral x)%Z.
Proof.
  intros Hx. unfold Js.numeral.
  cut (∀ powers best,
         (0 < best)%Z →
         (0 < foldl (λ best j,
                      let p := (10 ^ Z.of_nat j)%Z in
                      let below := (x / p * p)%Z in
                      let above := (below + p)%Z in
                      let best :=
                        if (0 <? below)%Z && Js.roundsTo x below
                        then Js.better x best below else best in
                      if Js.roundsTo x above then Js.better x best above else best)
                best powers)%Z); [intros Hall; by apply Hall|].
  induction powers as [|j powers IH]; intros best Hbest; [done|].
  simpl. apply IH.
  assert (0 < 10 ^ Z.of_nat j)%Z as Hp by (apply Z.pow_pos_nonneg; lia).
  assert (0 ≤ x / 10 ^ Z.of_nat j * 10 ^ Z.of_nat j)%Z as Hbelow.
  { apply Z.mul_nonneg_nonneg; [apply Z.div_pos|]; lia. }
  set (below := (x / 10 ^ Z.of_nat j * 10 ^ Z.of_nat j)%Z) in *.
  assert (0 < (if (0 <? below)%Z && Js.roundsTo x below
               then Js.better x best below else best))%Z as Hfirst.
  { destruct (0 <? below)%Z eqn:Hpos; simpl; [|done].
    apply Z.ltb_lt in Hpos. destruct (Js.roundsTo x below); [|done].
    destruct (better_cases x best below) as [-> | ->]; done. }
  destruct (Js.roundsTo x (below + 10 ^ Z.of_nat j)); [|done].
  match goal with |- (0 < Js.better _ ?a ?b)%Z =>
    destruct (better_cases x a b) as [-> | ->]; [done|lia] end.
Qed.

Lemma nearestDouble_positive (a x : Z) :
  (2 ^ 53 ≤ a)%Z → Js.nearestDouble a = Some x → (0 < x)%Z.
Proof.
  intros Ha. unfold Js.nearestDouble.
  assert (53 ≤ Z.log2 a)%Z as Hlog by (apply Z.log2_le_pow2; lia).
  pose proof (Z.log2_spec a ltac:(lia)) as [Hlow _].
  set (e := (Z.log2 a - 52)%Z) in *.
  assert (0 < 2 ^ e)%Z as He by (apply Z.pow_pos_nonneg; lia).
  assert (0 < a / 2 ^ e)%Z as Hq.
  { apply Z.div_str_pos. split; [done|].
    transitivity (2 ^ Z.log2 a)%Z; [|done]. apply Z.pow_le_mono_r; lia. }
  case_match; [done|]. intros [= <-].
  apply Z.mul_pos_pos; [|done]. case_match; lia.
Qed.

(** The text of a positive number starts with a character that is
    neither white space nor a sign, and stands for a number that is not
    zero. *)
Lemma exponentForm_unsigned (v : Z) :
  (0 < v)%Z → (21 < Js.decimalDigits v)%nat →
  Js.unsignedNonzero (Js.exponentForm v) = true
  ∧ ∃ a rest, Js.exponentForm v = String a rest ∧ Js.isDigit a = true.
Proof.
  intros Hv Hlong. unfold Js.exponentForm.
  destruct (significant_positive v Hv) as [Hw Hle].
  pose proof (decimalDigits_mono _ _ (conj Hw Hle)) as Hshorter.
  destruct (pretty_positive_digits (Js.significant v) Hw)
    as (d & rest & Htext & Hdigit & Hread & _).
  destruct (pretty_positive_digits (Z.of_nat (Js.decimalDigits v) - 1))
    as (_ & _ & _ & _ & Hpower & _); [lia|].
  set (power := pretty (Z.of_nat (Js.decimalDigits v) - 1)%Z) in *.
  set (w := Js.significant v) in *. set (k := Js.decimalDigits w) in *.
  rewrite Htext in Hread |- *. simpl in Hread. rewrite Hdigit in Hread.
  destruct (Js.digits _ rest) as [[n1 v1] r1] eqn:Hrest.
  injection Hread as Hk -> ->.
  change ("e+" ++ power) with (String "e" (String "+" power)).
  assert (Hexp : Js.exponent (String "e" (String "+" power))
                 = (Z.of_nat (Js.decimalDigits v) - 1)%Z).
  { simpl. by rewrite Hpower. }
  assert (Hfirst : ∀ t, String.prefix "Infinity" (String d t) = false).
  { clear -Hdigit. destruct d as [[] [] [] [] [] [] [] []]; vm_compute in Hdigit;
      try discriminate; done. }
  assert (Hletter : ∀ a t, String "e" (String "+" power) = String a t →
                           Js.isDigit a = false).
  { by intros a t [= <- _]. }
  destruct rest as [|b rest].
  - split; [|by eexists _, _].
    unfold Js.unsignedNonzero. rewrite Hfirst.
    cbn [Js.digits]. rewrite Hdigit.
    change (Js.isDigit "e") with false. cbn iota.
    simpl in Hrest. injection Hrest as <- <-.
    rewrite Hexp. unfold Js.magnitudeNonzero.
    rewrite (proj2 (Z.leb_le _ _)) by lia. apply Z.ltb_lt. lia.
  - split; [|by eexists _, _].
    unfold Js.unsignedNonzero. rewrite Hfirst.
    change ("." ++ String b rest ++ String "e" (String "+" power))
      with (String "." (String b rest ++ String "e" (String "+" power))).
    cbn [Js.digits]. rewrite Hdigit.
    change (Js.isDigit ".") with false. cbn iota.
    rewrite (digits_app (String b rest) _ Hletter _ _ _ Hrest).
    rewrite Hexp. unfold Js.magnitudeNonzero.
    destruct ((1 + n1)%nat =? 0)%nat eqn:Hzero; [by apply Nat.eqb_eq in Hzero|].
    rewrite (proj2 (Z.leb_le _ _)) by lia. apply Z.ltb_lt. lia.
Qed.

Lemma pretty_unsigned (v : Z) :
  (0 < v)%Z →
  Js.unsignedNonzero (pretty v) = true
  ∧ ∃ a rest, pretty v = String a rest ∧ Js.isDigit a = true.
Proof.
  intros Hv.
  destruct (pretty_positive_digits v Hv) as (d & rest & Htext & Hdigit & Hread & _ & Hsize).
  split; [|by eexists _, _].
  unfold Js.unsignedNonzero. rewrite Hread.
  assert (String.prefix "Infinity" (pretty v) = false) as ->.
  { rewrite Htext. clear -Hdigit.
    destruct d as [[] [] [] [] [] [] [] []]; vm_compute in Hdigit;
      try discriminate; reflexivity. }
  destruct (Js.decimalDigits v) eqn:Hk.
  - change (10 ^ Z.of_nat 0)%Z with 1%Z in Hsize. lia.
  - simpl. unfold Js.magnitudeNonzero. simpl. by apply Z.ltb_lt.
Qed.

Lemma positiveText_unsigned (a : Z) :
  (0 < a)%Z →
  Js.unsignedNonzero (Js.positiveText a) = true
  ∧ ∃ c rest, Js.positiveText a = String c rest
              ∧ Js.isSpace c = false ∧ c ≠ "-"%char.
Proof.
  intros Ha. unfold Js.positiveText.
  assert (Hplain : ∀ s, (∃ c rest, s = String c rest ∧ Js.isDigit c = true) →
                        ∃ c rest, s = String c rest ∧ Js.isSpace c = false ∧ c ≠ "-"%char).
  { intros s (c & rest & -> & Hdigit). exists c, rest.
    destruct (digit_is_plain c Hdigit) as (? & ? & _). done. }
  destruct (a <? 2 ^ 53)%Z eqn:Hsmall.
  - destruct (pretty_unsigned a Ha) as [? ?]. split; [done|by apply Hplain].
  - apply Z.ltb_ge in Hsmall.
    destruct (Js.nearestDouble a) as [x|] eqn:Hx.
    + pose proof (numeral_positive x (nearestDouble_positive _ _ Hsmall Hx)) as Hv.
      cbv zeta. destruct (Js.decimalDigits (Js.numeral x) <=? 21)%nat eqn:Hshort.
      * destruct (pretty_unsigned _ Hv) as [? ?]. split; [done|by apply Hplain].
      * apply Nat.leb_gt in Hshort.
        destruct (exponentForm_unsigned _ Hv Hshort) as [? ?].
        split; [done|by apply Hplain].
    + split; [reflexivity|]. by eexists _, _.
Qed.

(** The sign test on the text of a number. *)
Lemma parseFloatNegative_numberText (n : Z) :
  Js.parseFloatNegative (Js.numberText n) = bool_decide (n < 0)%Z.
Proof.
  destruct n as [|p|p]; [done| |].
  - rewrite bool_decide_eq_false_2 by lia. unfold Js.numberText.
    destruct (positiveText_unsigned (Z.pos p)) as (_ & c & rest & -> & Hspace & Hdash);
      [lia|].
    unfold Js.parseFloatNegative. simpl. rewrite Hspace.
    destruct c as [[] [] [] [] [] [] [] []]; done.
  - rewrite bool_decide_eq_true_2 by lia. unfold Js.numberText.
    change (- Z.neg p)%Z with (Z.pos p).
    destruct (positiveText_unsigned (Z.pos p)) as (Hnonzero & _); [lia|].
    unfold Js.parseFloatNegative.
    change (Js.trimStart ("-" ++ Js.positiveText (Z.pos p)))
      with (String "-" (Js.positiveText (Z.pos p))).
    exact Hnonzero.
Qed.

(** X12.  For an identity column whose increment is given as an integer
    number and whose [minValue], [maxValue] and [startWith] are
    unspecified, the stored increment is the text of the number, which is
    its decimal notation when the integer is below 2^53 in magnitude, and
    the sign of the number decides the defaults: a negative increment
    gives maxValue ["-1"] and startWith ["-1"]; zero or a positive
    increment gives minValue ["1"], startWith ["1"] and as maxValue the
    positive bound of the SQL type. *)
Theorem numeric_increment_sign `{Host} (config : PartialConfig)
    (owner name : string) (schema : option string) (explain : option Explain)
    (jsonShape : option string) (column : PgColumn) (identity : GeneratedIdentity)
    (increment : Z) :
  col_generatedIdentity column = Some identity →
  sequenceOption (Some identity) opt_increment = Some (NumNumber increment) →
  sequenceOption (Some identity) opt_minValue = None →
  sequenceOption (Some identity) opt_maxValue = None →
  sequenceOption (Some identity) opt_startWith = None →
  ∃ resolved,
    column_identity (columnToSet config owner name schema explain jsonShape column)
      = Some resolved
    ∧ identity_increment resolved = Js.numberText increment
    ∧ (Js.safeInteger increment → identity_increment resolved = pretty increment)
    ∧ ((increment < 0)%Z →
       identity_maxValue resolved = "-1" ∧ identity_startWith resolved = "-1")
    ∧ ((0 ≤ increment)%Z →
       identity_minValue resolved = "1"
       ∧ identity_startWith resolved = "1"
       ∧ identity_maxValue resolved = maxRangeForIdentityBasedOn (col_sqlType column)).
Proof.
  intros Hid Hinc Hmin Hmax Hstart. simpl. unfold identityOf. rewrite Hid. simpl.
  eexists. split; [reflexivity|]. simpl.
  unfold identityStartWith, identityMaxValue, identityMinValue, identityIncrement.
  rewrite Hid, Hinc, Hmin, Hmax, Hstart. simpl.
  rewrite parseFloatNegative_numberText. split; [done|].
  split; [by intros ->%numberText_safe|]. split; intros Hsign.
  - by rewrite bool_decide_eq_true_2.
  - by rewrite bool_decide_eq_false_2 by lia.
Qed.

(** ** Check constraints *)

(** When a loop returns, its body has returned on each element. *)
Lemma forEach_each_returned {A S : Type} (body : S → A → M S) xs :
  ∀ s log log' s',
    forEach body s xs log = (log', Returned s') →
    ∀ x, x ∈ xs → ∃ s1 log1 log2 s2, body s1 x log1 = (log2, Returned s2).
Proof.
  induction xs as [|y xs IH]; intros s log log' s' Hrun x Hx.
  - by apply elem_of_nil in Hx.
  - rewrite forEach_cons in Hrun.
    apply bind_inv_returned in Hrun as (log1 & s1 & Hy & Hrest).
    apply elem_of_cons in Hx as [->|Hx]; [eauto|].
    eapply IH; eauto.
Qed.

Lemma firstRepeated_none_NoDup names :
  ∀ seen, firstRepeated seen names = None →
    NoDup names ∧ ∀ name, name ∈ names → name ∉ seen.
Proof.
  induction names as [|name names IH]; intros seen Hnone; simpl in Hnone.
  - split; [constructor|]. intros name Hin. by apply elem_of_nil in Hin.
  - case_bool_decide as Hseen; [discriminate|].
    destruct (IH _ Hnone) as [Hnodup Hfresh]. split.
    + constructor; [|done]. intros Hin. apply (Hfresh name Hin). by left.
    + intros n Hn. apply elem_of_cons in Hn as [->|Hn]; [done|].
      intros Hin. apply (Hfresh n Hn). by right.
Qed.

Lemma NoDup_firstRepeated names :
  NoDup names → ∀ seen, (∀ name, name ∈ names → name ∉ seen) →
  firstRepeated seen names = None.
Proof.
  induction 1 as [|n names Hn Hnodup IH]; intros seen Hfresh; [done|].
  simpl. rewrite bool_decide_eq_false_2 by (apply Hfresh; left).
  apply IH. intros name Hname Hin. apply elem_of_cons in Hin as [->|Hin]; [done|].
  by apply (Hfresh name); [right|].
Qed.

Section Checks.

Context `{Host}.
Variable config : PartialConfig.
Variable table : PgTable.

Local Abbreviation duplicateCheck :=
  (DuplicateCheckConstraintNameError (orElse (tbl_schema table) "public") (tbl_name table)).

(** The loop over the checks of a table: it stops at the first name that
    repeats one seen before; otherwise every check is stored under its
    name. *)
Lemma checks_loop checks :
  ∀ seen registry checksObject log,
    registry !! checksKey table
    = match seen with [] => None | _ => Some (reverse seen) end →
    match firstRepeated seen (chk_name <$> checks) with
    | Some _ =>
        forEach (tableCheck config table) (registry, checksObject) checks log
        = ((log ++ [Reported duplicateCheck])%list, Thrown duplicateCheck)
    | None =>
        ∃ registry' checksObject',
          forEach (tableCheck config table) (registry, checksObject) checks log
          = (log, Returned (registry', checksObject'))
          ∧ (∀ key, is_Some (checksObject' !! key)
                    ↔ (key ∈ chk_name <$> checks ∧ key ≠ "__proto__")
                      ∨ is_Some (checksObject !! key))
          ∧ (∀ key stored, checksObject' !! key = Some stored →
               checksObject !! key = Some stored
               ∨ ∃ check, check ∈ checks ∧ chk_name check = key
                          ∧ stored = {| check_name := key;
                                        check_value :=
                                          sqlToQuery (cfg_casing config) (chk_value check) |})
    end.
Proof.
  induction checks as [|check checks IH]; intros seen registry checksObject log Hreg.
  - simpl. exists registry, checksObject. split; [done|]. split.
    + intros key. split; [by right|]. intros [[Hin _]|Hin]; [|done].
      by apply elem_of_nil in Hin.
    + intros key stored Hstored. by left.
  - rewrite fmap_cons. cbn [firstRepeated]. rewrite forEach_cons.
    case_bool_decide as Hseen.
    + destruct seen as [|n seen]; [by apply elem_of_nil in Hseen|].
      apply bind_thrown. unfold tableCheck. fold (checksKey table). rewrite Hreg.
      unfold Js.includes. rewrite bool_decide_eq_true_2 by by apply elem_of_reverse.
      reflexivity.
    + specialize (IH (chk_name check :: seen)).
      assert (Hstep : ∃ registry1,
                 registry1 !! checksKey table = Some (reverse (chk_name check :: seen))
                 ∧ tableCheck config table (registry, checksObject) check log
                   = (log, Returned
                        (registry1,
                         Js.put checksObject (chk_name check)
                           {| check_name := chk_name check;
                              check_value :=
                                sqlToQuery (cfg_casing config) (chk_value check) |}))).
      { unfold tableCheck. fold (checksKey table). rewrite Hreg.
        destruct seen as [|n seen].
        - eexists. split; [|reflexivity]. by rewrite lookup_insert_eq.
        - unfold Js.includes.
          rewrite bool_decide_eq_false_2 by by rewrite elem_of_reverse.
          eexists. split; [|reflexivity].
          by rewrite lookup_insert_eq, (reverse_cons _ (chk_name check)). }
      destruct Hstep as (registry1 & Hreg1 & Hstep).
      specialize (IH registry1
                    (Js.put checksObject (chk_name check)
                       {| check_name := chk_name check;
                          check_value :=
                            sqlToQuery (cfg_casing config) (chk_value check) |})
                    log Hreg1).
      rewrite (bind_returned _ _ _ _ _ Hstep).
      destruct (firstRepeated (chk_name check :: seen) (chk_name <$> checks)) as [name|];
        [exact IH|].
      destruct IH as (registry' & checksObject' & Hrun & Hkeys & Hvalues).
      exists registry', checksObject'. split; [exact Hrun|]. split.
      * intros key. rewrite Hkeys, put_is_Some_iff, elem_of_cons. tauto.
      * intros key stored Hstored. destruct (Hvalues _ _ Hstored) as [Hold|Hnew].
        -- apply put_lookup in Hold as [[-> ->]|[_ Hold]]; [|by left].
           right. exists check. split; [left|done].
        -- destruct Hnew as (c & Hc & Hname & ->). right. exists c.
           split; [by right|done].
Qed.

End Checks.

Lemma NoDup_fmap_same {A B : Type} (f : A → B) (xs : list A) (x y : A) :
  NoDup (f <$> xs) → x ∈ xs → y ∈ xs → f x = f y → x = y.
Proof.
  intros Hnodup Hx Hy Hf.
  apply list_elem_of_lookup in Hx as [i Hi]. apply list_elem_of_lookup in Hy as [j Hj].
  assert (i = j) as ->; [|congruence].
  apply (NoDup_lookup _ i j (f x) Hnodup); rewrite list_lookup_fmap.
  - by rewrite Hi.
  - by rewrite Hj, Hf.
Qed.

(** X13.  The names of the check constraints are checked table by table.
    For a table that passes the schema filter: if two of its checks have
    the same name, the loop over its checks ends in the
    duplicate-check-constraint error after printing the message for it;
    if the step of the table returns, the names of its checks are pairwise
    distinct and the stored entity has, under the name of each check
    other than [__proto__] (writing under that name stores no property)
    and under no other key, that check with its expression rendered,
    whatever names the checks of other tables have; and a conversion that
    returns a snapshot had no such table with a repeated check name. *)
Theorem check_names_are_distinct_in_a_table `{Host} (config : PartialConfig)
    (table : PgTable) :
  filteredOut config table = false →
  let duplicate :=
    DuplicateCheckConstraintNameError (orElse (tbl_schema table) "public")
      (tbl_name table) in
  (¬ NoDup (chk_name <$> tbl_checks table) →
   ∀ log,
     forEach (tableCheck config table) (∅, ∅) (tbl_checks table) log
     = ((log ++ [Reported duplicate])%list, Thrown duplicate))
  ∧ (∀ relations st log log' st',
       tableStep config relations st table log = (log', Returned st') →
       NoDup (chk_name <$> tbl_checks table)
       ∧ ∃ entity,
           result st' !! tableKeyOf (tbl_schema table) (tbl_name table) = Some entity
           ∧ (∀ key, is_Some (table_checkConstraints entity !! key)
                     ↔ key ∈ chk_name <$> tbl_checks table ∧ key ≠ "__proto__")
           ∧ ∀ check, check ∈ tbl_checks table → chk_name check ≠ "__proto__" →
               table_checkConstraints entity !! chk_name check
               = Some {| check_name := chk_name check;
                         check_value :=
                           sqlToQuery (cfg_casing config) (chk_value check) |})
  ∧ (∀ objects log log' snapshot,
       table ∈ tables objects →
       drizzleObjectsToSnapshot config objects log = (log', Returned snapshot) →
       NoDup (chk_name <$> tbl_checks table)).
Proof.
  intros Hf duplicate.
  assert (Hloop : ∀ log,
            match firstRepeated [] (chk_name <$> tbl_checks table) with
            | Some _ =>
                forEach (tableCheck config table) (∅, ∅) (tbl_checks table) log
                = ((log ++ [Reported duplicate])%list, Thrown duplicate)
            | None =>
                ∃ registry' checksObject',
                  forEach (tableCheck config table) (∅, ∅) (tbl_checks table) log
                  = (log, Returned (registry', checksObject'))
                  ∧ (∀ key, is_Some (checksObject' !! key)
                            ↔ (key ∈ chk_name <$> tbl_checks table ∧ key ≠ "__proto__")
                              ∨ is_Some ((∅ : gmap string CheckConstraint) !! key))
                  ∧ (∀ key stored, checksObject' !! key = Some stored →
                       (∅ : gmap string CheckConstraint) !! key = Some stored
                       ∨ ∃ check, check ∈ tbl_checks table ∧ chk_name check = key
                                  ∧ stored = {| check_name := key;
                                                check_value :=
                                                  sqlToQuery (cfg_casing config)
                                                    (chk_value check) |})
            end).
  { intros log. apply (checks_loop config table (tbl_checks table) [] ∅ ∅ log).
    apply lookup_empty. }
  assert (Hstep : ∀ relations st log log' st',
            tableStep config relations st table log = (log', Returned st') →
            NoDup (chk_name <$> tbl_checks table)
            ∧ ∃ entity,
                result st' !! tableKeyOf (tbl_schema table) (tbl_name table) = Some entity
                ∧ (∀ key, is_Some (table_checkConstraints entity !! key)
                          ↔ key ∈ chk_name <$> tbl_checks table ∧ key ≠ "__proto__")
                ∧ ∀ check, check ∈ tbl_checks table → chk_name check ≠ "__proto__" →
                    table_checkConstraints entity !! chk_name check
                    = Some {| check_name := chk_name check;
                              check_value :=
                                sqlToQuery (cfg_casing config) (chk_value check) |}).
  { intros relations st log log' st' Hrun.
    apply tableStep_stored in Hrun
      as (columnsObject & uniques0 & uniques & registry & indexesObject & policiesObject
          & checks & checksObject & log1 & log2 & log3 & log4
          & _ & _ & _ & _ & Hchecks & ->); [|done].
    specialize (Hloop log4).
    destruct (firstRepeated [] (chk_name <$> tbl_checks table)) as [name|] eqn:Hfirst.
    { rewrite Hloop in Hchecks. discriminate. }
    destruct Hloop as (registry' & checksObject' & Hrun & Hkeys & Hvalues).
    rewrite Hrun in Hchecks. injection Hchecks as _ <- <-.
    destruct (firstRepeated_none_NoDup _ _ Hfirst) as [Hnodup _].
    split; [done|]. eexists. simpl. rewrite lookup_insert_eq. split; [done|]. simpl.
    split.
    - intros key. rewrite Hkeys. split; [|by left].
      intros [Hin|[? Hin]]; [done|]. by rewrite lookup_empty in Hin.
    - intros check Hcheck Hproto.
      destruct (proj2 (Hkeys (chk_name check))) as [stored Hstored].
      { left. split; [|done]. apply list_elem_of_fmap. eauto. }
      rewrite Hstored.
      destruct (Hvalues _ _ Hstored) as [Hempty|(check' & Hin & Hname & ->)].
      { by rewrite lookup_empty in Hempty. }
      by rewrite (NoDup_fmap_same chk_name _ _ _ Hnodup Hin Hcheck Hname). }
  split; [|split; [exact Hstep|]].
  - intros Hdup log. specialize (Hloop log).
    destruct (firstRepeated [] (chk_name <$> tbl_checks table)) as [name|] eqn:Hfirst;
      [done|].
    by destruct (firstRepeated_none_NoDup _ _ Hfirst) as [Hnodup _].
  - intros objects log log' snapshot Hin Hrun.
    apply snapshot_returned in Hrun as (st & log1 & log2 & ptr & Htables & _).
    unfold tablesLoop in Htables.
    destruct (forEach_each_returned _ _ _ _ _ _ Htables table Hin)
      as (s1 & l1 & l2 & s2 & Hone).
    by destruct (Hstep _ _ _ _ _ Hone).
Qed.

(** ** Views *)

Section Views.

Context `{Host}.
Variable config : PartialConfig.

(** A view step that returns found no view under the key and stored the
    view there. *)
Lemma viewStep_returned resultViews view log log' resultViews' :
  viewStep config resultViews view log = (log', Returned resultViews') →
  resultViews !! viewKeyOf view = None
  ∧ ∃ stored, resultViews' = <[viewKeyOf view := stored]> resultViews
              ∧ storedView config view stored.
Proof.
  unfold viewStep. fold (viewKeyOf view).
  destruct (resultViews !! viewKeyOf view) as [existing|] eqn:Hkey.
  { unfold fail, bind, console_log, throw. discriminate. }
  intros Hrun. split; [done|].
  apply bind_inv_returned in Hrun as (log1 & [columnsObject uniques] & Hcols & Hrun).
  apply bind_inv_returned in Hrun as (log2 & definition & Hdef & Hrun).
  injection Hrun as _ <-. eexists. split; [reflexivity|].
  unfold storedView. simpl. repeat split; try done.
  - destruct (vw_isExisting view).
    + by injection Hdef as _ <-.
    + destruct (vw_query view); [by injection Hdef as _ <-|discriminate].
  - match goal with Hm : vw_materialized _ = false |- _ => by rewrite Hm end.
  - match goal with Hm : vw_materialized _ = false |- _ => by rewrite Hm end.
  - match goal with Hm : vw_materialized _ = false |- _ => by rewrite Hm end.
Qed.

Lemma views_loop views :
  ∀ resultViews log log' resultViews',
    forEach (viewStep config) resultViews views log = (log', Returned resultViews') →
    NoDup (viewKeyOf <$> views)
    ∧ (∀ key, key ∈ viewKeyOf <$> views → resultViews !! key = None)
    ∧ (∀ key, is_Some (resultViews' !! key)
              ↔ key ∈ viewKeyOf <$> views ∨ is_Some (resultViews !! key))
    ∧ (∀ key stored, resultViews !! key = Some stored →
         resultViews' !! key = Some stored)
    ∧ (∀ view, view ∈ views →
         ∃ stored, resultViews' !! viewKeyOf view = Some stored
                   ∧ storedView config view stored).
Proof.
  induction views as [|view views IH]; intros resultViews log log' resultViews' Hrun.
  - inversion Hrun; subst. repeat split.
    + constructor.
    + intros key Hkey. by apply elem_of_nil in Hkey.
    + by right.
    + intros [Hkey|Hkey]; [by apply elem_of_nil in Hkey|done].
    + done.
    + intros view Hview. by apply elem_of_nil in Hview.
  - rewrite forEach_cons in Hrun.
    apply bind_inv_returned in Hrun as (log1 & resultViews1 & Hstep & Hrest).
    apply viewStep_returned in Hstep as (Hfree & stored & -> & Hstored).
    destruct (IH _ _ _ _ Hrest) as (Hnodup & Hfresh & Hkeys & Hkept & Hviews).
    rewrite fmap_cons.
    assert (Hnew : viewKeyOf view ∉ viewKeyOf <$> views).
    { intros Hin. specialize (Hfresh _ Hin). by rewrite lookup_insert_eq in Hfresh. }
    repeat split.
    + by constructor.
    + intros key Hkey. apply elem_of_cons in Hkey as [->|Hkey]; [done|].
      specialize (Hfresh _ Hkey).
      destruct (decide (viewKeyOf view = key)) as [<-|Hne]; [done|].
      by rewrite lookup_insert_ne in Hfresh.
    + rewrite Hkeys, elem_of_cons. intros [Hkey|Hkey]; [left; by right|].
      destruct (decide (viewKeyOf view = key)) as [<-|Hne]; [left; by left|].
      rewrite lookup_insert_ne in Hkey by done. by right.
    + rewrite Hkeys, elem_of_cons. intros [[->|Hkey]|Hkey].
      * right. rewrite lookup_insert_eq. by eexists.
      * by left.
      * right. destruct (decide (viewKeyOf view = key)) as [<-|Hne].
        -- rewrite lookup_insert_eq. by eexists.
        -- by rewrite lookup_insert_ne.
    + intros key v Hkey. apply Hkept.
      destruct (decide (viewKeyOf view = key)) as [<-|Hne]; [congruence|].
      by rewrite lookup_insert_ne.
    + intros v Hv. apply elem_of_cons in Hv as [->|Hv]; [|by apply Hviews].
      exists stored. split; [|done]. apply Hkept. by rewrite lookup_insert_eq.
Qed.

End Views.

(** X14.  When the conversion returns a snapshot, the views and the
    materialized views of the input, taken together, have pairwise
    distinct keys (schema, or ["public"] when there is none, a dot, and the
    name); the views of the snapshot are stored under exactly these keys,
    whatever the schema filter is; and the entity stored for a view has
    its name, as schema the declared schema or ["public"] (so that, unlike
    for a table, key and schema field always agree), its kind, no
    definition when the view is marked as existing and the rendered query
    otherwise, and no [withNoData], [tablespace] or [using] when it is not
    materialized. *)
Theorem views_of_snapshot `{Host} (config : PartialConfig) (objects : DrizzleObjects)
    (log log' : list diagnostic) (snapshot : Snapshot) :
  drizzleObjectsToSnapshot config objects log = (log', Returned snapshot) →
  let combinedViews := (views objects ++ matViews objects)%list in
  NoDup (viewKeyOf <$> combinedViews)
  ∧ (∀ key, is_Some (snapshot_views snapshot !! key)
            ↔ key ∈ viewKeyOf <$> combinedViews)
  ∧ (∀ view, view ∈ combinedViews →
       ∃ stored,
         snapshot_views snapshot !! viewKeyOf view = Some stored
         ∧ storedView config view stored
         ∧ viewKeyOf view = view_schema stored ++ "." ++ view_name stored).
Proof.
  intros Hrun combinedViews.
  apply snapshot_returned_parts in Hrun
    as (st & log1 & log2 & result' & policiesToReturn & resultViews
        & _ & _ & Hviews & _ & _ & _ & _ & _ & _ & _ & _ & -> & _).
  destruct (views_loop config _ _ _ _ _ Hviews) as (Hnodup & _ & Hkeys & _ & Hstored).
  split; [done|]. split.
  - intros key. rewrite Hkeys. split; [|by left].
    intros [Hin|[? Hin]]; [done|]. by rewrite lookup_empty in Hin.
  - intros view Hview. destruct (Hstored view Hview) as (stored & Hlookup & Hdescr).
    exists stored. split; [done|]. split; [done|].
    destruct Hdescr as (-> & -> & _). reflexivity.
Qed.

(** ** Where a linked policy goes *)

Section LinkedPolicies.

Context `{Host}.
Variable config : PartialConfig.

Lemma policies_loop policies :
  ∀ result policiesToReturn log log' result' policies',
    forEach (policyStep config) (result, policiesToReturn) policies log
      = (log', Returned (result', policies')) →
    (∀ key, is_Some (result' !! key) ↔ is_Some (result !! key))
    ∧ (∀ name stored, policiesToReturn !! name = Some stored →
         policies' !! name = Some stored)
    ∧ (∀ key table name stored,
         result !! key = Some table → table_policies table !! name = Some stored →
         ∃ table', result' !! key = Some table'
                   ∧ table_policies table' !! name = Some stored)
    ∧ (∀ name stored, policies' !! name = Some stored →
         policiesToReturn !! name = Some stored
         ∨ ∃ policy tableConfig,
             policy ∈ policies ∧ pol_name policy = name
             ∧ pol_linkedTable policy = Some tableConfig
             ∧ result !! tableKeyOf (lt_schema tableConfig) (lt_name tableConfig) = None
             ∧ stored = unlinkedEntry tableConfig (mappedPolicy config policy))
    ∧ (∀ policy tableConfig,
         policy ∈ policies → pol_linkedTable policy = Some tableConfig →
         match result !! tableKeyOf (lt_schema tableConfig) (lt_name tableConfig) with
         | Some _ =>
             ∃ table',
               result' !! tableKeyOf (lt_schema tableConfig) (lt_name tableConfig)
               = Some table'
               ∧ table_policies table' !! pol_name policy
                 = Some (mappedPolicy config policy)
         | None =>
             policies' !! pol_name policy
             = Some (unlinkedEntry tableConfig (mappedPolicy config policy))
         end).
Proof.
  induction policies as [|policy policies IH];
    intros result policiesToReturn log log' result' policies' Hrun.
  - inversion Hrun; subst. repeat split; try done.
    + intros key table name stored Hkey Hname. eauto.
    + intros name stored Hstored. by left.
    + intros policy tableConfig Hin. by apply elem_of_nil in Hin.
  - rewrite forEach_cons in Hrun.
    apply bind_inv_returned in Hrun as (log1 & [result1 policies1] & Hstep & Hrest).
    destruct (IH _ _ _ _ _ _ Hrest) as (Hkeys & Hkept & Htables & Horigin & Hplaced).
    apply policyStep_cases in Hstep.
    destruct (pol_linkedTable policy) as [tableConfig|] eqn:Hlinked.
    + cbv zeta in Hstep. destruct Hstep as [[Hfree Hproto] Hstep].
      apply not_inherited_not_proto in Hproto.
      set (tableKey := tableKeyOf (lt_schema tableConfig) (lt_name tableConfig)) in *.
      destruct (result !! tableKey) as [table|] eqn:Hk.
      * destruct Hstep as (Hnone & -> & ->).
        assert (Hsame : ∀ key, is_Some
                    ((<[tableKey := withPolicy table (mappedPolicy config policy)]> result)
                       !! key) ↔ is_Some (result !! key)).
        { intros key. destruct (decide (tableKey = key)) as [<-|Hne].
          - rewrite lookup_insert_eq, Hk. split; by eexists.
          - by rewrite lookup_insert_ne. }
        assert (Hnone' : ∀ key, result !! key = None →
                  (<[tableKey := withPolicy table (mappedPolicy config policy)]> result)
                    !! key = None).
        { intros key Hkey. apply eq_None_not_Some. rewrite Hsame, Hkey.
          by intros [? ?]. }
        repeat split.
        -- rewrite Hkeys. apply Hsame.
        -- rewrite Hkeys, Hsame. done.
        -- done.
        -- intros key table0 name stored Hkey Hname.
           destruct (decide (tableKey = key)) as [<-|Hne].
           ++ apply (Htables tableKey (withPolicy table (mappedPolicy config policy))).
              { by rewrite lookup_insert_eq. }
              simpl. rewrite Hk in Hkey. injection Hkey as <-.
              destruct (decide (pol_name policy = name)) as [<-|Hne]; [congruence|].
              by rewrite put_lookup_ne.
           ++ apply (Htables key table0); [by rewrite lookup_insert_ne|done].
        -- intros name stored Hstored.
           destruct (Horigin _ _ Hstored)
             as [Hold|(p & tc & Hin & Hname & Hlink & Habsent & ->)]; [by left|].
           right. exists p, tc. repeat split; try done; [by right|].
           destruct (decide (tableKey = tableKeyOf (lt_schema tc) (lt_name tc)))
             as [Heq|Hne].
           ++ rewrite <- Heq, lookup_insert_eq in Habsent. discriminate.
           ++ by rewrite lookup_insert_ne in Habsent.
        -- intros p tc Hin Hlink. apply elem_of_cons in Hin as [->|Hin].
           ++ rewrite Hlinked in Hlink. injection Hlink as <-. fold tableKey. rewrite Hk.
              apply (Htables tableKey (withPolicy table (mappedPolicy config policy))).
              { by rewrite lookup_insert_eq. }
              simpl. rewrite put_lookup_eq; [done|by left].
           ++ specialize (Hplaced p tc Hin Hlink).
              destruct (decide (tableKey = tableKeyOf (lt_schema tc) (lt_name tc)))
                as [Heq|Hne].
              ** rewrite <- Heq in *. rewrite lookup_insert_eq in Hplaced.
                 by rewrite Hk.
              ** rewrite lookup_insert_ne in Hplaced by done. exact Hplaced.
      * destruct Hstep as (-> & ->). repeat split.
        -- by rewrite Hkeys.
        -- by rewrite Hkeys.
        -- intros name stored Hstored. apply Hkept.
           destruct (decide (pol_name policy = name)) as [<-|Hne]; [congruence|].
           by rewrite lookup_insert_ne.
        -- done.
        -- intros name stored Hstored.
           destruct (Horigin _ _ Hstored)
             as [Hold|(p & tc & Hin & Hname & Hlink & Habsent & ->)].
           ++ destruct (decide (pol_name policy = name)) as [<-|Hne].
              ** rewrite lookup_insert_eq in Hold. injection Hold as <-.
                 right. exists policy, tableConfig. repeat split; try done. left.
              ** rewrite lookup_insert_ne in Hold by done. by left.
           ++ right. exists p, tc. repeat split; try done. by right.
        -- intros p tc Hin Hlink. apply elem_of_cons in Hin as [->|Hin].
           ++ rewrite Hlinked in Hlink. injection Hlink as <-. fold tableKey. rewrite Hk.
              apply Hkept. by rewrite lookup_insert_eq.
           ++ by apply Hplaced.
    + destruct Hstep as [-> ->]. repeat split; try done.
      * by rewrite Hkeys.
      * by rewrite Hkeys.
      * intros name stored Hstored.
        destruct (Horigin _ _ Hstored)
          as [Hold|(p & tc & Hin & Hname & Hlink & Habsent & ->)]; [by left|].
        right. exists p, tc. repeat split; try done. by right.
      * intros p tc Hin Hlink. apply elem_of_cons in Hin as [->|Hin]; [congruence|].
        by apply Hplaced.
Qed.

End LinkedPolicies.

(** X15.  When the conversion returns a snapshot, each standalone policy
    that is linked to a table is found in one of two places.  If the
    tables of the snapshot have an entry under the key of the linked table
    (its schema, or ["public"], a dot, and its name), the policy is among
    the policies of that entry, under its name.  Otherwise (the linked
    table is not among the tables given, or the schema filter has left it
    out) the policy is among the top-level policies of the snapshot, under
    its name, together with the schema of the linked table and the quoted
    name to put it [on].  The top-level policies of the snapshot are
    exactly those of the second kind. *)
Theorem linked_policy_placement `{Host} (config : PartialConfig)
    (objects : DrizzleObjects) (log log' : list diagnostic) (snapshot : Snapshot) :
  drizzleObjectsToSnapshot config objects log = (log', Returned snapshot) →
  (∀ policy tableConfig,
     policy ∈ policies objects → pol_linkedTable policy = Some tableConfig →
     let schema := orElse (lt_schema tableConfig) "public" in
     match snapshot_tables snapshot !! (schema ++ "." ++ lt_name tableConfig) with
     | Some table =>
         table_policies table !! pol_name policy = Some (mappedPolicy config policy)
     | None =>
         ∃ stored,
           snapshot_policies snapshot !! pol_name policy = Some stored
           ∧ stored = unlinkedEntry tableConfig (mappedPolicy config policy)
           ∧ policy_schema stored = Some schema
           ∧ policy_on stored
             = Some (dquote ++ schema ++ dquote ++ "." ++ dquote
                     ++ lt_name tableConfig ++ dquote)
     end)
  ∧ (∀ name stored,
       snapshot_policies snapshot !! name = Some stored →
       ∃ policy tableConfig,
         policy ∈ policies objects ∧ pol_name policy = name
         ∧ pol_linkedTable policy = Some tableConfig
         ∧ snapshot_tables snapshot
             !! tableKeyOf (lt_schema tableConfig) (lt_name tableConfig) = None
         ∧ stored = unlinkedEntry tableConfig (mappedPolicy config policy)).
Proof.
  intros Hrun.
  apply snapshot_returned in Hrun as (st & log1 & log2 & ptr & _ & Hpolicies & ->).
  destruct (policies_loop config _ _ _ _ _ _ _ Hpolicies)
    as (Hkeys & _ & _ & Horigin & Hplaced).
  split.
  - intros policy tableConfig Hin Hlinked schema.
    specialize (Hplaced policy tableConfig Hin Hlinked).
    change (schema ++ "." ++ lt_name tableConfig)
      with (tableKeyOf (lt_schema tableConfig) (lt_name tableConfig)).
    set (tableKey := tableKeyOf _ _) in *.
    destruct (result st !! tableKey) as [table|] eqn:Hk.
    + destruct Hplaced as (table' & -> & Hstored). done.
    + assert (snapshot_tables snapshot !! tableKey = None) as ->.
      { apply eq_None_not_Some. rewrite Hkeys, Hk. by intros [? ?]. }
      eexists. split; [exact Hplaced|]. by repeat split.
  - intros name stored Hstored.
    destruct (Horigin _ _ Hstored)
      as [Hold|(p & tc & Hin & Hname & Hlink & Habsent & ->)].
    { by rewrite lookup_empty in Hold. }
    exists p, tc. repeat split; try done.
    apply eq_None_not_Some. rewrite Hkeys, Habsent. by intros [? ?].
Qed.

(** ** Entities are stored under their names *)

Section Keys.

Context `{Host}.
Variable config : PartialConfig.

Lemma keyed_insert {V : Type} (P : string → V → Prop) (m : gmap string V) k v :
  (∀ k' v', m !! k' = Some v' → P k' v') → P k v →
  ∀ k' v', <[k := v]> m !! k' = Some v' → P k' v'.
Proof.
  intros Hm Hv k' v' Hlookup. destruct (decide (k = k')) as [<-|Hne].
  - rewrite lookup_insert_eq in Hlookup. by injection Hlookup as <-.
  - rewrite lookup_insert_ne in Hlookup by done. eauto.
Qed.

Lemma keyed_put {V : Type} (P : string → V → Prop) (m : gmap string V) k v :
  (∀ k' v', m !! k' = Some v' → P k' v') → P k v →
  ∀ k' v', Js.put m k v !! k' = Some v' → P k' v'.
Proof. intros Hm Hv k' v' [[-> ->]|[_ Hold]]%put_lookup; eauto. Qed.

Lemma keyed_empty {V : Type} (P : string → V → Prop) :
  ∀ k v, (∅ : gmap string V) !! k = Some v → P k v.
Proof. intros k v Hlookup. by rewrite lookup_empty in Hlookup. Qed.

Lemma keyed_foldl {A V : Type} (P : string → V → Prop) (step : gmap string V → A → gmap string V)
    (xs : list A) :
  (∀ m x, (∀ k v, m !! k = Some v → P k v) → ∀ k v, step m x !! k = Some v → P k v) →
  ∀ m, (∀ k v, m !! k = Some v → P k v) →
  ∀ k v, foldl step m xs !! k = Some v → P k v.
Proof.
  intros Hstep. induction xs as [|x xs IH]; intros m Hm; [done|].
  simpl. apply IH. by apply Hstep.
Qed.

Local Abbreviation uniqueKeyed :=
  (λ (k : string) (u : UniqueConstraint), unique_name u = None ∨ unique_name u = Some k).

Lemma columnUnique_keyed owner name column uniques log log' uniques' :
  (∀ k u, uniques !! k = Some u → uniqueKeyed k u) →
  columnUnique owner name column uniques log = (log', Returned uniques') →
  ∀ k u, uniques' !! k = Some u → uniqueKeyed k u.
Proof.
  intros Hkeyed. unfold columnUnique. destruct (col_isUnique column).
  - destruct (Js.get uniques (propertyKey (col_uniqueName column)));
      try (unfold fail, bind, console_log, throw; discriminate).
    intros [= _ <-]. apply keyed_put; [done|]. simpl.
    destruct (col_uniqueName column); [by right|by left].
  - by intros [= _ <-].
Qed.

Lemma columns_keyed table :
  ∀ log log' columnsObject uniques,
    forEach (tableColumn config table) (∅, ∅) (tbl_columns table) log
      = (log', Returned (columnsObject, uniques)) →
    (∀ k c, columnsObject !! k = Some c → column_name c = k)
    ∧ (∀ k u, uniques !! k = Some u → uniqueKeyed k u).
Proof.
  intros log log' columnsObject uniques Hrun.
  refine (forEach_invariant
            (λ acc : gmap string Column * gmap string UniqueConstraint,
               (∀ k c, acc.1 !! k = Some c → column_name c = k)
               ∧ (∀ k u, acc.2 !! k = Some u → uniqueKeyed k u))
            _ _ _ _ _ _ _ _ Hrun).
  - intros [cols uniqs] column l l' [cols' uniqs'] _ [Hcols Huniqs] Hstep.
    unfold tableColumn in Hstep.
    apply bind_inv_returned in Hstep as (l1 & uniqs1 & Hunique & Hstep).
    injection Hstep as _ <- <-. simpl in *. split.
    + by apply (keyed_put (λ k c, column_name c = k)).
    + eapply columnUnique_keyed; eauto.
  - split; apply keyed_empty.
Qed.

Lemma uniques_keyed table uniques0 :
  (∀ k u, uniques0 !! k = Some u → uniqueKeyed k u) →
  ∀ log log' uniques,
    forEach (tableUnique config table) uniques0 (tbl_uniqueConstraints table) log
      = (log', Returned uniques) →
    ∀ k u, uniques !! k = Some u → uniqueKeyed k u.
Proof.
  intros Hstart log log' uniques Hrun.
  refine (forEach_invariant
            (λ acc : gmap string UniqueConstraint,
               ∀ k u, acc !! k = Some u → uniqueKeyed k u) _ _ _ _ _ _ _ _ Hrun);
    [|done].
  intros uniqs unq l l' uniqs' _ Huniqs. unfold tableUnique.
  destruct (Js.get uniqs _);
    try (unfold fail, bind, console_log, throw; discriminate).
  intros [= _ <-]. apply keyed_put; [done|]. simpl.
  destruct (unq_name unq); [by right|by left].
Qed.

Lemma indexes_keyed table registry :
  ∀ log log' registry' indexesObject,
    forEach (tableIndex config table) (registry, ∅) (tbl_indexes table) log
      = (log', Returned (registry', indexesObject)) →
    ∀ k i, indexesObject !! k = Some i → index_name i = k.
Proof.
  intros log log' registry' indexesObject Hrun.
  refine (forEach_invariant
            (λ acc : gmap string (list string) * gmap string Index,
               ∀ k i, acc.2 !! k = Some i → index_name i = k) _ _ _ _ _ _ _ _ Hrun).
  - intros [reg idxs] value l l' [reg' idxs'] _ Hidxs Hstep.
    unfold tableIndex in Hstep.
    apply bind_inv_returned in Hstep as (l1 & names & _ & Hstep).
    apply bind_inv_returned in Hstep as (l2 & reg1 & _ & Hstep).
    injection Hstep as _ _ <-. simpl in *.
    by apply (keyed_put (λ k i, index_name i = k)).
  - apply keyed_empty.
Qed.

Lemma policies_keyed table :
  ∀ log log' policiesObject,
    forEach (tablePolicy config) ∅ (tbl_policies table) log
      = (log', Returned policiesObject) →
    ∀ k p, policiesObject !! k = Some p → policy_name p = k.
Proof.
  intros log log' policiesObject Hrun.
  refine (forEach_invariant
            (λ acc : gmap string Policy,
               ∀ k p, acc !! k = Some p → policy_name p = k) _ _ _ _ _ _ _ _ Hrun).
  - intros pols policy l l' pols' _ Hpols. unfold tablePolicy.
    destruct (Js.get pols (pol_name policy)); try discriminate.
    intros [= _ <-]. by apply (keyed_put (λ k p, policy_name p = k)).
  - apply keyed_empty.
Qed.

Lemma tableStep_keyed relations st table log log' st' :
  (∀ key entity, result st !! key = Some entity → wellKeyed entity) →
  tableStep config relations st table log = (log', Returned st') →
  ∀ key entity, result st' !! key = Some entity → wellKeyed entity.
Proof.
  intros Hst Hrun. destruct (filteredOut config table) eqn:Hf.
  { rewrite tableStep_filtered in Hrun by done. by injection Hrun as _ <-. }
  apply tableStep_stored in Hrun
    as (columnsObject & uniques0 & uniques & registry & indexesObject & policiesObject
        & checks & checksObject & log1 & log2 & log3 & log4
        & Hcols & Huniq & Hidx & Hpol & Hchk & ->); [|done].
  simpl. apply keyed_insert; [done|].
  destruct (columns_keyed _ _ _ _ _ Hcols) as [Hcolumns Huniques0].
  unfold wellKeyed. simpl. repeat split.
  - done.
  - eapply indexes_keyed; eauto.
  - apply (keyed_foldl (λ k f, foreignKey_name f = k)); [|apply keyed_empty].
    intros m fk Hm. by apply (keyed_put (λ k f, foreignKey_name f = k)).
  - apply (keyed_foldl (λ k p, primaryKey_name p = k)); [|apply keyed_empty].
    intros m pk Hm. unfold tablePrimaryKey.
    by apply (keyed_put (λ k p, primaryKey_name p = k)).
  - eapply uniques_keyed; eauto.
  - eapply policies_keyed; eauto.
  - intros k c Hc.
    pose proof (checks_loop config table (tbl_checks table) [] ∅ ∅ log4
                  (lookup_empty _)) as Hloop.
    destruct (firstRepeated [] (chk_name <$> tbl_checks table)).
    { rewrite Hloop in Hchk. discriminate. }
    destruct Hloop as (registry' & checksObject' & Hrun & _ & Hvalues).
    rewrite Hrun in Hchk. injection Hchk as _ <- <-.
    destruct (Hvalues _ _ Hc) as [Hempty|(check & _ & _ & ->)]; [|done].
    by rewrite lookup_empty in Hempty.
Qed.

End Keys.

(** X16.  In every table of a returned snapshot, each entity is stored
    under its own name: a column under the name it has after casing, an
    index, a foreign key, a composite primary key, a policy (declared on
    the table or linked to it from outside) and a check constraint under
    their names, and a unique constraint that has a name under that
    name. *)
Theorem entities_are_stored_under_their_names `{Host} (config : PartialConfig)
    (objects : DrizzleObjects) (log log' : list diagnostic) (snapshot : Snapshot)
    (key : string) (table : Table) :
  drizzleObjectsToSnapshot config objects log = (log', Returned snapshot) →
  snapshot_tables snapshot !! key = Some table →
  wellKeyed table.
Proof.
  intros Hrun Hkey.
  apply snapshot_returned in Hrun as (st & log1 & log2 & ptr & Htables & Hpolicies & _).
  assert (Hst : ∀ key entity, result st !! key = Some entity → wellKeyed entity).
  { unfold tablesLoop in Htables.
    refine (forEach_invariant
              (λ st, ∀ key entity, result st !! key = Some entity → wellKeyed entity)
              _ _ _ _ _ _ _ _ Htables); [|apply keyed_empty].
    intros s t l l' s' _ Hs Hstep. by eapply tableStep_keyed. }
  revert key table Hkey.
  refine (forEach_invariant
            (λ acc : gmap string Table * gmap string Policy,
               ∀ key entity, acc.1 !! key = Some entity → wellKeyed entity)
            _ _ _ _ _ _ _ _ Hpolicies); [|done].
  intros [res pols] policy l l' [res' pols'] _ Hres Hstep. simpl in *.
  apply policyStep_returned in Hstep as [->|(tableKey & entity & Hentity & ->)]; [done|].
  apply keyed_insert; [done|].
  destruct (Hres _ _ Hentity) as (Hc & Hi & Hf & Hp & Hu & Hpol & Hchk).
  unfold wellKeyed. simpl. repeat split; try done.
  by apply (keyed_put (λ k p, policy_name p = k)).
Qed.

(** ** The tables of the snapshot and their relations *)

Section TableKeys.

Context `{Host}.
Variable config : PartialConfig.

(** When the table loop returns, each table that passes the schema filter
    has an entry under its key, and every entry keeps the relations
    configured for its name. *)
Lemma tablesLoop_present relations tables :
  ∀ st log log' st',
    forEach (tableStep config relations) st tables log = (log', Returned st') →
    (∀ key, is_Some (result st !! key) → is_Some (result st' !! key))
    ∧ (∀ table, table ∈ tables → filteredOut config table = false →
         is_Some (result st' !! tableKeyOf (tbl_schema table) (tbl_name table)))
    ∧ ((∀ key entity, result st !! key = Some entity →
          table_relations entity = tableRelations relations (table_name entity)) →
       ∀ key entity, result st' !! key = Some entity →
         table_relations entity = tableRelations relations (table_name entity)).
Proof.
  induction tables as [|table tables IH]; intros st log log' st' Hrun.
  - inversion Hrun; subst. repeat split; try done.
    intros table Hin. by apply elem_of_nil in Hin.
  - rewrite forEach_cons in Hrun.
    apply bind_inv_returned in Hrun as (log1 & st1 & Hstep & Hrest).
    destruct (IH _ _ _ _ Hrest) as (Hkept & Hpresent & Hrelations).
    destruct (filteredOut config table) eqn:Hf.
    + rewrite tableStep_filtered in Hstep by done. injection Hstep as _ <-.
      repeat split; try done.
      intros t Hin Ht. apply elem_of_cons in Hin as [->|Hin]; [congruence|].
      by apply Hpresent.
    + apply tableStep_stored in Hstep
        as (columnsObject & uniques0 & uniques & registry & indexesObject
            & policiesObject & checks & checksObject & l1 & l2 & l3 & l4
            & _ & _ & _ & _ & _ & ->); [|done].
      simpl in *. repeat split.
      * intros key Hkey. apply Hkept.
        destruct (decide (tableKeyOf (tbl_schema table) (tbl_name table) = key))
          as [<-|Hne]; [by rewrite lookup_insert_eq|by rewrite lookup_insert_ne].
      * intros t Hin Ht. apply elem_of_cons in Hin as [->|Hin]; [|by apply Hpresent].
        apply Hkept. by rewrite lookup_insert_eq.
      * intros Hst. apply Hrelations.
        by apply (keyed_insert
                    (λ _ entity,
                       table_relations entity
                       = tableRelations relations (table_name entity))).
Qed.

End TableKeys.

(** X17.  The tables of a returned snapshot are stored under exactly the
    keys of the tables of the input that pass the schema filter: no key is
    invented and none is dropped; tables with the same key share one
    entry. *)
Theorem tables_of_snapshot `{Host} (config : PartialConfig) (objects : DrizzleObjects)
    (log log' : list diagnostic) (snapshot : Snapshot) :
  drizzleObjectsToSnapshot config objects log = (log', Returned snapshot) →
  ∀ key,
    is_Some (snapshot_tables snapshot !! key)
    ↔ ∃ table, table ∈ tables objects ∧ filteredOut config table = false
               ∧ orElse (tbl_schema table) "public" ++ "." ++ tbl_name table = key.
Proof.
  intros Hrun key.
  apply snapshot_returned in Hrun as (st & log1 & log2 & ptr & Htables & Hpolicies & _).
  destruct (policies_loop config _ _ _ _ _ _ _ Hpolicies) as (Hkeys & _).
  rewrite Hkeys. split.
  - by apply (tablesLoop_keys config _ _ _ _ _ Htables).
  - intros (table & Hin & Hf & <-).
    destruct (tablesLoop_present config _ _ _ _ _ _ Htables) as (_ & Hpresent & _).
    by apply Hpresent.
Qed.


(** ** What the schema filter and the other entities do not touch *)

Lemma viewStep_casing `{Host} (config1 config2 : PartialConfig) resultViews view :
  cfg_casing config1 = cfg_casing config2 →
  viewStep config1 resultViews view = viewStep config2 resultViews view.
Proof.
  intros Hcasing.
  unfold viewStep, viewColumn, columnToSet, defaultOf, generatedOf, buildArrayString,
    elementString.
  by rewrite Hcasing.
Qed.

(** X19.  The schema filter applies to tables and schemas only: two
    conversions of the same input under configurations with the same
    casing, whatever their schema filters, project ids and roles settings,
    return snapshots with the same views, sequences, enums and roles. *)
Theorem schema_filter_spares_other_entities `{Host} (config1 config2 : PartialConfig)
    (objects : DrizzleObjects) (log1 log1' log2 log2' : list diagnostic)
    (snapshot1 snapshot2 : Snapshot) :
  cfg_casing config1 = cfg_casing config2 →
  drizzleObjectsToSnapshot config1 objects log1 = (log1', Returned snapshot1) →
  drizzleObjectsToSnapshot config2 objects log2 = (log2', Returned snapshot2) →
  snapshot_views snapshot1 = snapshot_views snapshot2
  ∧ snapshot_sequences snapshot1 = snapshot_sequences snapshot2
  ∧ snapshot_enums snapshot1 = snapshot_enums snapshot2
  ∧ snapshot_roles snapshot1 = snapshot_roles snapshot2.
Proof.
  intros Hcasing
    (st1 & l1 & l1' & r1 & p1 & rv1 & _ & _ & Hviews1 & _ & _ & _ & He1 & _ & Hs1 & Hr1
     & _ & Hv1 & _)%snapshot_returned_parts
    (st2 & l2 & l2' & r2 & p2 & rv2 & _ & _ & Hviews2 & _ & _ & _ & He2 & _ & Hs2 & Hr2
     & _ & Hv2 & _)%snapshot_returned_parts.
  rewrite Hs1, Hs2, He1, He2, Hr1, Hr2, Hv1, Hv2. repeat split.
  assert (Hsame : ∀ (combined : list PgViewLike) resultViews la lb,
            (forEach (viewStep config1) resultViews combined la).2
            = (forEach (viewStep config2) resultViews combined lb).2).
  { induction combined as [|view combined IH]; intros resultViews la lb; [reflexivity|].
    rewrite !forEach_cons, (viewStep_casing config1 config2) by done.
    destruct (uniform_viewStep config2 resultViews view) as (emitted & out & Hstep).
    unfold bind. rewrite !Hstep. destruct out as [resultViews'|e]; [apply IH|done]. }
  specialize (Hsame (views objects ++ matViews objects)%list ∅ l1' l2').
  rewrite Hviews1, Hviews2 in Hsame. by injection Hsame.
Qed.

(** X20.  Enums, schemas, sequences and roles never make the conversion
    fail and never print: replacing them by any others leaves the
    diagnostics as they are, and the conversion ends in an error exactly
    when it did before, with the same error. *)
Theorem only_tables_policies_and_views_can_fail `{Host} (config : PartialConfig)
    (objects : DrizzleObjects) (enums' : list PgEnum) (schemas' : list PgSchema)
    (sequences' : list PgSequence) (roles' : list PgRole) (log : list diagnostic) :
  let objects' :=
    {| tables := tables objects; enums := enums'; schemas := schemas';
       sequences := sequences'; roles := roles'; policies := policies objects;
       views := views objects; matViews := matViews objects;
       relations := relations objects |} in
  (drizzleObjectsToSnapshot config objects log).1
  = (drizzleObjectsToSnapshot config objects' log).1
  ∧ (∀ e, (drizzleObjectsToSnapshot config objects log).2 = Thrown e
          ↔ (drizzleObjectsToSnapshot config objects' log).2 = Thrown e)
  ∧ (throws (drizzleObjectsToSnapshot config objects log)
     ↔ throws (drizzleObjectsToSnapshot config objects' log)).
Proof.
  intros objects'. unfold throws, drizzleObjectsToSnapshot. simpl.
  unfold bind.
  destruct (tablesLoop config (relations objects) (tables objects) log)
    as [log1 [st|e1]]; [|done].
  destruct (forEach (policyStep config) (result st, ∅) (policies objects) log1)
    as [log2 [[result' policiesToReturn]|e2]]; [|done].
  destruct (forEach (viewStep config) ∅ (views objects ++ matViews objects)%list log2)
    as [log3 [resultViews|e3]]; [|done].
  simpl. repeat split; try done.
  - intros [e He]. discriminate.
  - intros [e He]. discriminate.
Qed.

(** ** Worked instances of the further properties *)

(** One table and one policy that is not linked. *)
Lemma returned_log_is_the_unlinked_notices_witness :
  ∃ log' snapshot,
    drizzleObjectsToSnapshot (H := plainHost) noConfig
      (onlyTables [plainTable None "users"] [plainPolicy "p" None]) []
    = (log', Returned snapshot)
    ∧ log' = [PolicySkipped "p"].
Proof.
  destruct (drizzleObjectsToSnapshot (H := plainHost) noConfig
              (onlyTables [plainTable None "users"] [plainPolicy "p" None]) [])
    as [log' [snapshot|e]] eqn:Hrun; [|vm_compute in Hrun; discriminate].
  exists log', snapshot. split; [reflexivity|].
  exact (returned_log_is_the_unlinked_notices (H := plainHost) noConfig _ _ _ _ Hrun).
Defined.

(** Two unique columns whose constraints have the same name. *)
Lemma thrown_error_is_announced_witness :
  ∃ log' e,
    drizzleObjectsToSnapshot (H := plainHost) noConfig
      (onlyTables
         [tableWithColumns None "users"
            [uniqueColumn "email" "users_email_unique";
             uniqueColumn "login" "users_email_unique"]] []) []
    = (log', Thrown e)
    ∧ (silent e ∨ ∃ printed, log' = (printed ++ [Reported e])%list).
Proof.
  destruct (drizzleObjectsToSnapshot (H := plainHost) noConfig
              (onlyTables
                 [tableWithColumns None "users"
                    [uniqueColumn "email" "users_email_unique";
                     uniqueColumn "login" "users_email_unique"]] []) [])
    as [log' [snapshot|e]] eqn:Hrun; [vm_compute in Hrun; discriminate|].
  exists log', e. split; [reflexivity|].
  exact (thrown_error_is_announced (H := plainHost) noConfig _ _ _ _ Hrun).
Defined.

(** Two sequences [public.s]; the second declares an increment. *)
Lemma first_sequence_wins_witness :
  ∃ log' snapshot,
    drizzleObjectsToSnapshot (H := plainHost) noConfig
      (otherObjects [] []
         [plainSequence None "s" None;
          plainSequence None "s" (Some (onlyIncrement (NumNumber 5)))] []) []
    = (log', Returned snapshot)
    ∧ is_Some (snapshot_sequences snapshot !! "public.s")
    ∧ snapshot_sequences snapshot !! "public.s"
      = sequenceStep ∅ (plainSequence None "s" None) !! "public.s".
Proof.
  destruct (drizzleObjectsToSnapshot (H := plainHost) noConfig
              (otherObjects [] []
                 [plainSequence None "s" None;
                  plainSequence None "s" (Some (onlyIncrement (NumNumber 5)))] []) [])
    as [log' [snapshot|e]] eqn:Hrun; [|vm_compute in Hrun; discriminate].
  exists log', snapshot. split; [reflexivity|].
  apply (first_sequence_wins (H := plainHost) noConfig _ []
           [plainSequence None "s" (Some (onlyIncrement (NumNumber 5)))]
           (plainSequence None "s" None) _ _ _ Hrun); [reflexivity|].
  intros other Hother. by apply elem_of_nil in Hother.
Defined.

(** Two enums [public.mood]; the second has one more value. *)
Lemma last_enum_wins_witness :
  ∃ log' snapshot,
    drizzleObjectsToSnapshot (H := plainHost) noConfig
      (otherObjects
         [{| en_enumName := "mood"; en_schema := None; en_enumValues := ["sad"] |};
          {| en_enumName := "mood"; en_schema := Some EmptyString;
             en_enumValues := ["sad"; "happy"] |}] [] [] []) []
    = (log', Returned snapshot)
    ∧ snapshot_enums snapshot !! "public.mood"
      = Some {| enum_name := "mood"; enum_schema := "public";
                enum_values := ["sad"; "happy"] |}.
Proof.
  destruct (drizzleObjectsToSnapshot (H := plainHost) noConfig
              (otherObjects
                 [{| en_enumName := "mood"; en_schema := None; en_enumValues := ["sad"] |};
                  {| en_enumName := "mood"; en_schema := Some EmptyString;
                     en_enumValues := ["sad"; "happy"] |}] [] [] []) [])
    as [log' [snapshot|e]] eqn:Hrun; [|vm_compute in Hrun; discriminate].
  exists log', snapshot. split; [reflexivity|].
  apply (last_enum_wins (H := plainHost) noConfig _
           [{| en_enumName := "mood"; en_schema := None; en_enumValues := ["sad"] |}] []
           {| en_enumName := "mood"; en_schema := Some EmptyString;
              en_enumValues := ["sad"; "happy"] |} _ _ _ Hrun); [reflexivity|].
  intros other Hother. by apply elem_of_nil in Hother.
Defined.

(** An existing role and a role to create. *)
Lemma roles_of_snapshot_witness :
  ∃ log' snapshot,
    drizzleObjectsToSnapshot (H := plainHost) noConfig
      (otherObjects [] [] []
         [{| role_name := "admin"; role_existing := true; role_createDb := None;
             role_createRole := None; role_inherit := None |};
          {| role_name := "app"; role_existing := false; role_createDb := Some true;
             role_createRole := None; role_inherit := None |}]) []
    = (log', Returned snapshot)
    ∧ is_Some (snapshot_roles snapshot !! "app")
    ∧ ¬ is_Some (snapshot_roles snapshot !! "admin").
Proof.
  destruct (drizzleObjectsToSnapshot (H := plainHost) noConfig
              (otherObjects [] [] []
                 [{| role_name := "admin"; role_existing := true; role_createDb := None;
                     role_createRole := None; role_inherit := None |};
                  {| role_name := "app"; role_existing := false;
                     role_createDb := Some true;
                     role_createRole := None; role_inherit := None |}]) [])
    as [log' [snapshot|e]] eqn:Hrun; [|vm_compute in Hrun; discriminate].
  exists log', snapshot. split; [reflexivity|].
  destruct (roles_of_snapshot (H := plainHost) noConfig _ _ _ _ Hrun) as [Hnames _].
  split.
  - apply Hnames. split; [done|]. eexists. split; [right; left|]. by split.
  - intros (_ & role & Hrole & Hexisting & Hname)%Hnames. simpl in Hrole.
    apply elem_of_cons in Hrole as [->|Hrole]; [discriminate|].
    apply elem_of_cons in Hrole as [->|Hrole]; [discriminate|].
    by apply elem_of_nil in Hrole.
Defined.

(** The schemas [public], [auth] and [audit] under the filter [public],
    [auth]. *)
Lemma schemas_of_snapshot_witness :
  ∃ log' snapshot,
    drizzleObjectsToSnapshot (H := plainHost)
      {| cfg_casing := None; cfg_schemaFilter := Some ["public"; "auth"];
         cfg_projectId := None; cfg_roles := None |}
      (otherObjects []
         [{| schemaName := "public" |}; {| schemaName := "auth" |};
          {| schemaName := "audit" |}] [] []) []
    = (log', Returned snapshot)
    ∧ snapshot_schemas snapshot !! "auth" = Some "auth"
    ∧ snapshot_schemas snapshot !! "public" ≠ Some "public"
    ∧ snapshot_schemas snapshot !! "audit" ≠ Some "audit".
Proof.
  destruct (drizzleObjectsToSnapshot (H := plainHost)
              {| cfg_casing := None; cfg_schemaFilter := Some ["public"; "auth"];
                 cfg_projectId := None; cfg_roles := None |}
              (otherObjects []
                 [{| schemaName := "public" |}; {| schemaName := "auth" |};
                  {| schemaName := "audit" |}] [] []) [])
    as [log' [snapshot|e]] eqn:Hrun; [|vm_compute in Hrun; discriminate].
  exists log', snapshot. split; [reflexivity|].
  pose proof (schemas_of_snapshot (H := plainHost) _ _ _ _ _ Hrun) as Hschemas.
  repeat split.
  - apply Hschemas. simpl. repeat split; [done| |].
    + right. left.
    + right. left.
  - intros (_ & Hpublic & _)%Hschemas. done.
  - intros (_ & _ & _ & Hfilter)%Hschemas. simpl in Hfilter.
    apply elem_of_cons in Hfilter as [Hfilter|Hfilter]; [discriminate|].
    apply elem_of_cons in Hfilter as [Hfilter|Hfilter]; [discriminate|].
    by apply elem_of_nil in Hfilter.
Defined.

(** A sequence without options, recorded first. *)
Lemma sequence_range_defaults_witness :
  ∃ entity,
    sequenceStep ∅ (plainSequence None "s" None) !! "public.s" = Some entity
    ∧ sequence_increment entity = "1"
    ∧ sequence_minValue entity = "1"
    ∧ sequence_maxValue entity = "9223372036854775807"
    ∧ sequence_startWith entity = "1".
Proof.
  destruct (sequence_range_defaults ∅ (plainSequence None "s" None))
    as (entity & Hentity & _ & _ & Hdefaults & _); try reflexivity.
  exists entity. split; [exact Hentity|]. by apply Hdefaults.
Defined.

(** An empty project id. *)
Lemma header_of_snapshot_witness :
  ∃ log' snapshot,
    drizzleObjectsToSnapshot (H := plainHost)
      {| cfg_casing := None; cfg_schemaFilter := None;
         cfg_projectId := Some EmptyString; cfg_roles := None |}
      (onlyTables [] []) []
    = (log', Returned snapshot)
    ∧ snapshot_version snapshot = "7"
    ∧ snapshot_dialect snapshot = "postgresql"
    ∧ snapshot_meta snapshot = (∅, ∅, ∅)
    ∧ snapshot_projectId snapshot = "drizzle-lab".
Proof.
  destruct (drizzleObjectsToSnapshot (H := plainHost)
              {| cfg_casing := None; cfg_schemaFilter := None;
                 cfg_projectId := Some EmptyString; cfg_roles := None |}
              (onlyTables [] []) [])
    as [log' [snapshot|e]] eqn:Hrun; [|vm_compute in Hrun; discriminate].
  exists log', snapshot. split; [reflexivity|].
  exact (header_of_snapshot (H := plainHost) _ _ _ _ _ Hrun).
Defined.

(** A timestamp column whose default is a date. *)
Lemma date_default_formats_witness :
  defaultOf (H := plainHost) noConfig
    (columnWithDefault "created" "timestamp" "PgTimestamp"
       (VDate "2024-01-02T03:04:05.678Z"))
  = Some (VString "'2024-01-02 03:04:05.678'").
Proof.
  refine (proj1 (proj2 (date_default_formats (H := plainHost) noConfig
                          (columnWithDefault "created" "timestamp" "PgTimestamp"
                             (VDate "2024-01-02T03:04:05.678Z"))
                          "2024-01-02" "03:04:05.678Z" eq_refl eq_refl eq_refl _ _))
            eq_refl).
  all: intros Hjson; vm_compute in Hjson; discriminate.
Defined.

(** The type [integer[][]]. *)
Lemma array_literal_ignores_dimensions_witness :
  buildArrayString (H := plainHost) [VNumber 1; VNumber 2] "integer[][]"
  = buildArrayString (H := plainHost) [VNumber 1; VNumber 2] "integer".
Proof.
  exact (array_literal_ignores_dimensions (H := plainHost) [VNumber 1; VNumber 2]
           "integer" "][]" eq_refl).
Defined.

(** An identity column with the increment [-5]. *)
Lemma numeric_increment_sign_witness :
  ∃ resolved,
    column_identity
      (columnToSet (H := plainHost) noConfig "users" "id" None None None
         (identityColumn (Some (onlyIncrement (NumNumber (-5))))))
    = Some resolved
    ∧ identity_increment resolved = "-5"
    ∧ identity_maxValue resolved = "-1"
    ∧ identity_startWith resolved = "-1".
Proof.
  destruct (numeric_increment_sign (H := plainHost) noConfig "users" "id" None None None
              (identityColumn (Some (onlyIncrement (NumNumber (-5)))))
              (alwaysIdentity (Some (onlyIncrement (NumNumber (-5))))) (-5)
              eq_refl eq_refl eq_refl eq_refl eq_refl)
    as (resolved & Hresolved & _ & Hincrement & Hnegative & _).
  exists resolved. split; [exact Hresolved|].
  split; [apply Hincrement; by vm_compute|]. apply Hnegative. lia.
Defined.

(** Two checks named [positive] on one table. *)
Lemma check_names_are_distinct_in_a_table_witness :
  filteredOut noConfig
    (tableWithChecks None "orders"
       [plainCheck "positive" "total > 0"; plainCheck "positive" "items > 0"]) = false
  ∧ ∀ log,
      forEach (tableCheck (H := plainHost) noConfig
                 (tableWithChecks None "orders"
                    [plainCheck "positive" "total > 0";
                     plainCheck "positive" "items > 0"]))
        (∅, ∅) [plainCheck "positive" "total > 0"; plainCheck "positive" "items > 0"] log
      = ((log ++ [Reported (DuplicateCheckConstraintNameError "public" "orders")])%list,
         Thrown (DuplicateCheckConstraintNameError "public" "orders")).
Proof.
  split; [reflexivity|].
  apply (proj1 (check_names_are_distinct_in_a_table (H := plainHost) noConfig
                  (tableWithChecks None "orders"
                     [plainCheck "positive" "total > 0";
                      plainCheck "positive" "items > 0"]) eq_refl)).
  apply (bool_decide_unpack _). vm_compute. exact I.
Defined.

(** A view and a materialized view in different schemas. *)
Lemma views_of_snapshot_witness :
  ∃ log' snapshot,
    drizzleObjectsToSnapshot (H := plainHost) publicOnly
      (onlyViews [plainView false None "recent" "select 1"]
         [plainView true (Some "stats") "totals" "select 2"]) []
    = (log', Returned snapshot)
    ∧ ∀ key, is_Some (snapshot_views snapshot !! key)
             ↔ key ∈ ["public.recent"; "stats.totals"].
Proof.
  destruct (drizzleObjectsToSnapshot (H := plainHost) publicOnly
              (onlyViews [plainView false None "recent" "select 1"]
                 [plainView true (Some "stats") "totals" "select 2"]) [])
    as [log' [snapshot|e]] eqn:Hrun; [|vm_compute in Hrun; discriminate].
  exists log', snapshot. split; [reflexivity|].
  exact (proj1 (proj2 (views_of_snapshot (H := plainHost) _ _ _ _ _ Hrun))).
Defined.

(** A policy linked to a table that is given and one linked to a table
    that is not. *)
Lemma linked_policy_placement_witness :
  ∃ log' snapshot,
    drizzleObjectsToSnapshot (H := plainHost) noConfig
      (onlyTables [plainTable None "users"]
         [plainPolicy "own" (Some (linkTo None "users"));
          plainPolicy "all" (Some (linkTo (Some "auth") "accounts"))]) []
    = (log', Returned snapshot)
    ∧ (∃ table, snapshot_tables snapshot !! "public.users" = Some table
                ∧ is_Some (table_policies table !! "own"))
    ∧ ∃ stored, snapshot_policies snapshot !! "all" = Some stored
                ∧ policy_schema stored = Some "auth".
Proof.
  destruct (drizzleObjectsToSnapshot (H := plainHost) noConfig
              (onlyTables [plainTable None "users"]
                 [plainPolicy "own" (Some (linkTo None "users"));
                  plainPolicy "all" (Some (linkTo (Some "auth") "accounts"))]) [])
    as [log' [snapshot|e]] eqn:Hrun; [|vm_compute in Hrun; discriminate].
  exists log', snapshot. split; [reflexivity|].
  destruct (linked_policy_placement (H := plainHost) noConfig _ _ _ _ Hrun)
    as [Hplaced _].
  pose proof (Hplaced (plainPolicy "own" (Some (linkTo None "users"))) (linkTo None "users"))
    as Hown.
  pose proof (Hplaced (plainPolicy "all" (Some (linkTo (Some "auth") "accounts")))
                (linkTo (Some "auth") "accounts")) as Hall.
  assert (Htables : is_Some (snapshot_tables snapshot !! "public.users")
                    ∧ snapshot_tables snapshot !! "auth.accounts" = None).
  { vm_compute in Hrun. injection Hrun as _ <-. split; [by eexists|reflexivity]. }
  destruct Htables as [[table Htable] Habsent]. split.
  - exists table. split; [done|].
    specialize (Hown ltac:(left) eq_refl). cbv zeta in Hown.
    change (orElse (lt_schema (linkTo None "users")) "public" ++ "."
            ++ lt_name (linkTo None "users")) with "public.users" in Hown.
    rewrite Htable in Hown. by eexists.
  - specialize (Hall ltac:(right; left) eq_refl). cbv zeta in Hall.
    change (orElse (lt_schema (linkTo (Some "auth") "accounts")) "public" ++ "."
            ++ lt_name (linkTo (Some "auth") "accounts")) with "auth.accounts" in Hall.
    rewrite Habsent in Hall. destruct Hall as (stored & Hstored & _ & Hschema & _).
    by exists stored.
Defined.

(** A table with two columns. *)
Lemma entities_are_stored_under_their_names_witness :
  ∃ log' snapshot table,
    drizzleObjectsToSnapshot (H := plainHost) noConfig
      (onlyTables
         [tableWithColumns None "users"
            [plainColumn "id" "integer" "PgInteger"; uniqueColumn "email" "users_email"]]
         []) []
    = (log', Returned snapshot)
    ∧ snapshot_tables snapshot !! "public.users" = Some table
    ∧ wellKeyed table.
Proof.
  destruct (drizzleObjectsToSnapshot (H := plainHost) noConfig
              (onlyTables
                 [tableWithColumns None "users"
                    [plainColumn "id" "integer" "PgInteger";
                     uniqueColumn "email" "users_email"]]
                 []) [])
    as [log' [snapshot|e]] eqn:Hrun; [|vm_compute in Hrun; discriminate].
  destruct (snapshot_tables snapshot !! "public.users") as [table|] eqn:Hkey.
  - exists log', snapshot, table. split; [reflexivity|]. split; [exact Hkey|].
    exact (entities_are_stored_under_their_names (H := plainHost) noConfig _ _ _ _ _ _
             Hrun Hkey).
  - exfalso. vm_compute in Hrun. injection Hrun as _ <-. vm_compute in Hkey.
    discriminate.
Defined.

(** Two tables [users] in different schemas, one of them filtered out. *)
Lemma tables_of_snapshot_witness :
  ∃ log' snapshot,
    drizzleObjectsToSnapshot (H := plainHost) publicOnly
      (onlyTables [plainTable None "users"; plainTable (Some "auth") "users"] []) []
    = (log', Returned snapshot)
    ∧ is_Some (snapshot_tables snapshot !! "public.users")
    ∧ ¬ is_Some (snapshot_tables snapshot !! "auth.users").
Proof.
  destruct (drizzleObjectsToSnapshot (H := plainHost) publicOnly
              (onlyTables [plainTable None "users"; plainTable (Some "auth") "users"] [])
              [])
    as [log' [snapshot|e]] eqn:Hrun; [|vm_compute in Hrun; discriminate].
  exists log', snapshot. split; [reflexivity|].
  pose proof (tables_of_snapshot (H := plainHost) publicOnly _ _ _ _ Hrun) as Hkeys.
  split.
  - apply Hkeys. exists (plainTable None "users"). split; [left|]. by split.
  - intros (table & Hin & Hfilter & Hkey)%Hkeys.
    apply elem_of_cons in Hin as [->|Hin]; [discriminate|].
    apply elem_of_cons in Hin as [->|Hin]; [discriminate|].
    by apply elem_of_nil in Hin.
Defined.


(** A view in the schema [stats], without a filter and under the filter
    [public]. *)
Lemma schema_filter_spares_other_entities_witness :
  ∃ log1 snapshot1 log2 snapshot2,
    drizzleObjectsToSnapshot (H := plainHost) noConfig
      (onlyViews [] [plainView true (Some "stats") "totals" "select 2"]) []
    = (log1, Returned snapshot1)
    ∧ drizzleObjectsToSnapshot (H := plainHost) publicOnly
        (onlyViews [] [plainView true (Some "stats") "totals" "select 2"]) []
      = (log2, Returned snapshot2)
    ∧ snapshot_views snapshot1 = snapshot_views snapshot2.
Proof.
  destruct (drizzleObjectsToSnapshot (H := plainHost) noConfig
              (onlyViews [] [plainView true (Some "stats") "totals" "select 2"]) [])
    as [log1 [snapshot1|e]] eqn:Hrun1; [|vm_compute in Hrun1; discriminate].
  destruct (drizzleObjectsToSnapshot (H := plainHost) publicOnly
              (onlyViews [] [plainView true (Some "stats") "totals" "select 2"]) [])
    as [log2 [snapshot2|e]] eqn:Hrun2; [|vm_compute in Hrun2; discriminate].
  exists log1, snapshot1, log2, snapshot2. split; [reflexivity|]. split; [reflexivity|].
  exact (proj1 (schema_filter_spares_other_entities (H := plainHost) noConfig publicOnly
                  _ _ _ _ _ _ _ eq_refl Hrun1 Hrun2)).
Defined.
